(** * CIE TC1-82 computations ([tc.py]): a shallow embedding

    The numerical pipeline of [tc.py] is embedded over the rationals [Q]:
    every numpy array is a list, every float an exact rational.  Operations
    of numpy and scipy that are not rational (the exponential, real powers of
    ten, spline construction, the Nelder-Mead minimiser, Qhull's convex hull)
    are taken as parameters of the sections that use them.  A float NaN, where
    the code can produce one and a statement depends on it, is [None]. *)

From Stdlib Require Import QArith Qround Qabs Qpower Qminmax.
From Stdlib Require Import ZArith List Lia Lqa Bool Permutation.
Import ListNotations.

Local Open Scope Q_scope.

(* ================================================================== *)
(** ** Rounding utilities ([my_round], [significant_figures]) *)
(* ================================================================== *)

Module Rounding.

(** [np.sign]: -1, 0 or 1. *)
Definition sign (x : Q) : Q := inject_Z (Z.sgn (Qnum x)).

(** [10**n] for an integer [n] (negative exponents give the inverse power). *)
Definition pow10 (n : Z) : Q := 10 ^ n.

(** [my_round(x, n)]: [s*np.floor(np.absolute(x)*10**n + 0.5)/10**n]. *)
Definition my_round (x : Q) (n : Z) : Q :=
  sign x * inject_Z (Qfloor (Qabs x * pow10 n + (1#2))) / pow10 n.

(** [np.ceil(np.log10(x))] for a positive rational [x = p/q]: the least
    integer [b] with [x <= 10^b], found by scaling the denominator (when
    [x > 1]) or the numerator (when [x <= 1]) by ten. *)
Fixpoint log10_up (fuel : nat) (p q b : Z) : Z :=
  match fuel with
  | O => b
  | S f => if (p <=? q)%Z then b else log10_up f p (q * 10)%Z (b + 1)%Z
  end.

Fixpoint log10_down (fuel : nat) (p q k : Z) : Z :=
  match fuel with
  | O => k
  | S f => if (p * 10 <=? q)%Z then log10_down f (p * 10)%Z q (k + 1)%Z else k
  end.

Definition ceil_log10 (x : Q) : Z :=
  let p := Qnum x in
  let q := Zpos (Qden x) in
  if (p <=? q)%Z
  then (- log10_down (S (Z.to_nat (Z.log2 q))) p q 0)%Z
  else log10_up (S (Z.to_nat (Z.log2 p))) p q 0.

(** [significant_figures(x, n)], the branch taken for a Python [float] or
    [int]: [np.log10] is applied to [x] itself, so a negative [x] gives NaN
    ([None]), which [np.ceil], [10**b] and the product propagate. *)
Definition significant_figures_scalar (x : Q) (n : Z) : option Q :=
  if Qeq_bool x 0 then Some 0
  else if Qle_bool x 0 then None
  else let b := ceil_log10 x in
       Some (pow10 b * my_round (x / pow10 b) n).

(** [significant_figures(x, n)], one element of the array branch:
    [b[x == 0] = 0], [b[x != 0] = np.ceil(np.log10(abs(x[x != 0])))],
    result [10**b*my_round(x/10**b, n)]. *)
Definition significant_figures (x : Q) (n : Z) : Q :=
  let b := if Qeq_bool x 0 then 0%Z else ceil_log10 (Qabs x) in
  pow10 b * my_round (x / pow10 b) n.

End Rounding.

Import Rounding.

(* ================================================================== *)
(** ** numpy array primitives *)
(* ================================================================== *)

(** The strict comparison [x < y] as a boolean. *)
Definition Qlt_bool (x y : Q) : bool := negb (Qle_bool y x).

Module Np.

(** [np.sum] of a 1-D array.  The running total is kept in lowest terms:
    [Qred] does not change the rational it is applied to, and without it a
    sum of a few hundred fractions cannot be evaluated. *)
Definition sum (l : list Q) : Q := fold_right (fun x acc => Qred (x + acc)) 0 l.

(** [a.max()] and [a.min()] of a non-empty 1-D array (numpy raises on an
    empty one; the tables of [VisualData] are never empty). *)
Definition max (l : list Q) : Q :=
  match l with [] => 0 | x :: t => fold_left Qmax t x end.

Definition min (l : list Q) : Q :=
  match l with [] => 0 | x :: t => fold_left Qmin t x end.

(** [np.argmin]: the index of the first occurrence of the minimum.  The
    accumulator holds the best index and value so far and the index of the
    element being looked at. *)
Fixpoint argmin_from (l : list Q) (i best : nat) (bv : Q) : nat :=
  match l with
  | [] => best
  | x :: t => if Qlt_bool x bv then argmin_from t (S i) i x
              else argmin_from t (S i) best bv
  end.

Definition argmin (l : list Q) : nat :=
  match l with [] => O | x :: t => argmin_from t 1%nat O x end.

(** [np.argmax]: the index of the first occurrence of the maximum. *)
Fixpoint argmax_from (l : list Q) (i best : nat) (bv : Q) : nat :=
  match l with
  | [] => best
  | x :: t => if Qlt_bool bv x then argmax_from t (S i) i x
              else argmax_from t (S i) best bv
  end.

Definition argmax (l : list Q) : nat :=
  match l with [] => O | x :: t => argmax_from t 1%nat O x end.

(** [start + i*step] for [i < n]. *)
Fixpoint arange_n (start step : Q) (n : nat) : list Q :=
  match n with
  | O => []
  | S k => start :: arange_n (start + step) step k
  end.

(** [np.arange(start, stop, step)]: [ceil((stop - start)/step)] elements,
    none when that is not positive; a zero step is an error ([None]). *)
Definition arange (start stop step : Q) : option (list Q) :=
  if Qeq_bool step 0 then None
  else Some (arange_n start step (Z.to_nat (Qceiling ((stop - start) / step)))).

(** Elementwise combination of two and of three arrays of one shape. *)
Fixpoint map2 {A B C} (f : A -> B -> C) (l1 : list A) (l2 : list B) : list C :=
  match l1, l2 with
  | a :: t1, b :: t2 => f a b :: map2 f t1 t2
  | _, _ => []
  end.

Fixpoint map3 {A B C D} (f : A -> B -> C -> D)
  (l1 : list A) (l2 : list B) (l3 : list C) : list D :=
  match l1, l2, l3 with
  | a :: t1, b :: t2, c :: t3 => f a b c :: map3 f t1 t2 t3
  | _, _, _ => []
  end.

End Np.

(* ================================================================== *)
(** ** Tables *)
(* ================================================================== *)

(** A row of a four-column array: the wavelength and three values. *)
Record row := mkRow { wl : Q; c1 : Q; c2 : Q; c3 : Q }.

(** A 3x3 matrix, by rows. *)
Record mat3 := mkMat {
  m11 : Q; m12 : Q; m13 : Q;
  m21 : Q; m22 : Q; m23 : Q;
  m31 : Q; m32 : Q; m33 : Q }.

(** One column of [np.dot(trans_mat, lms)]. *)
Definition dot (m : mat3) (t : Q * Q * Q) : Q * Q * Q :=
  let '(l, mm, s) := t in
  (m11 m * l + m12 m * mm + m13 m * s,
   m21 m * l + m22 m * mm + m23 m * s,
   m31 m * l + m32 m * mm + m33 m * s).

Definition triple_map (f : Q -> Q) (t : Q * Q * Q) : Q * Q * Q :=
  let '(a, b, c) := t in (f a, f b, f c).

(** [t / (t[0] + t[1] + t[2])], componentwise. *)
Definition normalise (t : Q * Q * Q) : Q * Q * Q :=
  let '(a, b, c) := t in (a / (a + b + c), b / (a + b + c), c / (a + b + c)).

Definition triple_sum (t : Q * Q * Q) : Q := let '(a, b, c) := t in a + b + c.

Definition values (r : row) : Q * Q * Q := (c1 r, c2 r, c3 r).

Definition with_wl (w : Q) (t : Q * Q * Q) : row :=
  let '(a, b, c) := t in mkRow w a b c.

(** The data of class [VisualData]: the arrays read from the files of the
    [data] folder and the ones derived from them when the class is created
    ([cc31], [cc64] and their knots by [chromaticities_from_XYZ];
    [docul1_fine], [docul2_fine] by [docul_fine]). *)
Record VisualData := mkVisualData {
  absorbance : list row;
  macula : list (Q * Q);
  lms10_lin_energ : list row;
  lms10_lin_energ_n_signfig : list row;
  lms2_lin_energ : list row;
  lms2_lin_energ_n_signfig : list row;
  vlambdaLM_10_lin_energ : list (Q * Q);
  vlambdaLM_2_lin_energ : list (Q * Q);
  xyz31 : list row;
  xyz64 : list row;
  docul1_fine : list (Q * Q);
  docul2_fine : list (Q * Q) }.

(* ================================================================== *)
(** ** Chromaticities of the CIE 1931 and 1964 observers *)
(* ================================================================== *)

(** [cc[:,i] = cc[:,i]/ccsum], [i = 1..3], of [chromaticities_from_XYZ]. *)
Definition chromaticities (xyz : list row) : list row :=
  map (fun r => with_wl (wl r) (normalise (values r))) xyz.

(** The five knots: first wavelength, wavelength of minimal x, wavelength of
    maximal y, 700, last wavelength. *)
Definition knots_of (cc : list row) : list Q :=
  let lam := map wl cc in
  [ nth 0 lam 0;
    nth (Np.argmin (map c1 cc)) lam 0;
    nth (Np.argmax (map c2 cc)) lam 0;
    700;
    last lam 0 ].

Definition chromaticities_from_XYZ (xyz31 xyz64 : list row)
  : list row * list row * list Q * list Q :=
  let cc31 := chromaticities xyz31 in
  let cc64 := chromaticities xyz64 in
  (cc31, cc64, knots_of cc31, knots_of cc64).

Definition cc31 (vd : VisualData) : list row := chromaticities (xyz31 vd).
Definition cc64 (vd : VisualData) : list row := chromaticities (xyz64 vd).
Definition cc31knots (vd : VisualData) : list Q := knots_of (cc31 vd).
Definition cc64knots (vd : VisualData) : list Q := knots_of (cc64 vd).

(* ================================================================== *)
(** ** Functions of age and field size *)
(* ================================================================== *)

(** The weight of [docul1_fine] in [ocular]. *)
Definition ocular_coefficient (age : Q) : Q :=
  if Qlt_bool age 60 then 1 + (2#100) * (age - 32)
  else (156#100) + (667#10000) * (age - 60).

(** [ocular(age)]: the optical density of the ocular media. *)
Definition ocular (vd : VisualData) (age : Q) : list (Q * Q) :=
  Np.map2 (fun d1 d2 => (fst d2, ocular_coefficient age * snd d1 + snd d2))
          (docul1_fine vd) (docul2_fine vd).

Section Synthesis.

(** [np.exp] and [10**x] for a real exponent [x]. *)
Variable np_exp : Q -> Q.
Variable pow10r : Q -> Q.

Variable vd : VisualData.

Definition d_mac_max (field_size : Q) : Q :=
  my_round ((485#1000) * np_exp (- field_size / (6132#1000))) 3.

Definition d_LM_max (field_size : Q) : Q :=
  my_round ((38#100) + (54#100) * np_exp (- field_size / (1333#1000))) 3.

Definition d_S_max (field_size : Q) : Q :=
  my_round ((30#100) + (45#100) * np_exp (- field_size / (1333#1000))) 3.

(** [absorpt(field_size)]: quantal absorptance. *)
Definition absorpt (field_size : Q) : list row :=
  map (fun r =>
         mkRow (wl r)
               (1 - pow10r (- d_LM_max field_size * pow10r (c1 r)))
               (1 - pow10r (- d_LM_max field_size * pow10r (c2 r)))
               (1 - pow10r (- d_S_max field_size * pow10r (c3 r))))
      (absorbance vd).

(** Divide one column by its maximum. *)
Definition rescale (col : list Q) : list Q :=
  let m := Np.max col in map (fun v => v / m) col.

Definition of_columns (lam a b c : list Q) : list row :=
  Np.map2 (fun w t => with_wl w t) lam (Np.map3 (fun x y z => (x, y, z)) a b c).

(** [lms_quantal(field_size, age)]. *)
Definition lms_quantal (field_size age : Q) : list row :=
  let abt := absorpt field_size in
  let ocul := ocular vd age in
  let filt := Np.map2 (fun mac oc =>
                pow10r (- d_mac_max field_size * snd mac / (35#100) - snd oc))
                (macula vd) ocul in
  let col f := rescale (Np.map2 (fun r t => f r * t) abt filt) in
  of_columns (map wl abt) (col c1) (col c2) (col c3).

(** [significant_figures] of a whole table, wavelength column included. *)
Definition significant_figures_table (t : list row) (n : Z) : list row :=
  map (fun r => mkRow (significant_figures (wl r) n) (significant_figures (c1 r) n)
                      (significant_figures (c2 r) n) (significant_figures (c3 r) n)) t.

(** [lms_energy_base(field_size, age)]: the table and the maxima before
    renormalisation (a dummy [0] on the two literature shortcuts). *)
Definition lms_energy_base (field_size age : Q) : list row * (Q * Q * Q) :=
  if Qeq_bool age 32 && Qeq_bool field_size 2 then (lms2_lin_energ vd, (0, 0, 0))
  else if Qeq_bool age 32 && Qeq_bool field_size 10 then (lms10_lin_energ vd, (0, 0, 0))
  else
    let lms := lms_quantal field_size age in
    let col f := map (fun r => f r * wl r) lms in
    let out := of_columns (map wl lms) (rescale (col c1)) (rescale (col c2)) (rescale (col c3)) in
    (significant_figures_table out 9,
     (Np.max (col c1), Np.max (col c2), Np.max (col c3))).

(** [lms_energy(field_size, age, signfig)]. *)
Definition lms_energy (field_size age : Q) (signfig : Z) : list row * (Q * Q * Q) :=
  if (signfig =? 6)%Z && Qeq_bool age 32 && Qeq_bool field_size 2
  then (lms2_lin_energ_n_signfig vd, (0, 0, 0))
  else if (signfig =? 6)%Z && Qeq_bool age 32 && Qeq_bool field_size 10
  then (lms10_lin_energ_n_signfig vd, (0, 0, 0))
  else
    let '(lms, lms_max) := lms_energy_base field_size age in
    let '(lms, lms_max) :=
      if (signfig <? 6)%Z && Qeq_bool age 32 && Qeq_bool field_size 2
      then (lms2_lin_energ_n_signfig vd, (0, 0, 0))
      else if (signfig <? 6)%Z && Qeq_bool age 32 && Qeq_bool field_size 10
      then (lms10_lin_energ_n_signfig vd, (0, 0, 0))
      else (lms, lms_max) in
    (significant_figures_table lms signfig, lms_max).

(** [v_lambda_energy_from_lms(field_size, age, v_lambda_signfig, mat_dp)]:
    V(lambda) and the weights [a21], [a22]. *)
Definition v_lambda_energy_from_lms (field_size age : Q) (v_lambda_signfig mat_dp : Z)
  : list (Q * Q) * (Q * Q) :=
  if Qeq_bool age 32 && Qeq_bool field_size 2
  then (vlambdaLM_2_lin_energ vd, (68990272#100000000, 34832189#100000000))
  else if Qeq_bool age 32 && Qeq_bool field_size 10
  then (vlambdaLM_10_lin_energ vd, (69283932#100000000, 34967567#100000000))
  else
    let '(lms, (l_max, m_max, _)) := lms_energy_base field_size age in
    let v := map (fun r => (189#100) * l_max * c1 r + m_max * c2 r) lms in
    let m := Np.max v in
    let a21 := my_round ((189#100) * l_max / m) mat_dp in
    let a22 := my_round (m_max / m) mat_dp in
    (map (fun r => (wl r, significant_figures (a21 * c1 r + a22 * c2 r) v_lambda_signfig)) lms,
     (a21, a22)).

End Synthesis.

(* ================================================================== *)
(** ** Failure: Python exceptions as [None] *)
(* ================================================================== *)

Definition bind {A B} (o : option A) (k : A -> option B) : option B :=
  match o with Some a => k a | None => None end.

Notation "x <- e ;; k" := (bind e (fun x => k))
  (at level 61, e at next level, right associativity).
Notation "' p <- e ;; k" := (bind e (fun p => k))
  (at level 61, p pattern, e at next level, right associativity).

(** Map a function that may fail over a list; the first failure fails all. *)
Fixpoint mapM {A B} (f : A -> option B) (l : list A) : option (list B) :=
  match l with
  | [] => Some []
  | a :: t => b <- f a ;; bs <- mapM f t ;; Some (b :: bs)
  end.

(* ================================================================== *)
(** ** Interpolated reference chromaticities *)
(* ================================================================== *)

(** [scipy.interpolate.interp1d(x, y, kind='linear')] at [x_new], for
    abscissae [x] in increasing order: on the segment that contains [x_new],
    [slope*(x_new - x_lo) + y_lo]; outside [x[0], x[-1]] a [ValueError]. *)
Fixpoint interp1d_linear (x y : list Q) (x_new : Q) : option Q :=
  match x, y with
  | x0 :: ((x1 :: _) as xt), y0 :: ((y1 :: _) as yt) =>
      if Qle_bool x0 x_new && Qle_bool x_new x1
      then Some ((y1 - y0) / (x1 - x0) * (x_new - x0) + y0)
      else interp1d_linear xt yt x_new
  | _, _ => None
  end.

Definition set_first (v : Q) (l : list Q) : list Q :=
  match l with [] => [] | _ :: t => v :: t end.

Definition set_last (v : Q) (l : list Q) : list Q :=
  match l with [] => [] | _ :: _ => removelast l ++ [v] end.

(** [(1 - alpha)*a + alpha*b]: the blend of the two standard observers. *)
Definition blend (alpha a b : Q) : Q := (1 - alpha) * a + alpha * b.

(** [np.arange(360., 831.)]. *)
Definition lambd : list Q := Np.arange_n 360 1 471.

Section Reference.

(** The cubic interpolant that [interp1d(x, y, kind='cubic')] builds. *)
Variable cubic : list Q -> list Q -> Q -> Q.

(** [interp1d(x, y, kind='cubic')] at [x_new]: the same bounds check. *)
Definition interp1d_cubic (x y : list Q) (x_new : Q) : option Q :=
  if Qle_bool (hd 0 x) x_new && Qle_bool x_new (last x 0)
  then Some (cubic x y x_new) else None.

Variable vd : VisualData.

(** [chromaticity_interpolated(field_size)]. *)
Definition chromaticity_interpolated (field_size : Q) : option (list row) :=
  let alpha := (field_size - 2) / 8 in
  let knots := Np.map2 (blend alpha) (cc31knots vd) (cc64knots vd) in
  let knots := set_last 830 (set_first 360 knots) in
  lambda31 <- mapM (interp1d_linear knots (cc31knots vd)) lambd ;;
  lambda64 <- mapM (interp1d_linear knots (cc64knots vd)) lambd ;;
  cc31x <- mapM (interp1d_cubic (map wl (cc31 vd)) (map c1 (cc31 vd))) lambda31 ;;
  cc64x <- mapM (interp1d_cubic (map wl (cc64 vd)) (map c1 (cc64 vd))) lambda64 ;;
  let xvalues := Np.map2 (blend alpha) cc31x cc64x in
  cc31y <- mapM (interp1d_cubic (map wl (cc31 vd)) (map c2 (cc31 vd))) lambda31 ;;
  cc64y <- mapM (interp1d_cubic (map wl (cc64 vd)) (map c2 (cc64 vd))) lambda64 ;;
  let yvalues := Np.map2 (blend alpha) cc31y cc64y in
  let zvalues := Np.map2 (fun xv yv => 1 - xv - yv) xvalues yvalues in
  Some (of_columns lambd xvalues yvalues zvalues).

End Reference.

(* ================================================================== *)
(** ** The transformation from LMS to XYZ *)
(* ================================================================== *)

(** [np.arange(390, 831)]. *)
Definition lambda_390_830 : list Q := Np.arange_n 390 1 441.

Definition sq (x : Q) : Q := x * x.

Section Transform.

(** The interpolating splines of L, M, S and V(lambda). *)
Variables l_spline m_spline s_spline v_spline : Q -> Q.

(** The first component of a triple: the x of a chromaticity. *)
Definition x_of (t : Q * Q * Q) : Q := fst (fst t).

(** [cc_ref[30:,1:]]: the reference chromaticities from 390 nm on. *)
Definition cc_ref_trunk (cc_ref : list row) : list (Q * Q * Q) :=
  map values (skipn 30 cc_ref).

(** The matrix [square_sum] builds for a given [a13]: [a11] and [a12] by the
    closed formulas, the three rounded to [mat_dp] decimal places. *)
Definition trans_mat_of (a13 a21 a22 a33 : Q) (lambdas : list Q)
  (lambda_ref_min : Q) (cc_ref : list row) (mat_dp : Z) : mat3 :=
  let x_ref_min := Np.min (map x_of (cc_ref_trunk cc_ref)) in
  let l_ref := l_spline lambda_ref_min in
  let m_ref := m_spline lambda_ref_min in
  let s_ref := s_spline lambda_ref_min in
  let l_sum := Np.sum (map l_spline lambdas) in
  let m_sum := Np.sum (map m_spline lambdas) in
  let s_sum := Np.sum (map s_spline lambdas) in
  let v_sum := Np.sum (map v_spline lambdas) in
  let a11 := (- m_ref * v_sum +
              a13 * (s_ref * m_sum - m_ref * s_sum) * (-1 + x_ref_min) +
              (a21 * l_ref + a33 * s_ref) * m_sum * x_ref_min +
              m_ref * (a22 * m_sum + v_sum) * x_ref_min) /
             ((m_ref * l_sum - l_ref * m_sum) * (-1 + x_ref_min)) in
  let a12 := (l_ref * v_sum -
              a13 * (s_ref * l_sum - l_ref * s_sum) * (-1 + x_ref_min) -
              ((a21 * l_ref + a22 * m_ref + a33 * s_ref) * l_sum +
               l_ref * v_sum) * x_ref_min) /
             ((m_ref * l_sum - l_ref * m_sum) * (-1 + x_ref_min)) in
  let a11 := my_round a11 mat_dp in
  let a12 := my_round a12 mat_dp in
  let a13 := my_round a13 mat_dp in
  mkMat a11 a12 a13 a21 a22 0 0 0 a33.

(** The tristimulus values a matrix gives at 390, 391, ..., 830 nm, rounded
    to [xyz_signfig] significant figures. *)
Definition modelled_xyz (trans_mat : mat3) (xyz_signfig : Z) : list (Q * Q * Q) :=
  map (fun w => triple_map (fun v => significant_figures v xyz_signfig)
                           (dot trans_mat (l_spline w, m_spline w, s_spline w)))
      lambda_390_830.

(** Their chromaticities. *)
Definition modelled_cc (trans_mat : mat3) (xyz_signfig : Z) : list (Q * Q * Q) :=
  map normalise (modelled_xyz trans_mat xyz_signfig).

(** [((cc - cc_ref_trunk)**2).sum()]. *)
Definition squared_error (cc : list (Q * Q * Q)) (cc_ref : list row) : Q :=
  Np.sum (Np.map2 (fun c r =>
                     let '(cx, cy, cz) := c in
                     let '(rx, ry, rz) := r in
                     sq (cx - rx) + sq (cy - ry) + sq (cz - rz))
                  cc (cc_ref_trunk cc_ref)).

(** [np.arange(390, 831)[cc[0,:].argmin()]]. *)
Definition lambda_test_min_of (cc : list (Q * Q * Q)) : Q :=
  nth (Np.argmin (map x_of cc)) lambda_390_830 0.

(** [square_sum(..., full_results=True, ...)]:
    [(err, trans_mat, lambda_test_min, ok)]. *)
Definition square_sum_full (a13 a21 a22 a33 : Q) (lambdas : list Q)
  (lambda_ref_min : Q) (cc_ref : list row) (xyz_signfig mat_dp : Z)
  : Q * mat3 * Q * bool :=
  let trans_mat := trans_mat_of a13 a21 a22 a33 lambdas lambda_ref_min cc_ref mat_dp in
  let cc := modelled_cc trans_mat xyz_signfig in
  let err := squared_error cc cc_ref in
  let lambda_test_min := lambda_test_min_of cc in
  let ok := Qeq_bool lambda_test_min lambda_ref_min in
  (err, trans_mat, lambda_test_min, ok).

(** [square_sum(..., full_results=False, ...)]: the error alone. *)
Definition square_sum (a13 a21 a22 a33 : Q) (lambdas : list Q)
  (lambda_ref_min : Q) (cc_ref : list row) (xyz_signfig mat_dp : Z) : Q :=
  fst (fst (fst (square_sum_full a13 a21 a22 a33 lambdas lambda_ref_min cc_ref
                                 xyz_signfig mat_dp))).

(** [scipy.optimize.fmin(func, x0, xtol=...)]: the Nelder-Mead minimiser,
    given the objective, the starting point and the tolerance. *)
Variable fmin : (Q -> Q) -> Q -> Q -> Q.

(** The loop [while not ok: ...] of [compute_tabulated].  The code has no
    counter; [fuel] bounds the number of passes the model follows, and
    [None] means the loop was still running when the fuel ran out. *)
Fixpoint solve (fuel : nat) (a21 a22 a33 : Q) (lambdas : list Q)
  (lambda_ref_min : Q) (cc_ref : list row) (xyz_signfig mat_dp : Z)
  : option (Q * mat3 * Q) :=
  match fuel with
  | O => None
  | S f =>
      let a13 := fmin (fun a => square_sum a a21 a22 a33 lambdas lambda_ref_min
                                           cc_ref xyz_signfig mat_dp)
                      (39#100) (pow10 (- (mat_dp + 2))) in
      let '(err, trans_mat, lambda_test_min, ok) :=
        square_sum_full a13 a21 a22 a33 lambdas lambda_ref_min cc_ref
                        xyz_signfig mat_dp in
      if ok then Some (err, trans_mat, lambda_test_min)
      else solve f a21 a22 a33 lambdas lambda_test_min cc_ref xyz_signfig mat_dp
  end.

End Transform.

(* ================================================================== *)
(** ** Chromaticity diagrams *)
(* ================================================================== *)

(** One row of [cc]: [my_round(xyz/(X + Y + Z), cc_dp)]. *)
Definition cc_row (cc_dp : Z) (xyz : Q * Q * Q) : Q * Q * Q :=
  triple_map (fun v => my_round v cc_dp) (normalise xyz).

(** One row of the MacLeod-Boynton table [bm]:
    [trans_mat[1,0]*L/V], [trans_mat[1,1]*M/V], [S/V/bm_s_max], rounded. *)
Definition bm_row (trans_mat : mat3) (bm_s_max : Q) (bm_dp : Z)
  (lms : Q * Q * Q) (v : Q) : Q * Q * Q :=
  let '(l, m, s) := lms in
  triple_map (fun t => my_round t bm_dp)
             (m21 trans_mat * l / v, m22 trans_mat * m / v, s / v / bm_s_max).

(** The same before rounding, as stored in [plots['bm']]. *)
Definition bm_row_plot (trans_mat : mat3) (bm_s_max : Q)
  (lms : Q * Q * Q) (y : Q) : Q * Q * Q :=
  let '(l, m, s) := lms in
  (m21 trans_mat * l / y, m22 trans_mat * m / y, s / y / bm_s_max).

(** [np.sum(a, 0)] of a three-column array: the three column sums. *)
Definition column_sums (a : list (Q * Q * Q)) : Q * Q * Q :=
  (Np.sum (map (fun t => fst (fst t)) a),
   Np.sum (map (fun t => snd (fst t)) a),
   Np.sum (map snd a)).

(** [a / s], each column by its own divisor. *)
Definition divide_columns (s : Q * Q * Q) (t : Q * Q * Q) : Q * Q * Q :=
  let '(a, b, c) := t in
  let '(sa, sb, sc) := s in (a / sa, b / sb, c / sc).

(** [lms_N[:,1:] = lms_N[:,1:] / np.sum(lms_N[:,1:], 0)]. *)
Definition lms_N_of (lms : list (Q * Q * Q)) : list (Q * Q * Q) :=
  map (divide_columns (column_sums lms)) lms.

(** One row of [lm]: the normalised row of [lms_N], rounded. *)
Definition lm_row (lm_dp : Z) (n : Q * Q * Q) : Q * Q * Q :=
  triple_map (fun v => my_round v lm_dp) (normalise n).

(* ================================================================== *)
(** ** The purple line *)
(* ================================================================== *)

(** [np.argmax(np.abs(hull[:,0] - hull[:,1]))]: the first edge of the hull
    whose two point indices differ most. *)
Definition index_gap (e : nat * nat) : Q :=
  inject_Z (Z.abs (Z.of_nat (fst e) - Z.of_nat (snd e))).

(** The two rows of a purple line: the points of that edge, each as
    (wavelength, first coordinate, second coordinate).  [None] when the hull
    is empty ([np.argmax] raises) or an index is outside the table. *)
Definition purple_line (hull : list (nat * nat)) (points : list (Q * Q * Q))
  : option ((Q * Q * Q) * (Q * Q * Q)) :=
  match hull with
  | [] => None
  | _ :: _ =>
      let ind := Np.argmax (map index_gap hull) in
      e <- nth_error hull ind ;;
      p0 <- nth_error points (fst e) ;;
      p1 <- nth_error points (snd e) ;;
      Some (p0, p1)
  end.

(** [line[:,1:] = my_round(line[:,1:], dp)]. *)
Definition round_line (dp : Z) (line : (Q * Q * Q) * (Q * Q * Q))
  : (Q * Q * Q) * (Q * Q * Q) :=
  let '((w0, a0, b0), (w1, a1, b1)) := line in
  ((w0, my_round a0 dp, my_round b0 dp), (w1, my_round a1 dp, my_round b1 dp)).

(** The "hack to report correct wavelength also for the chromaticity
    diagram": the wavelength of the second point of the cc line is replaced
    by that of the bm line when they differ. *)
Definition report_bm_wavelength (purple_line_cc purple_line_bm : (Q * Q * Q) * (Q * Q * Q))
  : (Q * Q * Q) * (Q * Q * Q) :=
  let '(p0, (w1, a1, b1)) := purple_line_cc in
  let '(_, (w1_bm, _, _)) := purple_line_bm in
  if negb (Qeq_bool w1 w1_bm) then (p0, (w1_bm, a1, b1)) else purple_line_cc.

(** The 2-D points handed to [Delaunay]. *)
Definition points_of (cols : list (Q * Q * Q)) : list (Q * Q) :=
  map (fun t => (snd (fst t), snd t)) cols.

(** What [Delaunay(points).convex_hull] is, by scipy's documentation: the
    facets of the convex hull of the points, in two dimensions its edges,
    each given by the indices of its two end points (in an order and an
    orientation that Qhull chooses).  [orient p q r] is twice the signed area
    of the triangle [p q r]; an edge of the hull has every point on one of
    its sides. *)
Definition orient (p q r : Q * Q) : Q :=
  (fst q - fst p) * (snd r - snd p) - (snd q - snd p) * (fst r - fst p).

Definition hull_edgeb (pts : list (Q * Q)) (i j : nat) : bool :=
  match nth_error pts i, nth_error pts j with
  | Some p, Some q =>
      negb (Nat.eqb i j) &&
      (forallb (fun r => Qle_bool 0 (orient p q r)) pts ||
       forallb (fun r => Qle_bool (orient p q r) 0) pts)
  | _, _ => false
  end.

(** A list of index pairs is a convex hull of the points when its entries
    are edges of the hull and every edge is listed, in one orientation or
    the other. *)
Definition is_convex_hull (pts : list (Q * Q)) (hull : list (nat * nat)) : Prop :=
  (forall e, In e hull -> hull_edgeb pts (fst e) (snd e) = true) /\
  (forall i j, hull_edgeb pts i j = true -> In (i, j) hull \/ In (j, i) hull).

(** Two purple lines have the same end points, in either order. *)
Definition same_end_points (l1 l2 : (Q * Q * Q) * (Q * Q * Q)) : Prop :=
  (fst l1 = fst l2 /\ snd l1 = snd l2) \/ (fst l1 = snd l2 /\ snd l1 = fst l2).

(* ================================================================== *)
(** ** [compute_tabulated] *)
(* ================================================================== *)

(** The exceptions the modelled operations raise. *)
Inductive exn : Type :=
| ZeroDivisionError   (* np.arange with a zero step *)
| ValueError          (* interp1d outside its range, argmax of an empty hull *)
| IndexError          (* a hull index outside the table *)
| QhullError.         (* Delaunay on a degenerate point cloud *)

(** What a call comes to: a returned value, a raised exception, or a loop
    that was still running when the model's fuel ran out. *)
Inductive outcome (A : Type) : Type :=
| Return (a : A)
| Raise (e : exn)
| Running.

Arguments Return {A} a.
Arguments Raise {A} e.
Arguments Running {A}.

Definition obind {A B} (o : outcome A) (k : A -> outcome B) : outcome B :=
  match o with
  | Return a => k a
  | Raise e => Raise e
  | Running => Running
  end.

Notation "x <~ e ;; k" := (obind e (fun x => k))
  (at level 61, e at next level, right associativity).
Notation "' p <~ e ;; k" := (obind e (fun p => k))
  (at level 61, p pattern, e at next level, right associativity).

Definition or_raise {A} (e : exn) (o : option A) : outcome A :=
  match o with Some a => Return a | None => Raise e end.

Definition or_running {A} (o : option A) : outcome A :=
  match o with Some a => Return a | None => Running end.

Definition line : Type := (Q * Q * Q) * (Q * Q * Q).

(** The dictionary [plots]. *)
Record plots_t := mkPlots {
  plots_lms : list row;
  plots_xyz : list row;
  plots_cc : list row;
  plots_bm : list row;
  plots_lm : list row;
  plots_purple_line_cc : line;
  plots_purple_line_bm : line;
  plots_purple_line_lm : line;
  plots_xyz31 : list row;
  plots_xyz64 : list row;
  plots_cc31 : list row;
  plots_cc64 : list row;
  plots_purple_line_cc31 : line;
  plots_purple_line_cc64 : line }.

(** The tuple [compute_tabulated] returns. *)
Record results := mkResults {
  res_xyz : list row;
  res_cc : list row;
  res_cc_white : Q * Q * Q;
  res_trans_mat : mat3;
  res_lms_standard : list row;
  res_lms : list row;
  res_bm : list row;
  res_bm_white : Q * Q * Q;
  res_lm : list row;
  res_lm_white : Q * Q * Q;
  res_lambda_ref_min : Q;
  res_purple_line_cc : line;
  res_purple_line_bm : line;
  res_purple_line_lm : line;
  res_plots : plots_t }.

Definition tabulate (lambdas : list Q) (a : list (Q * Q * Q)) : list row :=
  Np.map2 with_wl lambdas a.

(** The state of [compute_tabulated] after resampling: the table [lms] at
    full resolution (also [plots['lms']]), the weights [a21], [a22], the
    normalisation [bm_s_max], and the seven splines. *)
Record resampled := mkResampled {
  rs_lms : list row;
  rs_weights : Q * Q;
  rs_bm_s_max : Q;
  rs_l : Q -> Q;
  rs_m : Q -> Q;
  rs_s : Q -> Q;
  rs_ls : Q -> Q;
  rs_ms : Q -> Q;
  rs_ss : Q -> Q;
  rs_v : Q -> Q }.

Section Pipeline.

Variable np_exp : Q -> Q.
Variable pow10r : Q -> Q.
(** [scipy.interpolate.InterpolatedUnivariateSpline(x, y)]. *)
Variable spline : list Q -> list Q -> Q -> Q.
Variable cubic : list Q -> list Q -> Q -> Q.
Variable fmin : (Q -> Q) -> Q -> Q -> Q.
(** [Delaunay(points).convex_hull]: the edges of the hull, each a pair of
    point indices; [None] when Qhull fails. *)
Variable convex_hull : list (Q * Q) -> option (list (nat * nat)).

Variable vd : VisualData.

(** Hull, widest edge, its two rows: the purple line of one diagram. *)
Definition purple_line_of (cols : list (Q * Q * Q)) : outcome line :=
  hull <~ or_raise QhullError (convex_hull (points_of cols)) ;;
  match hull with
  | [] => Raise ValueError
  | _ :: _ => or_raise IndexError (purple_line hull cols)
  end.

(** The first part of [compute_tabulated], up to the splines. *)
Definition resample (field_size age : Q) (xyz_signfig mat_dp lms_signfig : Z)
  : resampled :=
  let '(lms, _) := lms_energy_base np_exp pow10r vd field_size age in
  let '(lms_standard, _) := lms_energy np_exp pow10r vd field_size age lms_signfig in
  let '(v_lambda, weights) :=
    v_lambda_energy_from_lms np_exp pow10r vd field_size age xyz_signfig mat_dp in
  (* For normalisation of Boynton-MacLeod *)
  let bm_s_max := Np.max (Np.map2 (fun r v => c3 r / snd v) lms v_lambda) in
  mkResampled lms weights bm_s_max
    (spline (map wl lms) (map c1 lms))
    (spline (map wl lms) (map c2 lms))
    (spline (map wl lms) (map c3 lms))
    (spline (map wl lms_standard) (map c1 lms_standard))
    (spline (map wl lms_standard) (map c2 lms_standard))
    (spline (map wl lms_standard) (map c3 lms_standard))
    (spline (map fst v_lambda) (map snd v_lambda)).

(** [a33 = my_round(v_values.sum() / s_values.sum(), mat_dp)]. *)
Definition a33_of (rs : resampled) (lambdas : list Q) (mat_dp : Z) : Q :=
  my_round (Np.sum (map (rs_v rs) lambdas) / Np.sum (map (rs_s rs) lambdas)) mat_dp.

(** The part of [compute_tabulated] after the loop: the tables, the white
    points, the purple lines and the returned tuple. *)
Definition tabulate_results (rs : resampled) (lambdas : list Q) (trans_mat : mat3)
  (lambda_ref_min : Q) (xyz_signfig cc_dp lms_signfig bm_dp lm_dp : Z)
  : outcome results :=
  let lms := map (fun w => (rs_l rs w, rs_m rs w, rs_s rs w)) lambdas in
  let lms_standard := map (fun w => (rs_ls rs w, rs_ms rs w, rs_ss rs w)) lambdas in
  let v_values := map (rs_v rs) lambdas in
  let bm_s_max := rs_bm_s_max rs in
  let xyz := map (fun t => triple_map (fun v => significant_figures v xyz_signfig)
                                      (dot trans_mat t)) lms in
  let cc := map (cc_row cc_dp) xyz in
  let cc_white := triple_map (fun v => my_round v cc_dp) (normalise (column_sums xyz)) in
  (* Versions for plotting and purple line *)
  let p_xyz := map (fun r => triple_map (fun v => significant_figures v xyz_signfig)
                                         (dot trans_mat (values r))) (rs_lms rs) in
  let p_cc := map normalise p_xyz in
  (* Boynton-MacLeod *)
  let bm := Np.map2 (bm_row trans_mat bm_s_max bm_dp) lms v_values in
  let p_bm := Np.map2 (fun r y => bm_row_plot trans_mat bm_s_max (values r) y)
                      (rs_lms rs) (map (fun t => snd (fst t)) p_xyz) in
  let L_E := m21 trans_mat * Np.sum (map (fun t => fst (fst t)) lms) in
  let M_E := m22 trans_mat * Np.sum (map (fun t => snd (fst t)) lms) in
  let S_E := Np.sum (map snd lms) / bm_s_max in
  let bm_white := triple_map (fun v => my_round v bm_dp)
                    (L_E / (L_E + M_E), M_E / (L_E + M_E), S_E / (L_E + M_E)) in
  (* lm diagram *)
  let lms_N := lms_N_of (if (lm_dp >? 5)%Z then lms else lms_standard) in
  let lm := map (lm_row lm_dp) lms_N in
  let lm_white := triple_map (fun v => my_round v lm_dp) (normalise (column_sums lms_N)) in
  let lms_N_fine := map values (rs_lms rs) in
  let lms_N_fine :=
    if (lm_dp <=? 5)%Z
    then map (triple_map (fun v => significant_figures v lms_signfig)) lms_N_fine
    else lms_N_fine in
  let lms_N_fine := map (divide_columns (column_sums lms_N)) lms_N_fine in
  let p_lm := map normalise lms_N_fine in
  let fine := map wl (rs_lms rs) in
  (* Purple lines *)
  plots_purple_cc <~
    purple_line_of (Np.map2 (fun w t => (w, fst (fst t), snd (fst t))) fine p_cc) ;;
  let purple_line_cc := round_line cc_dp plots_purple_cc in
  plots_purple_bm <~
    purple_line_of (Np.map2 (fun w t => (w, fst (fst t), snd t)) fine p_bm) ;;
  let purple_line_bm := round_line bm_dp plots_purple_bm in
  let purple_line_cc := report_bm_wavelength purple_line_cc purple_line_bm in
  plots_purple_lm <~
    purple_line_of (Np.map2 (fun w t => (w, fst (fst t), snd (fst t))) fine p_lm) ;;
  let purple_line_lm := round_line lm_dp plots_purple_lm in
  (* CIE standards *)
  let round5 := map (fun r => mkRow (my_round (wl r) 5) (my_round (c1 r) 5)
                                    (my_round (c2 r) 5) (my_round (c3 r) 5)) in
  let p_cc31 := round5 (cc31 vd) in
  let p_cc64 := round5 (cc64 vd) in
  purple_line_cc31 <~ purple_line_of (map (fun r => (wl r, c1 r, c2 r)) p_cc31) ;;
  purple_line_cc64 <~ purple_line_of (map (fun r => (wl r, c1 r, c2 r)) p_cc64) ;;
  Return
    (mkResults (tabulate lambdas xyz) (tabulate lambdas cc) cc_white trans_mat
       (tabulate lambdas lms_standard) (tabulate lambdas lms)
       (tabulate lambdas bm) bm_white (tabulate lambdas lm) lm_white
       lambda_ref_min purple_line_cc purple_line_bm purple_line_lm
       (mkPlots (rs_lms rs) (tabulate fine p_xyz) (tabulate fine p_cc)
                (tabulate fine p_bm) (tabulate fine p_lm)
                plots_purple_cc plots_purple_bm plots_purple_lm
                (xyz31 vd) (xyz64 vd) p_cc31 p_cc64
                purple_line_cc31 purple_line_cc64)).

(** [compute_tabulated(field_size, age, resolution, xyz_signfig, cc_dp,
    mat_dp, lms_signfig, bm_dp, lm_dp)]; [fuel] bounds the passes of the
    loop that the model follows. *)
Definition compute_tabulated (fuel : nat) (field_size age resolution : Q)
  (xyz_signfig cc_dp mat_dp lms_signfig bm_dp lm_dp : Z) : outcome results :=
  let rs := resample field_size age xyz_signfig mat_dp lms_signfig in
  lambdas <~ or_raise ZeroDivisionError
               (Np.arange 390 (830 + resolution) resolution) ;;
  (* Compute XYZ and chromaticity diagram *)
  let a33 := a33_of rs lambdas mat_dp in
  cc_ref <~ or_raise ValueError (chromaticity_interpolated cubic vd field_size) ;;
  '(err, trans_mat, lambda_ref_min) <~
    or_running (solve (rs_l rs) (rs_m rs) (rs_s rs) (rs_v rs) fmin fuel
                      (fst (rs_weights rs)) (snd (rs_weights rs)) a33
                      lambdas 500 cc_ref xyz_signfig mat_dp) ;;
  tabulate_results rs lambdas trans_mat lambda_ref_min
                   xyz_signfig cc_dp lms_signfig bm_dp lm_dp.

End Pipeline.

(* ================================================================== *)
(** ** The other functions of [tc.py] *)
(* ================================================================== *)

(** [projective_lms_to_cc_matrix(trans_mat)]: the third row is replaced by
    the sum of the three rows. *)
Definition projective_lms_to_cc_matrix (trans_mat : mat3) : mat3 :=
  mkMat (m11 trans_mat) (m12 trans_mat) (m13 trans_mat)
        (m21 trans_mat) (m22 trans_mat) (m23 trans_mat)
        (m11 trans_mat + m21 trans_mat + m31 trans_mat)
        (m12 trans_mat + m22 trans_mat + m32 trans_mat)
        (m13 trans_mat + m23 trans_mat + m33 trans_mat).

Section OcularFit.

Variable np_exp : Q -> Q.

(** [scipy.optimize.fmin] over the two parameters of the Gaussian, given
    the objective and the starting point. *)
Variable fmin2 : (Q * Q -> Q) -> Q * Q -> Q * Q.

(** [InterpolatedUnivariateSpline(x, y)], as a function. *)
Variable spline : list Q -> list Q -> Q -> Q.

(** [gauss_func(param, docul2)]: [4*np.exp(-b*(docul2[:,0]-x0)**2)]. *)
Definition gauss_func (param : Q * Q) (docul2 : list (Q * Q)) : list Q :=
  let '(b, x0) := param in
  map (fun r => 4 * np_exp (- b * sq (fst r - x0))) docul2.

(** [rms_error(param, docul2)]: [sum((f - docul2[:,1])**2)], with Python's
    [sum], which adds the terms to 0 from the left. *)
Definition rms_error (param : Q * Q) (docul2 : list (Q * Q)) : Q :=
  fold_left Qplus
            (Np.map2 (fun f r => sq (f - snd r)) (gauss_func param docul2) docul2)
            0.

(** [docul_fine(ocular_sum_32, docul2)]: [(docul1_fine, docul2_fine)]. *)
Definition docul_fine (ocular_sum_32 docul2 : list (Q * Q))
  : list (Q * Q) * list (Q * Q) :=
  let param := fmin2 (fun p => rms_error p docul2) (8#10000, 350) in
  let docul2_add :=
    [ (390, 4 * np_exp (- fst param * sq (390 - snd param)));
      (395, 4 * np_exp (- fst param * sq (395 - snd param))) ] in
  let docul2_pad := map (fun w => (w, 0)) (Np.arange_n 460 5 75) in
  let docul2 := docul2_add ++ docul2 ++ docul2_pad in
  let spl := spline (map fst docul2) (map snd docul2) in
  let docul2_fine := map (fun r => (fst r, spl (fst r))) ocular_sum_32 in
  let docul1_fine :=
    Np.map2 (fun r d => (fst r, snd r - snd d)) ocular_sum_32 docul2_fine in
  (docul1_fine, docul2_fine).

End OcularFit.

Section Quantal.

Variable np_exp : Q -> Q.
Variable pow10r : Q -> Q.
Variable vd : VisualData.

(** [v_lambda_quantal(field_size, age)]: [1.89*L + M] of the quantal cone
    fundamentals, divided by its maximum. *)
Definition v_lambda_quantal (field_size age : Q) : list (Q * Q) :=
  let lms := lms_quantal np_exp pow10r vd field_size age in
  let v := map (fun r => (wl r, (189#100) * c1 r + c2 r)) lms in
  let m := Np.max (map snd v) in
  map (fun r => (fst r, snd r / m)) v.

End Quantal.

(* ================================================================== *)
(** ** Vocabulary of the properties *)
(* ================================================================== *)

(** The density at row [i] of [ocular(age)], as a function of the age. *)
Definition density (vd : VisualData) (i : nat) (age : Q) : Q :=
  nth i (map snd (ocular vd age)) 0.

(** A function jumps at [a] when, arbitrarily close to [a], it takes values
    at least some fixed [eps] away from its value at [a]. *)
Definition jumps_at (f : Q -> Q) (a : Q) : Prop :=
  exists eps, 0 < eps /\
    forall delta, 0 < delta ->
      exists x, Qabs (x - a) < delta /\ eps <= Qabs (f x - f a).

(** The wavelength of the second end point of a purple line
    ([purple_line[1,0]]). *)
Definition second_wavelength (l : line) : Q := fst (fst (snd l)).

(** Abscissae in strictly increasing order. *)
Fixpoint increasing (l : list Q) : Prop :=
  match l with
  | x :: ((y :: _) as t) => x < y /\ increasing t
  | _ => True
  end.

(** Two rows with equal entries. *)
Definition row_eq (r r' : row) : Prop :=
  wl r == wl r' /\ c1 r == c1 r' /\ c2 r == c2 r' /\ c3 r == c3 r'.

(** What makes [cubic] an interpolant: over increasing abscissae it takes
    the tabulated value at every node. *)
Definition interpolates_nodes (cubic : list Q -> list Q -> Q -> Q) : Prop :=
  forall xs ys xi yi x_new,
    increasing xs -> length xs = length ys ->
    In (xi, yi) (combine xs ys) -> x_new == xi ->
    cubic xs ys x_new == yi.

(** What the code relies on in a table of colour matching functions
    ([ciexyz31_1.csv], [ciexyz64_1.csv]): it is tabulated at 360, 361, ...,
    830 nm, no row sums to zero, and the wavelength of least x lies after
    360 nm, that of greatest y after it, and both before 700 nm. *)
Definition standard_table (xyz : list row) : Prop :=
  Forall2 Qeq (map wl xyz) lambd /\
  (forall r, In r xyz -> ~ triple_sum (values r) == 0) /\
  (let k := knots_of (chromaticities xyz) in
   360 < nth 1 k 0 /\ nth 1 k 0 < nth 2 k 0 /\ nth 2 k 0 < 700).

(** [standard_table], decided. *)
Fixpoint Qeq_list (a b : list Q) : bool :=
  match a, b with
  | [], [] => true
  | x :: a', y :: b' => Qeq_bool x y && Qeq_list a' b'
  | _, _ => false
  end.

Definition standard_tableb (xyz : list row) : bool :=
  Qeq_list (map wl xyz) lambd &&
  forallb (fun r => negb (Qeq_bool (triple_sum (values r)) 0)) xyz &&
  (let k := knots_of (chromaticities xyz) in
   Qlt_bool 360 (nth 1 k 0) && Qlt_bool (nth 1 k 0) (nth 2 k 0) &&
   Qlt_bool (nth 2 k 0) 700).

(** The integer [my_round] computes before it rescales:
    [np.floor(np.absolute(x)*10**n + 0.5)]. *)
Definition round_units (x : Q) (n : Z) : Z := Qfloor (Qabs x * pow10 n + (1#2)).

(** A loop that repeats a step until the step reports [ok], seen through the
    sequence of its landmarks. *)
Section Loop.

Variable step : Q -> Q * mat3 * Q * bool.

Definition step_landmark (lam : Q) : Q := snd (fst (step lam)).
Definition step_ok (lam : Q) : bool := snd (step lam).
Definition step_result (lam : Q) : Q * mat3 * Q := fst (step lam).

Fixpoint iterate (fuel : nat) (lam : Q) : option (Q * mat3 * Q) :=
  match fuel with
  | O => None
  | S f => if step_ok lam then Some (step_result lam)
           else iterate f (step_landmark lam)
  end.

(** The landmark the [k]-th pass starts from. *)
Fixpoint landmark (k : nat) (lam : Q) : Q :=
  match k with
  | O => lam
  | S k' => landmark k' (step_landmark lam)
  end.

(** A pass from [a] finds the landmark [b], as the same fraction, and is not
    [ok]. *)
Definition moves (a b : Q) : bool :=
  let p := step a in
  (Qnum (snd (fst p)) =? Qnum b)%Z && (Qden (snd (fst p)) =? Qden b)%positive &&
  negb (snd p).

End Loop.

(** One pass of the loop of [compute_tabulated] from a given landmark: the
    minimisation over [a13], then [square_sum] with full results. *)
Definition pass (l_spline m_spline s_spline v_spline : Q -> Q)
  (fmin : (Q -> Q) -> Q -> Q -> Q) (a21 a22 a33 : Q) (lambdas : list Q)
  (cc_ref : list row) (xyz_signfig mat_dp : Z) (lambda_ref_min : Q)
  : Q * mat3 * Q * bool :=
  square_sum_full l_spline m_spline s_spline v_spline
    (fmin (fun a => square_sum l_spline m_spline s_spline v_spline a a21 a22 a33
                               lambdas lambda_ref_min cc_ref xyz_signfig mat_dp)
          (39#100) (pow10 (- (mat_dp + 2))))
    a21 a22 a33 lambdas lambda_ref_min cc_ref xyz_signfig mat_dp.

(* ================================================================== *)
(** ** Worked instances *)
(* ================================================================== *)

(** Small data sets on which the pipeline is evaluated, with stand-ins for
    the library functions it is parametrised by. *)
Module Example.

(** An interpolant through the nodes [(x_i, y_i)]: the ordinate of the last
    node at or before [w] (and [cur] before the first node). *)
Fixpoint step_from (cur : Q) (x y : list Q) (w : Q) : Q :=
  match x, y with
  | x0 :: xt, y0 :: yt => if Qle_bool x0 w then step_from y0 xt yt w else cur
  | _, _ => cur
  end.

Definition step_table (x y : list Q) (w : Q) : Q := step_from 0 x y w.

(** A minimiser that stops at its starting point. *)
Definition fmin_start (f : Q -> Q) (x0 xtol : Q) : Q := x0.

(** The edges of the convex hull by exhaustive search: the pairs [i < j]
    that have every point on one side. *)
Definition all_hull_edges (pts : list (Q * Q)) : option (list (nat * nat)) :=
  let idx := seq 0 (length pts) in
  Some (flat_map (fun i =>
          flat_map (fun j => if (i <? j)%nat && hull_edgeb pts i j
                             then [(i, j)] else []) idx) idx).

(** [np.exp] and real powers of ten are not reached at age 32 and field
    size 2, where the tabulated fundamentals are returned as they are. *)
Definition unused (x : Q) : Q := 0.

(** Colour matching functions with least x at 500 nm and greatest y at
    520 nm. *)
Definition xyz_A : list row :=
  [ mkRow 360 2 1 7; mkRow 500 1 6 3; mkRow 520 1 8 1; mkRow 830 7 3 0 ].

Definition xyz_B : list row :=
  [ mkRow 360 4 1 5; mkRow 500 3 6 1; mkRow 520 35 65 0; mkRow 830 7 3 0 ].

(** Cone fundamentals and V(lambda) tabulated at four wavelengths. *)
Definition lms_A : list row :=
  [ mkRow 390 (1#10) (1#10) 1;
    mkRow 500 (3#10) (6#10) (2#10);
    mkRow 600 1 (5#10) (1#100);
    mkRow 830 (1#10) (1#100) (1#1000) ].

Definition v_A : list (Q * Q) :=
  [ (390, 1#10); (500, 4#10); (600, 9#10); (830, 1#10) ].

Definition lms_B : list row :=
  [ mkRow 390 (7#10) (5#10) (1#10);
    mkRow 500 (6#10) (3#10) (6#10);
    mkRow 600 1 (5#10) (4#10);
    mkRow 830 (6#10) (2#10) (9#10) ].

Definition v_B : list (Q * Q) :=
  [ (390, 6#10); (500, 5#10); (600, 8#10); (830, 4#10) ].

Definition vd_A : VisualData :=
  mkVisualData [] [] [] [] lms_A lms_A [] v_A xyz_A xyz_A [] [].

Definition vd_B : VisualData :=
  mkVisualData [] [] [] [] lms_B lms_B [] v_B xyz_B xyz_B [] [].

(** [compute_tabulated(2, 32, resolution)] with the default precisions. *)
Definition run_A (fuel : nat) (resolution : Q) : outcome results :=
  compute_tabulated unused unused step_table step_table fmin_start all_hull_edges
                    vd_A fuel 2 32 resolution 7 5 8 6 6 5.

Definition run_B (fuel : nat) : outcome results :=
  compute_tabulated unused unused step_table step_table fmin_start all_hull_edges
                    vd_B fuel 2 32 1 7 5 8 6 6 5.

(** The same tuple when the run returned (an empty one otherwise). *)
Definition no_line : line := ((0, 0, 0), (0, 0, 0)).

Definition no_results : results :=
  mkResults [] [] (0, 0, 0) (mkMat 0 0 0 0 0 0 0 0 0) [] [] [] (0, 0, 0) [] (0, 0, 0) 0
            no_line no_line no_line
            (mkPlots [] [] [] [] [] no_line no_line no_line [] [] [] [] no_line no_line).

Definition returned (o : outcome results) : results :=
  match o with Return r => r | _ => no_results end.

Definition result_A : results := returned (run_A 1 1).

(** What is looked at in a returned tuple: the matrix and the first row of
    [bm], in lowest terms. *)
Definition digest (o : outcome results) : option (mat3 * option row) :=
  match o with
  | Return r =>
      Some (res_trans_mat r,
            option_map (fun t => mkRow (Qred (wl t)) (Qred (c1 t)) (Qred (c2 t)) (Qred (c3 t)))
                       (nth_error (res_bm r) 0))
  | _ => None
  end.

Definition is_Return (o : outcome results) : bool :=
  match o with Return _ => true | _ => false end.

(** Four points in convex position, listed in two orders. *)
Definition square : list (Q * Q * Q) :=
  [ (400, 0, 0); (500, 1, 0); (600, 1, 1); (700, 0, 1) ].

Definition square_reordered : list (Q * Q * Q) :=
  [ (500, 1, 0); (400, 0, 0); (700, 0, 1); (600, 1, 1) ].

(** Two rows of the two components of the ocular media. *)
Definition vd_ocular : VisualData :=
  mkVisualData [] [] [] [] [] [] [] [] [] []
               [ (390, 1#2); (395, 1#4) ] [ (390, 1); (395, 3#4) ].

(** Colour matching functions tabulated at 360, 361, ..., 830 nm whose rows
    all sum to 5000, with least x at [lo] and greatest y at [hi]. *)
Definition tent_table (lo hi : Q) : list row :=
  map (fun w => let x := Qabs (w - lo) + 100 in
                let y := 1000 - Qabs (w - hi) in
                mkRow w x y (5000 - x - y))
      lambd.

Definition vd_tent : VisualData :=
  mkVisualData [] [] [] [] [] [] [] [] (tent_table 500 520) (tent_table 510 530) [] [].

(** The ocular media at 32 years at two wavelengths, one row of [docul2],
    a fit that stops at its starting point, and the data set whose two
    components of the ocular media are computed from them as the class
    [VisualData] does. *)
Definition ocular_sum_32_E : list (Q * Q) := [ (390, 2); (395, 3#2) ].

Definition docul2_E : list (Q * Q) := [ (400, 1) ].

Definition fmin2_start (f : Q * Q -> Q) (x0 : Q * Q) : Q * Q := x0.

Definition vd_fit : VisualData :=
  mkVisualData [] [] [] [] [] [] [] [] [] []
    (fst (docul_fine unused fmin2_start step_table ocular_sum_32_E docul2_E))
    (snd (docul_fine unused fmin2_start step_table ocular_sum_32_E docul2_E)).

(** Stand-ins for three splines and V(lambda), a short wavelength grid and
    a flat reference locus of 31 rows. *)
Definition ramp (w : Q) : Q := w.

Definition one (w : Q) : Q := 1.

Definition flat_ref : list row := repeat (mkRow 0 (1#3) (1#3) (1#3)) 31.

(** A stand-in for [10**x] that is positive, and a data set with two rows
    of absorbance, macular density and ocular media. *)
Definition half (x : Q) : Q := 1#2.

Definition vd_quantal : VisualData :=
  mkVisualData [ mkRow 400 (-1) (-2) (-3); mkRow 405 (-2) (-1) (-3) ]
               [ (400, 1#10); (405, 2#10) ]
               [] [] [] [] [] [] [] []
               [ (400, 1#2); (405, 1#4) ] [ (400, 1); (405, 3#4) ].

(** What the white points of a returned tuple are divided by is not zero. *)
Definition white_sums_nonzero (o : outcome results) : bool :=
  match o with
  | Return r =>
      negb (Qeq_bool (triple_sum (column_sums (map values (res_xyz r)))) 0) &&
      negb (Qeq_bool (m21 (res_trans_mat r) * Np.sum (map c1 (res_lms r)) +
                      m22 (res_trans_mat r) * Np.sum (map c2 (res_lms r))) 0) &&
      negb (Qeq_bool (triple_sum (column_sums
                        (lms_N_of (map values (res_lms_standard r))))) 0)
  | _ => false
  end.

(** The state of [run_A] when it enters the loop. *)
Definition rs_A : resampled := resample unused unused step_table vd_A 2 32 7 8 6.

(** The state of [run_B] when it enters the loop. *)
Definition rs_B : resampled := resample unused unused step_table vd_B 2 32 7 8 6.

Definition cc_ref_B : list row :=
  match chromaticity_interpolated step_table vd_B 2 with Some c => c | None => [] end.

Definition pass_B : Q -> Q * mat3 * Q * bool :=
  pass (rs_l rs_B) (rs_m rs_B) (rs_s rs_B) (rs_v rs_B) fmin_start
       (fst (rs_weights rs_B)) (snd (rs_weights rs_B))
       (a33_of rs_B lambda_390_830 8) lambda_390_830 cc_ref_B 7 8.

End Example.

(* ================================================================== *)
(** * Properties *)
(* ================================================================== *)

(* ================================================================== *)
(** * Properties *)
(* ================================================================== *)

(** ** Rounding *)

Lemma pow10_pos n : 0 < pow10 n.
Proof. apply Qpower_0_lt. reflexivity. Qed.

Lemma pow10_nonzero n : ~ pow10 n == 0.
Proof. intro H. pose proof (pow10_pos n) as P. rewrite H in P. discriminate. Qed.

Lemma pow10_Z n : (0 <= n)%Z -> pow10 n == inject_Z (10 ^ n).
Proof. intro H. unfold pow10. rewrite Zpower_Qpower by assumption. reflexivity. Qed.

Lemma pow10_succ n : pow10 (n + 1) == 10 * pow10 n.
Proof.
  unfold pow10. rewrite Qpower_plus by discriminate. 
  change (10 ^ 1) with 10. ring.
Qed.

Lemma pow10_opp n : pow10 (- n) == / pow10 n.
Proof. apply Qpower_opp. Qed.

Lemma pow10_ge_1 n : (0 <= n)%Z -> 1 <= pow10 n.
Proof.
  intro H. rewrite pow10_Z by assumption.
  change 1 with (inject_Z 1). rewrite <- Zle_Qle.
  pose proof (Z.pow_pos_nonneg 10 n ltac:(lia) H). lia.
Qed.

Lemma sign_pos x : 0 < x -> sign x == 1.
Proof.
  unfold sign, Qlt. simpl. intro H.
  replace (Z.sgn (Qnum x)) with 1%Z; [reflexivity|]. symmetry. apply Z.sgn_pos. lia.
Qed.

Lemma sign_neg x : x < 0 -> sign x == -1.
Proof.
  unfold sign, Qlt. simpl. intro H.
  replace (Z.sgn (Qnum x)) with (-1)%Z; [reflexivity|]. symmetry. apply Z.sgn_neg. lia.
Qed.

Lemma sign_zero x : x == 0 -> sign x == 0.
Proof.
  unfold sign, Qeq. simpl. intro H.
  replace (Qnum x) with 0%Z by lia. reflexivity.
Qed.

Lemma sign_abs x : x == sign x * Qabs x.
Proof.
  destruct (Qlt_le_dec x 0) as [H|H].
  - rewrite sign_neg by assumption. rewrite Qabs_neg by lra. ring.
  - destruct (Qeq_dec x 0) as [E|E].
    + rewrite sign_zero by assumption. rewrite E. reflexivity.
    + rewrite sign_pos by lra. rewrite Qabs_pos by lra. ring.
Qed.

#[global] Instance sign_Proper : Proper (Qeq ==> Qeq) sign.
Proof.
  intros x y E.
  destruct (Qlt_le_dec x 0) as [H|H].
  - rewrite (sign_neg x H). rewrite sign_neg; [reflexivity| lra].
  - destruct (Qeq_dec x 0) as [E0|E0].
    + rewrite (sign_zero x E0). rewrite sign_zero; [reflexivity|lra].
    + rewrite (sign_pos x) by lra. rewrite sign_pos; [reflexivity|lra].
Qed.

#[global] Instance pow10_round_Proper : Proper (Qeq ==> eq ==> Qeq) my_round.
Proof.
  intros x y E n m <-. unfold my_round.
  assert (Qfloor (Qabs x * pow10 n + (1#2)) = Qfloor (Qabs y * pow10 n + (1#2))) as ->.
  { apply Qfloor_comp. rewrite E. reflexivity. }
  rewrite E. reflexivity.
Qed.

(** The integer [floor(|x|*10^n + 1/2)] that [my_round] scales back. *)
Lemma round_units_bounds x n :
  inject_Z (round_units x n) - (1#2) <= Qabs x * pow10 n /\
  Qabs x * pow10 n < inject_Z (round_units x n) + (1#2).
Proof.
  unfold round_units.
  pose proof (Qfloor_le (Qabs x * pow10 n + (1#2))).
  pose proof (Qlt_floor (Qabs x * pow10 n + (1#2))) as L.
  rewrite inject_Z_plus in L. change (inject_Z 1) with 1 in L. split; lra.
Qed.

Lemma my_round_units x n : my_round x n == sign x * inject_Z (round_units x n) / pow10 n.
Proof. reflexivity. Qed.

Lemma my_round_error x n : Qabs (my_round x n - x) <= (1#2) / pow10 n.
Proof.
  pose proof (pow10_pos n) as P.
  destruct (round_units_bounds x n) as [B1 B2].
  rewrite my_round_units.
  set (k := inject_Z (round_units x n)) in *.
  assert (E : sign x * k / pow10 n - x == sign x * ((k - Qabs x * pow10 n) / pow10 n)).
  { rewrite (sign_abs x) at 2. field. apply pow10_nonzero. }
  rewrite E, Qabs_Qmult.
  assert (S1 : Qabs (sign x) <= 1).
  { destruct (Qlt_le_dec x 0) as [H|H].
    - rewrite sign_neg by assumption. discriminate.
    - destruct (Qeq_dec x 0) as [E0|E0].
      + rewrite sign_zero by assumption. discriminate.
      + rewrite sign_pos by lra. discriminate. }
  assert (S2 : Qabs ((k - Qabs x * pow10 n) / pow10 n) <= (1#2) / pow10 n).
  { unfold Qdiv. rewrite Qabs_Qmult. rewrite (Qabs_pos (/ pow10 n)).
    - apply Qmult_le_compat_r.
      + apply Qabs_Qle_condition. split; lra.
      + apply Qlt_le_weak, Qinv_lt_0_compat, P.
    - apply Qlt_le_weak, Qinv_lt_0_compat, P. }
  pose proof (Qabs_nonneg (sign x)).
  pose proof (Qabs_nonneg ((k - Qabs x * pow10 n) / pow10 n)).
  assert (0 <= (1#2) / pow10 n).
  { apply Qle_shift_div_l; [assumption | lra]. }
  nra.
Qed.

Lemma log10_up_spec fuel : forall p q b,
  (0 < q)%Z -> (p <= q * 10 ^ Z.of_nat fuel)%Z ->
  let r := log10_up fuel p q b in
  (b <= r)%Z /\ (p <= q * 10 ^ (r - b))%Z /\ ((b < r)%Z -> (q * 10 ^ (r - b - 1) < p)%Z).
Proof.
  induction fuel as [|f IH]; intros p q b Hq Hf; cbn [log10_up].
  - cbn zeta. rewrite Z.sub_diag. simpl in Hf. repeat split; try lia.
  - destruct (Z.leb_spec p q) as [Hle|Hgt].
    + cbn zeta. rewrite Z.sub_diag. repeat split; lia.
    + assert (Hf' : (p <= q * 10 * 10 ^ Z.of_nat f)%Z).
      { rewrite Nat2Z.inj_succ, Z.pow_succ_r in Hf by lia. lia. }
      specialize (IH p (q * 10)%Z (b + 1)%Z ltac:(lia) Hf').
      cbn zeta in IH |- *. destruct IH as (I1 & I2 & I3).
      set (r := log10_up f p (q * 10) (b + 1)) in *.
      split; [lia|]. split.
      * replace (r - b)%Z with (Z.succ (r - (b + 1))) by lia.
        rewrite Z.pow_succ_r by lia. lia.
      * intros _. destruct (Z.eq_dec r (b + 1)) as [->|Hne].
        -- replace (b + 1 - b - 1)%Z with 0%Z by lia. simpl. lia.
        -- specialize (I3 ltac:(lia)).
           replace (r - b - 1)%Z with (Z.succ (r - (b + 1) - 1)) by lia.
           rewrite Z.pow_succ_r by lia. lia.
Qed.

Lemma log10_down_spec fuel : forall p q k,
  (0 < p)%Z -> (p <= q)%Z -> (q < p * 10 ^ Z.of_nat fuel)%Z ->
  let r := log10_down fuel p q k in
  (k <= r)%Z /\ (p * 10 ^ (r - k) <= q)%Z /\ (q < p * 10 ^ (r - k + 1))%Z.
Proof.
  induction fuel as [|f IH]; intros p q k Hp Hle Hf; cbn [log10_down].
  - simpl in Hf. lia.
  - destruct (Z.leb_spec (p * 10) q) as [H10|H10].
    + assert (Hf' : (q < p * 10 * 10 ^ Z.of_nat f)%Z).
      { rewrite Nat2Z.inj_succ, Z.pow_succ_r in Hf by lia. lia. }
      specialize (IH (p * 10)%Z q (k + 1)%Z ltac:(lia) H10 Hf').
      cbn zeta in IH |- *. destruct IH as (I1 & I2 & I3).
      set (r := log10_down f (p * 10) q (k + 1)) in *.
      split; [lia|]. split.
      * replace (r - k)%Z with (Z.succ (r - (k + 1))) by lia.
        rewrite Z.pow_succ_r by lia. lia.
      * replace (r - k + 1)%Z with (Z.succ (r - (k + 1) + 1)) by lia.
        rewrite Z.pow_succ_r by lia. lia.
    + cbn zeta. rewrite Z.sub_diag. simpl. repeat split; lia.
Qed.

Lemma pow10_fuel n : (0 < n)%Z -> (n < 10 ^ Z.of_nat (S (Z.to_nat (Z.log2 n))))%Z.
Proof.
  intro Hn.
  pose proof (Z.log2_nonneg n) as L0.
  rewrite Nat2Z.inj_succ, Z2Nat.id by assumption.
  destruct (Z.log2_spec n Hn) as [_ U].
  eapply Z.lt_le_trans; [exact U|].
  apply Z.pow_le_mono_l. lia.
Qed.

Lemma Qmake_le_Z p q t : (p <= t * Zpos q)%Z -> p # q <= inject_Z t.
Proof. unfold Qle. simpl. lia. Qed.

Lemma Qmake_gt_Z p q t : (t * Zpos q < p)%Z -> inject_Z t < p # q.
Proof. unfold Qlt. simpl. lia. Qed.

Lemma Qmake_le_inv_Z p q t : (0 < t)%Z -> (p * t <= Zpos q)%Z -> p # q <= / inject_Z t.
Proof.
  intros Ht H.
  assert (T : 0 < inject_Z t) by (change 0 with (inject_Z 0); rewrite <- Zlt_Qlt; assumption).
  setoid_replace (/ inject_Z t) with (1 / inject_Z t) by (unfold Qdiv; ring).
  apply Qle_shift_div_l; [assumption|].
  unfold Qle, Qmult. simpl. lia.
Qed.

Lemma Qmake_gt_inv_Z p q t : (0 < t)%Z -> (Zpos q < p * t)%Z -> / inject_Z t < p # q.
Proof.
  intros Ht H.
  assert (T : 0 < inject_Z t) by (change 0 with (inject_Z 0); rewrite <- Zlt_Qlt; assumption).
  setoid_replace (/ inject_Z t) with (1 / inject_Z t) by (unfold Qdiv; ring).
  apply Qlt_shift_div_r; [assumption|].
  unfold Qlt, Qmult. simpl. lia.
Qed.

(** [ceil_log10 x] is the least integer [b] with [x <= 10^b]. *)
Lemma ceil_log10_spec x :
  0 < x -> pow10 (ceil_log10 x - 1) < x /\ x <= pow10 (ceil_log10 x).
Proof.
  destruct x as [p q]. unfold Qlt at 1. simpl. intro Hp.
  assert (Hp' : (0 < p)%Z) by lia. clear Hp.
  unfold ceil_log10. simpl Qnum. simpl Qden.
  destruct (Z.leb_spec p (Zpos q)) as [Hle|Hgt].
  - pose proof (log10_down_spec (S (Z.to_nat (Z.log2 (Zpos q)))) p (Zpos q) 0 Hp' Hle) as SP.
    assert (F : (Z.pos q < p * 10 ^ Z.of_nat (S (Z.to_nat (Z.log2 (Z.pos q)))))%Z).
    { pose proof (pow10_fuel (Zpos q) ltac:(lia)). nia. }
    specialize (SP F). cbn zeta in SP. destruct SP as (S1 & S2 & S3).
    set (r := log10_down _ p (Zpos q) 0) in *.
    rewrite Z.sub_0_r in S2, S3.
    assert (T1 : (0 < 10 ^ r)%Z) by (apply Z.pow_pos_nonneg; lia).
    assert (T2 : (0 < 10 ^ (r + 1))%Z) by (apply Z.pow_pos_nonneg; lia).
    split.
    + replace (- r - 1)%Z with (- (r + 1))%Z by lia.
      rewrite pow10_opp, pow10_Z by lia.
      apply Qmake_gt_inv_Z; assumption.
    + rewrite pow10_opp, pow10_Z by lia.
      apply Qmake_le_inv_Z; assumption.
  - pose proof (log10_up_spec (S (Z.to_nat (Z.log2 p))) p (Zpos q) 0 ltac:(lia)) as SP.
    assert (F : (p <= Z.pos q * 10 ^ Z.of_nat (S (Z.to_nat (Z.log2 p))))%Z).
    { pose proof (pow10_fuel p Hp'). nia. }
    specialize (SP F). cbn zeta in SP. destruct SP as (S1 & S2 & S3).
    set (r := log10_up _ p (Zpos q) 0) in *.
    rewrite Z.sub_0_r in S2, S3.
    assert (R : (0 < r)%Z).
    { destruct (Z.eq_dec r 0) as [E|E]; [|lia]. rewrite E in S2. simpl in S2. lia. }
    specialize (S3 R).
    split.
    + rewrite pow10_Z by lia. apply Qmake_gt_Z.
      replace (r - 0 - 1)%Z with (r - 1)%Z in S3 by lia. lia.
    + rewrite pow10_Z by lia. apply Qmake_le_Z. lia.
Qed.

Lemma Qabs_pos_nonzero x : ~ x == 0 -> 0 < Qabs x.
Proof.
  intro H. destruct (Qlt_le_dec x 0) as [L|L].
  - rewrite Qabs_neg by lra. lra.
  - rewrite Qabs_pos by assumption.
    destruct (Qle_lt_or_eq _ _ L) as [L'|L']; [assumption|]. symmetry in L'. contradiction.
Qed.

(** Scaling by the decimal exponent brings a nonzero value into (1/10, 1]. *)
Lemma mantissa_range x :
  ~ x == 0 ->
  (1#10) < Qabs (x / pow10 (ceil_log10 (Qabs x))) <= 1.
Proof.
  intro Hx.
  destruct (ceil_log10_spec (Qabs x) (Qabs_pos_nonzero x Hx)) as [L U].
  set (b := ceil_log10 (Qabs x)) in *.
  pose proof (pow10_pos b) as P.
  unfold Qdiv. rewrite Qabs_Qmult, Qabs_Qinv, (Qabs_pos (pow10 b)) by lra.
  replace b with (b - 1 + 1)%Z in P, U |- * at 1 by lia.
  replace (b - 1 + 1)%Z with b in L by lia.
  assert (E : pow10 b == 10 * pow10 (b - 1)).
  { rewrite <- pow10_succ. replace (b - 1 + 1)%Z with b by lia. reflexivity. }
  pose proof (pow10_pos (b - 1)) as P'.
  replace (b - 1 + 1)%Z with b in * by lia.
  split.
  - change (Qabs x * / pow10 b) with (Qabs x / pow10 b).
    apply Qlt_shift_div_l; [assumption|]. rewrite E. lra.
  - change (Qabs x * / pow10 b) with (Qabs x / pow10 b).
    apply Qle_shift_div_r; [assumption|]. lra.
Qed.

Lemma round_units_ge_1 y n : (1 <= n)%Z -> (1#10) < Qabs y -> (1 <= round_units y n)%Z.
Proof.
  intros Hn Hy. unfold round_units.
  change 1%Z with (Qfloor 1) at 1. apply Qfloor_resp_le.
  assert (E : pow10 n == 10 * pow10 (n - 1)).
  { rewrite <- pow10_succ. replace (n - 1 + 1)%Z with n by lia. reflexivity. }
  pose proof (pow10_ge_1 (n - 1) ltac:(lia)).
  rewrite E. nra.
Qed.

Lemma sign_div_pow10 x b : sign (x / pow10 b) == sign x.
Proof.
  pose proof (pow10_pos b) as P.
  destruct (Qlt_le_dec x 0) as [L|L].
  - rewrite (sign_neg x L). apply sign_neg.
    apply Qlt_shift_div_r; [assumption | lra].
  - destruct (Qeq_dec x 0) as [E|E].
    + rewrite E. reflexivity.
    + rewrite (sign_pos x) by lra. apply sign_pos.
      apply Qlt_shift_div_l; [assumption | lra].
Qed.

(** The value of the array branch in closed form. *)
Lemma significant_figures_nonzero x n :
  ~ x == 0 ->
  significant_figures x n ==
  sign x * (pow10 (ceil_log10 (Qabs x)) *
            inject_Z (round_units (x / pow10 (ceil_log10 (Qabs x))) n) / pow10 n).
Proof.
  intro Hx. unfold significant_figures.
  destruct (Qeq_bool x 0) eqn:E; [apply Qeq_bool_eq in E; contradiction|].
  rewrite my_round_units, sign_div_pow10. field. apply pow10_nonzero.
Qed.

Lemma significant_figures_zero x n : x == 0 -> significant_figures x n == 0.
Proof.
  intro Hx. unfold significant_figures.
  rewrite (Qeq_eq_bool _ _ Hx). rewrite my_round_units, sign_div_pow10, (sign_zero x Hx).
  field. apply pow10_nonzero.
Qed.

Lemma significant_figures_magnitude_pos x n :
  (1 <= n)%Z -> ~ x == 0 ->
  0 < pow10 (ceil_log10 (Qabs x)) *
      inject_Z (round_units (x / pow10 (ceil_log10 (Qabs x))) n) / pow10 n.
Proof.
  intros Hn Hx.
  destruct (mantissa_range x Hx) as [L _].
  pose proof (round_units_ge_1 _ n Hn L) as K.
  apply Qlt_shift_div_l; [apply pow10_pos|]. rewrite Qmult_0_l.
  apply Qmult_lt_0_compat; [apply pow10_pos|].
  change 0 with (inject_Z 0). rewrite <- Zlt_Qlt. lia.
Qed.

(** Sign preservation of the array branch, for at least one significant figure. *)
Lemma significant_figures_sign x n :
  (1 <= n)%Z -> sign (significant_figures x n) == sign x.
Proof.
  intro Hn. destruct (Qeq_dec x 0) as [E|E].
  - rewrite (significant_figures_zero x n E), (sign_zero x E). reflexivity.
  - rewrite (significant_figures_nonzero x n E).
    pose proof (significant_figures_magnitude_pos x n Hn E) as M.
    set (m := pow10 _ * _ / _) in *.
    destruct (Qlt_le_dec x 0) as [L|L].
    + rewrite (sign_neg x L). apply sign_neg. lra.
    + assert (0 < x).
      { destruct (Qle_lt_or_eq _ _ L) as [L'|L']; [assumption|]. symmetry in L'. contradiction. }
      rewrite (sign_pos x) by assumption. apply sign_pos. lra.
Qed.

(** On a positive scalar the scalar branch agrees with the array branch. *)
Lemma significant_figures_scalar_pos x n :
  0 < x -> exists y, significant_figures_scalar x n = Some y /\ y == significant_figures x n.
Proof.
  intro Hx. unfold significant_figures_scalar, significant_figures.
  destruct (Qeq_bool x 0) eqn:E; [apply Qeq_bool_eq in E; lra|].
  destruct (Qle_bool x 0) eqn:E'; [apply Qle_bool_iff in E'; lra|].
  eexists. split; [reflexivity|].
  assert (A : ceil_log10 (Qabs x) = ceil_log10 x).
  { unfold ceil_log10. destruct x as [p q]. simpl. unfold Qlt in Hx. simpl in Hx.
    replace (Z.abs p) with p by lia. reflexivity. }
  rewrite A. reflexivity.
Qed.

Lemma significant_figures_scalar_neg x n : x < 0 -> significant_figures_scalar x n = None.
Proof.
  intro Hx. unfold significant_figures_scalar.
  destruct (Qeq_bool x 0) eqn:E; [apply Qeq_bool_eq in E; lra|].
  destruct (Qle_bool x 0) eqn:E'; [reflexivity|].
  assert (Qle_bool x 0 = true) by (apply Qle_bool_iff; lra). congruence.
Qed.

(** ** numpy primitives *)

Lemma Qlt_bool_true x y : Qlt_bool x y = true <-> x < y.
Proof.
  unfold Qlt_bool. rewrite negb_true_iff. split; intro H.
  - apply Qnot_le_lt. intro L. apply Qle_bool_iff in L. congruence.
  - destruct (Qle_bool y x) eqn:E; [|reflexivity].
    apply Qle_bool_iff in E. exfalso. exact (Qlt_not_le _ _ H E).
Qed.

Lemma Qlt_bool_false x y : Qlt_bool x y = false <-> y <= x.
Proof.
  unfold Qlt_bool. rewrite negb_false_iff. apply Qle_bool_iff.
Qed.

Lemma sum_cons x l : Np.sum (x :: l) == x + Np.sum l.
Proof. unfold Np.sum. cbn [fold_right]. apply Qred_correct. Qed.

Lemma sum_fold l : Np.sum l == fold_right Qplus 0 l.
Proof.
  induction l as [|x l IH]; [reflexivity|].
  rewrite sum_cons, IH. reflexivity.
Qed.

Lemma nth_app_last {A} (pre : list A) x d : nth (length pre) (pre ++ [x]) d = x.
Proof. rewrite app_nth2 by lia. rewrite Nat.sub_diag. reflexivity. Qed.

Lemma argmin_from_spec t : forall pre best,
  (best < length pre)%nat ->
  (forall j, (j < length pre)%nat -> nth best pre 0 <= nth j pre 0) ->
  (forall j, (j < best)%nat -> nth best pre 0 < nth j pre 0) ->
  let r := Np.argmin_from t (length pre) best (nth best pre 0) in
  (r < length (pre ++ t))%nat /\
  (forall j, (j < length (pre ++ t))%nat -> nth r (pre ++ t) 0 <= nth j (pre ++ t) 0) /\
  (forall j, (j < r)%nat -> nth r (pre ++ t) 0 < nth j (pre ++ t) 0).
Proof.
  induction t as [|x t IH]; intros pre best Hb Hmin Hfirst; cbn [Np.argmin_from].
  - cbn zeta. rewrite app_nil_r. auto.
  - assert (E : pre ++ x :: t = (pre ++ [x]) ++ t) by (rewrite <- app_assoc; reflexivity).
    assert (L : length (pre ++ [x]) = S (length pre)) by (rewrite length_app; simpl; lia).
    destruct (Qlt_bool x (nth best pre 0)) eqn:C.
    + apply Qlt_bool_true in C.
      specialize (IH (pre ++ [x]) (length pre)).
      rewrite nth_app_last, L in IH. rewrite E. apply IH.
      * lia.
      * intros j Hj. destruct (Nat.eq_dec j (length pre)) as [->|Hne].
        -- rewrite nth_app_last. apply Qle_refl.
        -- rewrite app_nth1 by lia. apply Qlt_le_weak.
           eapply Qlt_le_trans; [exact C|]. apply Hmin. lia.
      * intros j Hj. rewrite app_nth1 by lia.
        eapply Qlt_le_trans; [exact C|]. apply Hmin. lia.
    + apply Qlt_bool_false in C.
      specialize (IH (pre ++ [x]) best).
      rewrite app_nth1, L in IH by lia. rewrite E. apply IH.
      * lia.
      * intros j Hj. destruct (Nat.eq_dec j (length pre)) as [->|Hne].
        -- rewrite nth_app_last. exact C.
        -- rewrite app_nth1 by lia. apply Hmin. lia.
      * intros j Hj. rewrite app_nth1 by lia. apply Hfirst. exact Hj.
Qed.

(** [np.argmin] returns the first index of a least element. *)
Lemma argmin_spec l :
  l <> [] ->
  (Np.argmin l < length l)%nat /\
  (forall j, (j < length l)%nat -> nth (Np.argmin l) l 0 <= nth j l 0) /\
  (forall j, (j < Np.argmin l)%nat -> nth (Np.argmin l) l 0 < nth j l 0).
Proof.
  destruct l as [|x t]; [congruence|]. intros _.
  pose proof (argmin_from_spec t [x] 0%nat) as S. cbn [length nth] in S.
  apply S.
  - lia.
  - intros j Hj. replace j with 0%nat by lia. apply Qle_refl.
  - intros j Hj. lia.
Qed.

Lemma argmax_from_spec t : forall pre best,
  (best < length pre)%nat ->
  (forall j, (j < length pre)%nat -> nth j pre 0 <= nth best pre 0) ->
  (forall j, (j < best)%nat -> nth j pre 0 < nth best pre 0) ->
  let r := Np.argmax_from t (length pre) best (nth best pre 0) in
  (r < length (pre ++ t))%nat /\
  (forall j, (j < length (pre ++ t))%nat -> nth j (pre ++ t) 0 <= nth r (pre ++ t) 0) /\
  (forall j, (j < r)%nat -> nth j (pre ++ t) 0 < nth r (pre ++ t) 0).
Proof.
  induction t as [|x t IH]; intros pre best Hb Hmax Hfirst; cbn [Np.argmax_from].
  - cbn zeta. rewrite app_nil_r. auto.
  - assert (E : pre ++ x :: t = (pre ++ [x]) ++ t) by (rewrite <- app_assoc; reflexivity).
    assert (L : length (pre ++ [x]) = S (length pre)) by (rewrite length_app; simpl; lia).
    destruct (Qlt_bool (nth best pre 0) x) eqn:C.
    + apply Qlt_bool_true in C.
      specialize (IH (pre ++ [x]) (length pre)).
      rewrite nth_app_last, L in IH. rewrite E. apply IH.
      * lia.
      * intros j Hj. destruct (Nat.eq_dec j (length pre)) as [->|Hne].
        -- rewrite nth_app_last. apply Qle_refl.
        -- rewrite app_nth1 by lia. apply Qlt_le_weak.
           eapply Qle_lt_trans; [|exact C]. apply Hmax. lia.
      * intros j Hj. rewrite app_nth1 by lia.
        eapply Qle_lt_trans; [|exact C]. apply Hmax. lia.
    + apply Qlt_bool_false in C.
      specialize (IH (pre ++ [x]) best).
      rewrite app_nth1, L in IH by lia. rewrite E. apply IH.
      * lia.
      * intros j Hj. destruct (Nat.eq_dec j (length pre)) as [->|Hne].
        -- rewrite nth_app_last. exact C.
        -- rewrite app_nth1 by lia. apply Hmax. lia.
      * intros j Hj. rewrite app_nth1 by lia. apply Hfirst. exact Hj.
Qed.

(** [np.argmax] returns the first index of a greatest element. *)
Lemma argmax_spec l :
  l <> [] ->
  (Np.argmax l < length l)%nat /\
  (forall j, (j < length l)%nat -> nth j l 0 <= nth (Np.argmax l) l 0) /\
  (forall j, (j < Np.argmax l)%nat -> nth j l 0 < nth (Np.argmax l) l 0).
Proof.
  destruct l as [|x t]; [congruence|]. intros _.
  pose proof (argmax_from_spec t [x] 0%nat) as S. cbn [length nth] in S.
  apply S.
  - lia.
  - intros j Hj. replace j with 0%nat by lia. apply Qle_refl.
  - intros j Hj. lia.
Qed.

Lemma arange_n_length start step n : length (Np.arange_n start step n) = n.
Proof. revert start. induction n; intro start; simpl; [reflexivity | now rewrite IHn]. Qed.

Lemma map2_length {A B C} (f : A -> B -> C) l1 l2 :
  length (Np.map2 f l1 l2) = Nat.min (length l1) (length l2).
Proof.
  revert l2. induction l1 as [|a l1 IH]; intros [|b l2]; simpl; try reflexivity.
  now rewrite IH.
Qed.

Lemma map2_nth_error {A B C} (f : A -> B -> C) l1 l2 i c :
  nth_error (Np.map2 f l1 l2) i = Some c ->
  exists a b, nth_error l1 i = Some a /\ nth_error l2 i = Some b /\ c = f a b.
Proof.
  revert l2 i. induction l1 as [|a l1 IH]; intros [|b l2] [|i]; simpl; try discriminate.
  - intros [= <-]. eauto.
  - apply IH.
Qed.

(** ** The ocular media: [ocular] *)

Lemma ocular_coefficient_young age :
  age < 60 -> ocular_coefficient age = 1 + (2#100) * (age - 32).
Proof.
  intro H. unfold ocular_coefficient.
  apply Qlt_bool_true in H. now rewrite H.
Qed.

Lemma ocular_coefficient_old age :
  60 <= age -> ocular_coefficient age = (156#100) + (667#10000) * (age - 60).
Proof.
  intro H. unfold ocular_coefficient.
  apply Qlt_bool_false in H. now rewrite H.
Qed.

(** Both branches give 1.56 at 60, and the coefficient changes by at most
    0.0667 per year around it. *)
Lemma ocular_coefficient_lipschitz age :
  Qabs (ocular_coefficient age - ocular_coefficient 60) <= (667#10000) * Qabs (age - 60).
Proof.
  rewrite (ocular_coefficient_old 60) by apply Qle_refl.
  destruct (Qlt_le_dec age 60) as [H|H].
  - rewrite (ocular_coefficient_young age H).
    rewrite (Qabs_neg (age - 60)) by lra.
    apply Qabs_Qle_condition. split; lra.
  - rewrite (ocular_coefficient_old age H).
    rewrite (Qabs_pos (age - 60)) by lra.
    apply Qabs_Qle_condition. split; lra.
Qed.

Lemma ocular_nth_error vd age i d1 d2 :
  nth_error (docul1_fine vd) i = Some d1 ->
  nth_error (docul2_fine vd) i = Some d2 ->
  nth_error (ocular vd age) i = Some (fst d2, ocular_coefficient age * snd d1 + snd d2).
Proof.
  unfold ocular. generalize (docul1_fine vd) (docul2_fine vd).
  induction i as [|i IH]; intros [|a l1] [|b l2]; simpl; try discriminate.
  - now intros [= ->] [= ->].
  - apply IH.
Qed.

(** Every row of [ocular] is affine in the coefficient, with parts that do
    not depend on the age. *)
Lemma density_affine vd i :
  exists D1 D2, forall age, density vd i age == ocular_coefficient age * D1 + D2.
Proof.
  unfold density, ocular. generalize (docul1_fine vd) (docul2_fine vd).
  induction i as [|i IH]; intros l1 l2.
  - destruct l1 as [|a l1], l2 as [|b l2]; simpl;
      try (exists 0, 0; intro age; ring).
    exists (snd a), (snd b). intro age. reflexivity.
  - destruct l1 as [|a l1], l2 as [|b l2]; simpl;
      try (exists 0, 0; intro age; ring).
    apply IH.
Qed.

Lemma density_lipschitz vd i :
  exists K, 0 <= K /\
    forall age, Qabs (density vd i age - density vd i 60) <= K * Qabs (age - 60).
Proof.
  destruct (density_affine vd i) as (D1 & D2 & HD).
  exists ((667#10000) * Qabs D1). split.
  - pose proof (Qabs_nonneg D1). nra.
  - intro age. rewrite (HD age), (HD 60).
    setoid_replace (ocular_coefficient age * D1 + D2 - (ocular_coefficient 60 * D1 + D2))
      with ((ocular_coefficient age - ocular_coefficient 60) * D1) by ring.
    rewrite Qabs_Qmult.
    pose proof (ocular_coefficient_lipschitz age) as L.
    pose proof (Qabs_nonneg D1). pose proof (Qabs_nonneg (age - 60)).
    pose proof (Qabs_nonneg (ocular_coefficient age - ocular_coefficient 60)).
    nra.
Qed.

Lemma density_no_jump vd i : ~ jumps_at (density vd i) 60.
Proof.
  intros (eps & Heps & J).
  destruct (density_lipschitz vd i) as (K & HK & L).
  assert (P : 0 < K + 1) by lra.
  destruct (J (eps / (K + 1))) as (x & Hx & Hj).
  { apply Qlt_shift_div_l; lra. }
  specialize (L x).
  assert (B : K * Qabs (x - 60) < eps).
  { apply Qle_lt_trans with (K * (eps / (K + 1))).
    - pose proof (Qabs_nonneg (x - 60)). nra.
    - setoid_replace (K * (eps / (K + 1))) with (eps * (K / (K + 1)))
        by (field; lra).
      assert (K / (K + 1) < 1) by (apply Qlt_shift_div_r; lra).
      nra. }
  lra.
Qed.

(** ** Normalised triples and their rounding *)

Lemma normalise_sum a b c :
  ~ a + b + c == 0 ->
  a / (a + b + c) + b / (a + b + c) + c / (a + b + c) == 1.
Proof. intro H. field. exact H. Qed.

(** A rounded value is a whole number of units [10^-n]. *)
Lemma my_round_integral x n :
  my_round x n == inject_Z (Z.sgn (Qnum x) * round_units x n) / pow10 n.
Proof. rewrite my_round_units. unfold sign. rewrite inject_Z_mult. reflexivity. Qed.

Lemma Qabs_inject_Z_le_1 z : Qabs (inject_Z z) <= 3 # 2 -> Qabs (inject_Z z) <= 1.
Proof.
  intro H. apply Qabs_Qle_condition in H. destruct H as [H1 H2].
  apply Qabs_Qle_condition.
  assert ((-2 < z)%Z /\ (z < 2)%Z) as [L U].
  { split.
    - rewrite Zlt_Qlt. change (inject_Z (-2)) with (-2). lra.
    - rewrite Zlt_Qlt. change (inject_Z 2) with 2. lra. }
  split.
  - change (-(1)) with (inject_Z (-1)). rewrite <- Zle_Qle. lia.
  - change 1 with (inject_Z 1). rewrite <- Zle_Qle. lia.
Qed.

(** Three values that sum to 1, each rounded half away from zero to [n >= 0]
    decimal places, sum to 1 within one unit of the last place. *)
Lemma rounded_sum_within_unit a b c n :
  (0 <= n)%Z -> a + b + c == 1 ->
  Qabs (my_round a n + my_round b n + my_round c n - 1) <= pow10 (- n).
Proof.
  intros Hn Hs.
  pose proof (pow10_pos n) as P.
  pose proof (my_round_error a n) as Ea.
  pose proof (my_round_error b n) as Eb.
  pose proof (my_round_error c n) as Ec.
  set (ka := (Z.sgn (Qnum a) * round_units a n)%Z).
  set (kb := (Z.sgn (Qnum b) * round_units b n)%Z).
  set (kc := (Z.sgn (Qnum c) * round_units c n)%Z).
  assert (E : my_round a n + my_round b n + my_round c n - 1 ==
              inject_Z (ka + kb + kc - 10 ^ n) / pow10 n).
  { rewrite !my_round_integral. fold ka kb kc.
    unfold Z.sub. rewrite !inject_Z_plus, inject_Z_opp, <- pow10_Z by assumption.
    field. apply pow10_nonzero. }
  assert (B : Qabs (my_round a n + my_round b n + my_round c n - 1) <= (3#2) / pow10 n).
  { setoid_replace (my_round a n + my_round b n + my_round c n - 1)
      with ((my_round a n - a) + (my_round b n - b) + (my_round c n - c))
      by (rewrite <- Hs; ring).
    eapply Qle_trans; [apply Qabs_triangle|].
    eapply Qle_trans; [apply Qplus_le_compat; [apply Qabs_triangle | exact Ec]|].
    setoid_replace ((3 # 2) / pow10 n) with ((1#2) / pow10 n + (1#2) / pow10 n + (1#2) / pow10 n)
      by (field; apply pow10_nonzero).
    lra. }
  rewrite E in B |- *.
  set (z := (ka + kb + kc - 10 ^ n)%Z) in *.
  assert (A : Qabs (inject_Z z / pow10 n) == Qabs (inject_Z z) / pow10 n).
  { unfold Qdiv. rewrite Qabs_Qmult, Qabs_Qinv, (Qabs_pos (pow10 n)) by lra. reflexivity. }
  rewrite A in B |- *.
  assert (Z1 : Qabs (inject_Z z) <= 1).
  { apply Qabs_inject_Z_le_1.
    apply Qmult_le_r with (z := / pow10 n); [apply Qinv_lt_0_compat, P|exact B]. }
  rewrite pow10_opp.
  setoid_replace (/ pow10 n) with (1 / pow10 n) by (field; apply pow10_nonzero).
  apply Qmult_le_r; [apply Qinv_lt_0_compat, P | exact Z1].
Qed.

(** A normalised and rounded row, as in [cc] and [lm]. *)
Lemma normalised_row_sum dp t :
  (0 <= dp)%Z -> ~ triple_sum t == 0 ->
  Qabs (triple_sum (triple_map (fun v => my_round v dp) (normalise t)) - 1) <= pow10 (- dp).
Proof.
  destruct t as [[a b] c]. unfold triple_sum, triple_map, normalise.
  intros Hdp Hs. apply rounded_sum_within_unit; [assumption|].
  apply normalise_sum. exact Hs.
Qed.

(** ** The purple line *)

Lemma bind_Some {A B} (o : option A) (k : A -> option B) b :
  bind o k = Some b -> exists a, o = Some a /\ k a = Some b.
Proof. destruct o as [a|]; simpl; [eauto | discriminate]. Qed.

Lemma nth_map_gap (hull : list (nat * nat)) i e :
  nth_error hull i = Some e -> nth i (map index_gap hull) 0 = index_gap e.
Proof.
  revert i. induction hull as [|h t IH]; intros [|i]; simpl; try discriminate.
  - now intros [= ->].
  - apply IH.
Qed.

(** The selected edge: the first one, in the order of the hull's own list,
    whose index gap is the largest; the line is the pair of rows at its two
    indices. *)
Lemma purple_line_selects hull points p0 p1 :
  purple_line hull points = Some (p0, p1) ->
  exists ind a b,
    nth_error hull ind = Some (a, b) /\
    nth_error points a = Some p0 /\
    nth_error points b = Some p1 /\
    (forall e, In e hull -> index_gap e <= index_gap (a, b)) /\
    (forall j e, (j < ind)%nat -> nth_error hull j = Some e ->
                 index_gap e < index_gap (a, b)).
Proof.
  unfold purple_line. destruct hull as [|h t] eqn:Eh; [discriminate|].
  rewrite <- Eh. intro H.
  apply bind_Some in H. destruct H as ([a b] & He & H).
  apply bind_Some in H. destruct H as (q0 & H0 & H).
  apply bind_Some in H. destruct H as (q1 & H1 & H).
  injection H as <- <-.
  set (gaps := map index_gap hull) in *.
  assert (Hne : gaps <> []) by (unfold gaps; rewrite Eh; discriminate).
  destruct (argmax_spec gaps Hne) as (Hlt & Hmax & Hfirst).
  exists (Np.argmax gaps), a, b. simpl in H0, H1.
  pose proof (nth_map_gap hull _ _ He) as G. fold gaps in G.
  repeat split; try assumption.
  - intros e Hin. apply In_nth_error in Hin. destruct Hin as [j Hj].
    rewrite <- G, <- (nth_map_gap hull j e Hj). apply Hmax.
    unfold gaps. rewrite length_map. apply nth_error_Some. congruence.
  - intros j e Hj Hje. rewrite <- G, <- (nth_map_gap hull j e Hje).
    apply Hfirst. exact Hj.
Qed.

(** Conversely, a non-empty hull whose indices are rows of the table gives a
    line. *)
Lemma purple_line_defined hull points :
  hull <> [] ->
  (forall e, In e hull -> (fst e < length points)%nat /\ (snd e < length points)%nat) ->
  exists l, purple_line hull points = Some l.
Proof.
  intros Hne Hin. unfold purple_line. destruct hull as [|h t] eqn:Eh; [congruence|].
  rewrite <- Eh in *.
  set (gaps := map index_gap hull).
  assert (Hg : gaps <> []) by (unfold gaps; rewrite Eh; discriminate).
  destruct (argmax_spec gaps Hg) as (Hlt & _).
  unfold gaps in Hlt at 2. rewrite length_map in Hlt.
  destruct (nth_error hull (Np.argmax gaps)) as [e|] eqn:He;
    [|apply nth_error_None in He; lia].
  destruct (Hin e (nth_error_In _ _ He)) as [L0 L1].
  destruct (nth_error points (fst e)) as [q0|] eqn:E0;
    [|apply nth_error_None in E0; lia].
  destruct (nth_error points (snd e)) as [q1|] eqn:E1;
    [|apply nth_error_None in E1; lia].
  exists (q0, q1). simpl. rewrite E0. simpl. rewrite E1. reflexivity.
Qed.

Lemma square_permutation : Permutation Example.square Example.square_reordered.
Proof.
  unfold Example.square, Example.square_reordered.
  eapply perm_trans; [apply perm_swap|].
  do 2 apply perm_skip. apply perm_swap.
Qed.

Lemma hull_edgeb_in_range pts i j :
  hull_edgeb pts i j = true -> (i < length pts)%nat /\ (j < length pts)%nat.
Proof.
  unfold hull_edgeb.
  destruct (nth_error pts i) eqn:Ei; [|discriminate].
  destruct (nth_error pts j) eqn:Ej; [|discriminate].
  intros _. split; apply nth_error_Some; congruence.
Qed.

Lemma index_gap_3 a b :
  (a < 4)%nat -> (b < 4)%nat -> index_gap (0%nat, 3%nat) <= index_gap (a, b) ->
  (a = 0%nat /\ b = 3%nat) \/ (a = 3%nat /\ b = 0%nat).
Proof.
  intros Ha Hb. unfold index_gap. simpl fst. simpl snd.
  rewrite <- Zle_Qle. lia.
Qed.

(** Whatever list of hull edges Qhull returns for four points in convex
    position whose far-apart indices 0 and 3 are neighbours on the hull, the
    line is the pair of rows 0 and 3. *)
Lemma widest_edge_0_3 rows hull :
  length rows = 4%nat ->
  hull_edgeb (points_of rows) 0 3 = true ->
  is_convex_hull (points_of rows) hull ->
  exists l, purple_line hull rows = Some l /\
            same_end_points l (nth 0 rows (0, 0, 0), nth 3 rows (0, 0, 0)).
Proof.
  intros Hlen H03 [Hedges Hall].
  assert (Hlp : length (points_of rows) = 4%nat)
    by (unfold points_of; rewrite length_map; exact Hlen).
  assert (Hne : hull <> []).
  { destruct (Hall _ _ H03) as [I|I]; intro E; rewrite E in I; exact I. }
  destruct (purple_line_defined hull rows Hne) as [[p0 p1] Hl].
  { intros e He. rewrite Hlen, <- Hlp.
    apply hull_edgeb_in_range, Hedges, He. }
  exists (p0, p1). split; [exact Hl|].
  destruct (purple_line_selects _ _ _ _ Hl) as (ind & a & b & Hi & Ha & Hb & Hmax & _).
  pose proof (Hedges _ (nth_error_In _ _ Hi)) as He. simpl in He.
  apply hull_edgeb_in_range in He. rewrite Hlp in He. destruct He as [La Lb].
  assert (G : index_gap (0%nat, 3%nat) <= index_gap (a, b)).
  { destruct (Hall _ _ H03) as [I|I].
    - apply Hmax, I.
    - apply (Hmax _ I). }
  destruct (index_gap_3 a b La Lb G) as [[-> ->]|[-> ->]].
  - left. simpl. split.
    + symmetry. apply nth_error_nth with (d := (0, 0, 0)) in Ha. exact Ha.
    + symmetry. apply nth_error_nth with (d := (0, 0, 0)) in Hb. exact Hb.
  - right. simpl. split.
    + symmetry. apply nth_error_nth with (d := (0, 0, 0)) in Ha. exact Ha.
    + symmetry. apply nth_error_nth with (d := (0, 0, 0)) in Hb. exact Hb.
Qed.

(** ** The loop of the transformation solver *)

Section Iteration.

Variable step : Q -> Q * mat3 * Q * bool.

Lemma iterate_returns_at fuel : forall lam res,
  iterate step fuel lam = Some res ->
  exists k, (k < fuel)%nat /\
            (forall j, (j < k)%nat -> step_ok step (landmark step j lam) = false) /\
            step_ok step (landmark step k lam) = true /\
            res = step_result step (landmark step k lam).
Proof.
  induction fuel as [|fuel IH]; intros lam res H; [discriminate|].
  cbn [iterate] in H. destruct (step_ok step lam) eqn:Ok.
  - exists 0%nat. injection H as <-. cbn [landmark].
    split; [lia|]. split; [intros j Hj; lia|]. split; [exact Ok | reflexivity].
  - destruct (IH _ _ H) as (k & Hk & Hbefore & Hat & Hres).
    exists (S k). cbn [landmark].
    split; [lia|]. split; [|split; [exact Hat | exact Hres]].
    intros [|j] Hj; cbn [landmark]; [exact Ok | apply Hbefore; lia].
Qed.

Lemma iterate_from_first_ok k : forall fuel lam,
  (k < fuel)%nat ->
  (forall j, (j < k)%nat -> step_ok step (landmark step j lam) = false) ->
  step_ok step (landmark step k lam) = true ->
  iterate step fuel lam = Some (step_result step (landmark step k lam)).
Proof.
  induction k as [|k IH]; intros [|fuel] lam Hk Hbefore Hat; try lia.
  - cbn [iterate landmark] in *. rewrite Hat. reflexivity.
  - pose proof (Hbefore 0%nat ltac:(lia)) as H0.
    cbn [iterate landmark] in *. rewrite H0.
    apply IH; [lia | | exact Hat].
    intros j Hj. apply (Hbefore (S j)). lia.
Qed.

Lemma iterate_still_running fuel : forall lam,
  iterate step fuel lam = None <-> (forall j, (j < fuel)%nat -> step_ok step (landmark step j lam) = false).
Proof.
  induction fuel as [|fuel IH]; intro lam.
  - split; [intros _ j Hj; lia | reflexivity].
  - cbn [iterate]. destruct (step_ok step lam) eqn:Ok.
    + split; [discriminate|]. intro H. specialize (H 0%nat ltac:(lia)).
      cbn [landmark] in H. congruence.
    + rewrite IH. split.
      * intros H [|j] Hj; cbn [landmark]; [exact Ok | apply H; lia].
      * intros H j Hj. apply (H (S j)). lia.
Qed.

End Iteration.

Section Solver.

Variables l_spline m_spline s_spline v_spline : Q -> Q.
Variable fmin : (Q -> Q) -> Q -> Q -> Q.
Variables a21 a22 a33 : Q.
Variable lambdas : list Q.
Variable cc_ref : list row.
Variables xyz_signfig mat_dp : Z.

Local Abbreviation pass := (pass l_spline m_spline s_spline v_spline fmin a21 a22 a33 lambdas cc_ref xyz_signfig mat_dp).

Lemma solve_iterate fuel : forall lam,
  solve l_spline m_spline s_spline v_spline fmin fuel a21 a22 a33 lambdas lam
        cc_ref xyz_signfig mat_dp
  = iterate pass fuel lam.
Proof.
  induction fuel as [|fuel IH]; intro lam; [reflexivity|].
  cbn [solve iterate]. unfold step_ok, step_result, step_landmark, pass.
  destruct (square_sum_full _ _ _ _ _ _ _ _ _ _ _ _ _) as [[[err M] lam'] ok].
  cbn [fst snd]. destruct ok; [reflexivity|]. rewrite IH. reflexivity.
Qed.

(** What one pass returns: the matrix has the fixed entries, and the
    landmark is the wavelength of minimal modelled x under that matrix. *)
Lemma pass_matrix_shape lam :
  let M := snd (fst (fst (pass lam))) in
  m21 M = a21 /\ m22 M = a22 /\ m23 M = 0 /\ m31 M = 0 /\ m32 M = 0 /\ m33 M = a33.
Proof.
  cbv zeta. unfold pass, square_sum_full. cbv zeta. cbn [fst snd].
  unfold trans_mat_of. cbv zeta. cbn [m21 m22 m23 m31 m32 m33]. auto 6.
Qed.

Lemma pass_landmark_is_argmin lam :
  snd (fst (pass lam)) =
  lambda_test_min_of
    (modelled_cc l_spline m_spline s_spline (snd (fst (fst (pass lam)))) xyz_signfig).
Proof. unfold pass, square_sum_full. cbv zeta. cbn [fst snd]. reflexivity. Qed.

Lemma pass_ok_iff lam :
  snd (pass lam) = Qeq_bool (snd (fst (pass lam))) lam.
Proof. unfold pass, square_sum_full. cbv zeta. cbn [fst snd]. reflexivity. Qed.

Lemma solve_result fuel lam err M lam' :
  solve l_spline m_spline s_spline v_spline fmin fuel a21 a22 a33 lambdas lam
        cc_ref xyz_signfig mat_dp = Some (err, M, lam') ->
  lam' = lambda_test_min_of (modelled_cc l_spline m_spline s_spline M xyz_signfig) /\
  (m21 M = a21 /\ m22 M = a22 /\ m23 M = 0 /\ m31 M = 0 /\ m32 M = 0 /\ m33 M = a33).
Proof.
  rewrite solve_iterate. intro H.
  destruct (iterate_returns_at _ _ _ _ H) as (k & _ & _ & _ & Hres).
  generalize dependent (landmark pass k lam). intros p Hres.
  pose proof (pass_matrix_shape p) as Sh. cbv zeta in Sh.
  pose proof (pass_landmark_is_argmin p) as C.
  unfold step_result in Hres.
  destruct (pass p) as [[[e M0] l0] ok0]. cbn [fst snd] in *.
  injection Hres as -> -> ->. split; [exact C | exact Sh].
Qed.

End Solver.

(** ** Interpolation *)

Lemma mapM_Forall2 {A B} (f : A -> option B) (R : A -> B -> Prop) l :
  (forall a, In a l -> exists b, f a = Some b /\ R a b) ->
  exists bs, mapM f l = Some bs /\ Forall2 R l bs.
Proof.
  induction l as [|a l IH]; intro H.
  - exists []. split; [reflexivity | constructor].
  - destruct (H a (or_introl eq_refl)) as (b & Hb & Rb).
    destruct IH as (bs & Hbs & Rbs); [intros x Hx; apply H; now right|].
    exists (b :: bs). split; [|now constructor].
    cbn [mapM]. rewrite Hb. cbn [bind]. rewrite Hbs. reflexivity.
Qed.

(** The same along a second list that runs in step with the first. *)
Lemma mapM_Forall2_along {A B C} (f : A -> option B) (P : A -> C -> Prop)
  (R : C -> B -> Prop) l cs :
  Forall2 P l cs ->
  (forall a c, P a c -> exists b, f a = Some b /\ R c b) ->
  exists bs, mapM f l = Some bs /\ Forall2 R cs bs.
Proof.
  intros HP H. induction HP as [|a c l cs Hac _ IH].
  - exists []. split; [reflexivity | constructor].
  - destruct (H a c Hac) as (b & Hb & Rb). destruct IH as (bs & Hbs & Rbs).
    exists (b :: bs). split; [|now constructor].
    cbn [mapM]. rewrite Hb. cbn [bind]. rewrite Hbs. reflexivity.
Qed.

Lemma increasing_tail x l : increasing (x :: l) -> increasing l.
Proof. destruct l as [|y l]; [trivial | intros [_ H]; exact H]. Qed.

Lemma increasing_head_le_last x l : increasing (x :: l) -> x <= last (x :: l) 0.
Proof.
  revert x. induction l as [|y l IH]; intros x H.
  - apply Qle_refl.
  - destruct H as [Hxy H]. specialize (IH y H).
    change (last (x :: y :: l) 0) with (last (y :: l) 0). lra.
Qed.

Lemma Qle_bool_true x y : x <= y -> Qle_bool x y = true.
Proof. apply Qle_bool_iff. Qed.

Lemma Qle_bool_false x y : y < x -> Qle_bool x y = false.
Proof.
  intro H. destruct (Qle_bool x y) eqn:E; [|reflexivity].
  apply Qle_bool_iff in E. exfalso. exact (Qlt_not_le _ _ H E).
Qed.

Lemma interp1d_linear_cons x0 x1 xs y0 y1 ys x :
  interp1d_linear (x0 :: x1 :: xs) (y0 :: y1 :: ys) x =
  if Qle_bool x0 x && Qle_bool x x1
  then Some ((y1 - y0) / (x1 - x0) * (x - x0) + y0)
  else interp1d_linear (x1 :: xs) (y1 :: ys) x.
Proof. reflexivity. Qed.

(** Linear interpolation between the points [(x_i, y_i)] stays between the
    least and the greatest ordinate, wherever it is defined; it is defined
    on the whole range of increasing abscissae. *)
Lemma interp1d_linear_bounded lo hi : forall xs ys x,
  length xs = length ys -> (2 <= length xs)%nat -> increasing xs ->
  hd 0 xs <= x <= last xs 0 ->
  (forall y, In y ys -> lo <= y <= hi) ->
  exists v, interp1d_linear xs ys x = Some v /\ lo <= v <= hi.
Proof.
  induction xs as [|x0 xs IH]; intros ys x Hlen H2 Hinc Hx Hys; [simpl in H2; lia|].
  destruct xs as [|x1 xs]; [simpl in H2; lia|].
  destruct ys as [|y0 [|y1 ys]]; try discriminate.
  destruct Hinc as [H01 Hinc]. cbn [hd] in Hx.
  change (last (x0 :: x1 :: xs) 0) with (last (x1 :: xs) 0) in Hx.
  rewrite interp1d_linear_cons.
  destruct (Qlt_le_dec x1 x) as [Hgt|Hle].
  - rewrite (Qle_bool_true x0 x) by lra. rewrite (Qle_bool_false x x1 Hgt). cbn [andb].
    destruct xs as [|x2 xs].
    { cbn [last] in Hx. lra. }
    apply IH.
    + simpl in Hlen |- *. lia.
    + simpl. lia.
    + exact Hinc.
    + cbn [hd]. split; [lra | apply Hx].
    + intros y Hy. apply Hys. now right.
  - rewrite (Qle_bool_true x0 x) by lra. rewrite (Qle_bool_true x x1 Hle). cbn [andb].
    eexists. split; [reflexivity|].
    pose proof (Hys y0 (or_introl eq_refl)) as B0.
    pose proof (Hys y1 (or_intror (or_introl eq_refl))) as B1.
    assert (D : 0 < x1 - x0) by lra.
    set (t := (x - x0) / (x1 - x0)).
    assert (T0 : 0 <= t) by (apply Qle_shift_div_l; lra).
    assert (T1 : t <= 1) by (apply Qle_shift_div_r; lra).
    setoid_replace ((y1 - y0) / (x1 - x0) * (x - x0) + y0) with (y0 + t * (y1 - y0))
      by (unfold t; field; lra).
    split; nra.
Qed.

(** Where the ordinates are the abscissae, it is the identity. *)
Lemma interp1d_linear_identity : forall xs ys x,
  Forall2 Qeq xs ys -> (2 <= length xs)%nat -> increasing xs ->
  hd 0 xs <= x <= last xs 0 ->
  exists v, interp1d_linear xs ys x = Some v /\ v == x.
Proof.
  induction xs as [|x0 xs IH]; intros ys x HF H2 Hinc Hx; [simpl in H2; lia|].
  destruct xs as [|x1 xs]; [simpl in H2; lia|].
  inversion HF as [|? y0 ? ys' E0 HF' ]; subst.
  inversion HF' as [|? y1 ? ys'' E1 HF'']; subst.
  destruct Hinc as [H01 Hinc]. cbn [hd] in Hx.
  change (last (x0 :: x1 :: xs) 0) with (last (x1 :: xs) 0) in Hx.
  rewrite interp1d_linear_cons.
  destruct (Qlt_le_dec x1 x) as [Hgt|Hle].
  - rewrite (Qle_bool_true x0 x) by lra. rewrite (Qle_bool_false x x1 Hgt). cbn [andb].
    destruct xs as [|x2 xs].
    { cbn [last] in Hx. lra. }
    apply IH.
    + exact HF'.
    + simpl. lia.
    + exact Hinc.
    + cbn [hd]. split; [lra | apply Hx].
  - rewrite (Qle_bool_true x0 x) by lra. rewrite (Qle_bool_true x x1 Hle). cbn [andb].
    eexists. split; [reflexivity|].
    rewrite <- E0, <- E1. field. lra.
Qed.

(** *** The wavelength grid 360, 361, ..., 830 *)

Lemma arange_n_increasing n : forall start step,
  0 < step -> increasing (Np.arange_n start step n).
Proof.
  induction n as [|n IH]; intros start step Hs; [exact I|].
  cbn [Np.arange_n]. destruct n as [|n]; [exact I|].
  specialize (IH (start + step) step Hs). cbn [Np.arange_n] in IH |- *.
  split; [lra | exact IH].
Qed.

Lemma lambd_increasing : increasing lambd.
Proof. apply arange_n_increasing. reflexivity. Qed.

Lemma lambd_length : length lambd = 471%nat.
Proof. apply arange_n_length. Qed.

Lemma lambd_hd : hd 0 lambd = 360.
Proof. reflexivity. Qed.

Lemma lambd_last : last lambd 0 == 830.
Proof. vm_compute. reflexivity. Qed.

Lemma increasing_In_bounds l : forall x,
  increasing l -> In x l -> hd 0 l <= x <= last l 0.
Proof.
  induction l as [|a l IH]; intros x Hinc Hin; [contradiction|].
  destruct Hin as [<-|Hin].
  - split; [apply Qle_refl | apply increasing_head_le_last, Hinc].
  - destruct l as [|b l]; [contradiction|].
    destruct Hinc as [Hab Hinc]. specialize (IH x Hinc Hin). cbn [hd] in IH |- *.
    change (last (a :: b :: l) 0) with (last (b :: l) 0). lra.
Qed.

Lemma Forall2_Qeq_sym l l' : Forall2 Qeq l l' -> Forall2 Qeq l' l.
Proof. induction 1; constructor; [symmetry|]; assumption. Qed.

Lemma Forall2_Qeq_trans l1 l2 l3 :
  Forall2 Qeq l1 l2 -> Forall2 Qeq l2 l3 -> Forall2 Qeq l1 l3.
Proof.
  intro H. revert l3. induction H as [|a b l1 l2 Hab _ IH]; intros l3 H3; inversion H3; subst.
  - constructor.
  - constructor; [etransitivity; eassumption | apply IH; assumption].
Qed.

Lemma Forall2_Qeq_increasing l l' : Forall2 Qeq l l' -> increasing l' -> increasing l.
Proof.
  induction 1 as [|a b l l' Hab HF IH]; intro Hinc; [exact I|].
  destruct HF as [|a' b' l l' Hab' HF]; [exact I|].
  destruct Hinc as [Hlt Hinc]. split; [lra | apply IH, Hinc].
Qed.

Lemma Forall2_Qeq_hd l l' : Forall2 Qeq l l' -> hd 0 l == hd 0 l'.
Proof. destruct 1; [reflexivity | assumption]. Qed.

Lemma Forall2_Qeq_last l l' : Forall2 Qeq l l' -> last l 0 == last l' 0.
Proof.
  induction 1 as [|a b l l' Hab HF IH]; [reflexivity|].
  destruct HF as [|a' b' l l' Hab' HF]; [exact Hab|].
  change (last (a :: a' :: l) 0) with (last (a' :: l) 0).
  change (last (b :: b' :: l') 0) with (last (b' :: l') 0). exact IH.
Qed.

Lemma Forall2_length_eq {A B} (R : A -> B -> Prop) l l' :
  Forall2 R l l' -> length l = length l'.
Proof. induction 1; simpl; congruence. Qed.

Lemma Forall2_with_In {A B} (R : A -> B -> Prop) l l' :
  Forall2 R l l' -> Forall2 (fun a b => R a b /\ In b l') l l'.
Proof.
  intro H.
  assert (G : forall full, incl l' full -> Forall2 (fun a b => R a b /\ In b full) l l').
  { induction H as [|a b l l' Hab _ IH]; intros full Hincl; constructor.
    - split; [exact Hab | apply Hincl; now left].
    - apply IH. intros x Hx. apply Hincl. now right. }
  apply G, incl_refl.
Qed.

Lemma Forall2_map_r {A B C} (R : A -> C -> Prop) (f : B -> C) l l' :
  Forall2 R l (map f l') <-> Forall2 (fun a b => R a (f b)) l l'.
Proof.
  split.
  - revert l. induction l' as [|b l' IH]; intros l H; inversion H; subst; constructor; auto.
  - induction 1; simpl; constructor; auto.
Qed.

Lemma Forall2_impl {A B} (R R' : A -> B -> Prop) l l' :
  (forall a b, R a b -> R' a b) -> Forall2 R l l' -> Forall2 R' l l'.
Proof. intros H. induction 1; constructor; auto. Qed.

Lemma Forall2_flip {A B} (R : A -> B -> Prop) l l' :
  Forall2 R l l' -> Forall2 (fun b a => R a b) l' l.
Proof. induction 1; constructor; auto. Qed.

Lemma in_combine_map {A} (f g : A -> Q) l r :
  In r l -> In (f r, g r) (combine (map f l) (map g l)).
Proof.
  induction l as [|a l IH]; [contradiction|].
  intros [->|H]; [now left | right; apply IH, H].
Qed.

(** *** The chromaticities of a table *)

Lemma chromaticities_wl xyz : map wl (chromaticities xyz) = map wl xyz.
Proof.
  unfold chromaticities. rewrite map_map. apply map_ext.
  intro r. unfold with_wl, normalise, values. reflexivity.
Qed.

Lemma chromaticities_sum xyz r :
  (forall r0, In r0 xyz -> ~ triple_sum (values r0) == 0) ->
  In r (chromaticities xyz) -> c1 r + c2 r + c3 r == 1.
Proof.
  intros Hnz Hin. unfold chromaticities in Hin. apply in_map_iff in Hin.
  destruct Hin as (r0 & <- & Hin0). specialize (Hnz r0 Hin0).
  unfold with_wl, normalise, values, triple_sum in *. cbn [c1 c2 c3].
  field. exact Hnz.
Qed.

Lemma Forall2_right_Forall {A B} (P : B -> Prop) (l : list A) l' :
  Forall2 (fun _ b => P b) l l' -> Forall P l'.
Proof. induction 1; constructor; auto. Qed.

Lemma lambd_bounds x : In x lambd -> 360 <= x <= 830.
Proof.
  intro H. pose proof (increasing_In_bounds lambd x lambd_increasing H) as B.
  rewrite lambd_hd, lambd_last in B. exact B.
Qed.

Lemma standard_table_wl xyz :
  standard_table xyz ->
  let xs := map wl (chromaticities xyz) in
  Forall2 Qeq xs lambd /\ increasing xs /\ hd 0 xs == 360 /\ last xs 0 == 830.
Proof.
  intros (W & _ & _). cbv zeta. rewrite chromaticities_wl.
  split; [exact W|]. split; [exact (Forall2_Qeq_increasing _ _ W lambd_increasing)|].
  split.
  - rewrite (Forall2_Qeq_hd _ _ W). rewrite lambd_hd. reflexivity.
  - rewrite (Forall2_Qeq_last _ _ W). apply lambd_last.
Qed.

(** The five knots of a standard table. *)
Lemma standard_table_knots xyz :
  standard_table xyz ->
  exists k0 k1 k2 k4,
    knots_of (chromaticities xyz) = [k0; k1; k2; 700; k4] /\
    k0 == 360 /\ 360 < k1 /\ k1 < k2 /\ k2 < 700 /\ k4 == 830.
Proof.
  intro Hstd. destruct (standard_table_wl xyz Hstd) as (W & _ & H0 & H4).
  destruct Hstd as (_ & _ & K). cbv zeta in K, H0, H4.
  unfold knots_of in *. cbv zeta in *. cbn [nth] in K.
  do 4 eexists. split; [reflexivity|].
  split.
  { destruct (map wl (chromaticities xyz)); [inversion W | exact H0]. }
  split; [apply K|]. split; [apply K|]. split; [apply K | exact H4].
Qed.

Section Endpoints.

Variable cubic : list Q -> list Q -> Q -> Q.
Hypothesis cubic_nodes : interpolates_nodes cubic.

(** Evaluated at the tabulated wavelengths, the cubic interpolant of a column
    gives the column. *)
Lemma cubic_on_grid xyz (col : row -> Q) lams :
  standard_table xyz -> Forall2 Qeq lams lambd ->
  exists vs,
    mapM (interp1d_cubic cubic (map wl (chromaticities xyz)) (map col (chromaticities xyz))) lams
    = Some vs /\
    Forall2 (fun v r => v == col r) vs (chromaticities xyz).
Proof.
  intros Hstd Hl. destruct (standard_table_wl xyz Hstd) as (W & Hinc & H0 & H4).
  cbv zeta in *. set (cc := chromaticities xyz) in *.
  assert (A : Forall2 (fun lam r => lam == wl r /\ In r cc) lams cc).
  { apply Forall2_with_In. apply (proj1 (Forall2_map_r Qeq wl lams cc)).
    apply (Forall2_Qeq_trans _ _ _ Hl). apply Forall2_Qeq_sym, W. }
  destruct (mapM_Forall2_along
              (interp1d_cubic cubic (map wl cc) (map col cc))
              (fun lam r => lam == wl r /\ In r cc)
              (fun r v => v == col r) lams cc A) as (vs & Hvs & R).
  - intros lam r [E Hin]. unfold interp1d_cubic.
    assert (B : hd 0 (map wl cc) <= wl r <= last (map wl cc) 0).
    { apply increasing_In_bounds; [exact Hinc | apply in_map, Hin]. }
    rewrite (Qle_bool_true (hd 0 (map wl cc)) lam) by (rewrite E; apply B).
    rewrite (Qle_bool_true lam (last (map wl cc) 0)) by (rewrite E; apply B).
    cbn [andb]. eexists. split; [reflexivity|].
    apply cubic_nodes with (xi := wl r).
    + exact Hinc.
    + now rewrite !length_map.
    + apply in_combine_map, Hin.
    + exact E.
  - exists vs. split; [exact Hvs | apply Forall2_flip in R; exact R].
Qed.

(** Anywhere between 360 and 830 nm the interpolant is defined. *)
Lemma cubic_in_range xyz (col : row -> Q) lams :
  standard_table xyz -> Forall (fun v => 360 <= v <= 830) lams ->
  exists vs,
    mapM (interp1d_cubic cubic (map wl (chromaticities xyz)) (map col (chromaticities xyz))) lams
    = Some vs /\
    length vs = length lams.
Proof.
  intros Hstd Hl. destruct (standard_table_wl xyz Hstd) as (W & Hinc & H0 & H4).
  cbv zeta in *. set (cc := chromaticities xyz) in *.
  destruct (mapM_Forall2 (interp1d_cubic cubic (map wl cc) (map col cc))
                         (fun _ _ => True) lams) as (vs & Hvs & R).
  - intros lam Hin. rewrite Forall_forall in Hl. specialize (Hl lam Hin).
    unfold interp1d_cubic.
    rewrite (Qle_bool_true (hd 0 (map wl cc)) lam) by (rewrite H0; apply Hl).
    rewrite (Qle_bool_true lam (last (map wl cc) 0)) by (rewrite H4; apply Hl).
    cbn [andb]. eexists. split; [reflexivity | exact I].
  - exists vs. split; [exact Hvs | symmetry; exact (Forall2_length_eq _ _ _ R)].
Qed.

End Endpoints.

(** The knot map is the identity on the grid when the blended knots are the
    knots of the table itself. *)
Lemma knots_identity knots K :
  Forall2 Qeq knots K -> (2 <= length knots)%nat -> increasing knots ->
  hd 0 knots == 360 -> last knots 0 == 830 ->
  exists lams, mapM (interp1d_linear knots K) lambd = Some lams /\
               Forall2 Qeq lams lambd.
Proof.
  intros HF H2 Hinc H0 H4.
  destruct (mapM_Forall2 (interp1d_linear knots K) (fun x v => v == x) lambd)
    as (lams & Hl & R).
  - intros x Hx. apply interp1d_linear_identity; try assumption.
    rewrite H0, H4. apply lambd_bounds, Hx.
  - exists lams. split; [exact Hl | apply Forall2_flip in R; exact R].
Qed.

(** In any case it maps the grid into the range of the other table's knots. *)
Lemma knots_in_range knots K :
  length knots = length K -> (2 <= length knots)%nat -> increasing knots ->
  hd 0 knots == 360 -> last knots 0 == 830 ->
  (forall y, In y K -> 360 <= y <= 830) ->
  exists lams, mapM (interp1d_linear knots K) lambd = Some lams /\
               Forall (fun v => 360 <= v <= 830) lams.
Proof.
  intros Hlen H2 Hinc H0 H4 HK.
  destruct (mapM_Forall2 (interp1d_linear knots K) (fun _ v => 360 <= v <= 830) lambd)
    as (lams & Hl & R).
  - intros x Hx. apply interp1d_linear_bounded; try assumption.
    rewrite H0, H4. apply lambd_bounds, Hx.
  - exists lams. split; [exact Hl | exact (Forall2_right_Forall _ _ _ R)].
Qed.

(** *** Blending with weight 0 or 1 *)

Lemma blend_left {R} alpha (f : R -> Q) xs ys rows :
  alpha == 0 -> Forall2 (fun a r => a == f r) xs rows -> length ys = length xs ->
  Forall2 (fun v r => v == f r) (Np.map2 (blend alpha) xs ys) rows.
Proof.
  intros Ha H. revert ys. induction H as [|a r xs rows Har _ IH]; intros [|b ys] Hlen;
    try discriminate; cbn [Np.map2]; constructor.
  - unfold blend. rewrite Ha, Har. ring.
  - apply IH. simpl in Hlen. lia.
Qed.

Lemma blend_right {R} alpha (f : R -> Q) xs ys rows :
  alpha == 1 -> Forall2 (fun b r => b == f r) ys rows -> length xs = length ys ->
  Forall2 (fun v r => v == f r) (Np.map2 (blend alpha) xs ys) rows.
Proof.
  intros Ha H. revert xs. induction H as [|b r ys rows Hbr _ IH]; intros [|a xs] Hlen;
    try discriminate; cbn [Np.map2]; constructor.
  - unfold blend. rewrite Ha, Hbr. ring.
  - apply IH. simpl in Hlen. lia.
Qed.

Lemma complement_column xs ys rows :
  Forall2 (fun x r => x == c1 r) xs rows ->
  Forall2 (fun y r => y == c2 r) ys rows ->
  (forall r, In r rows -> c1 r + c2 r + c3 r == 1) ->
  Forall2 (fun z r => z == c3 r) (Np.map2 (fun xv yv => 1 - xv - yv) xs ys) rows.
Proof.
  intro H. revert ys. induction H as [|x r xs rows Hx _ IH]; intros ys Hy Hs;
    inversion Hy as [|y r' ys' rows' Hyr Hy']; subst; cbn [Np.map2]; constructor.
  - rewrite Hx, Hyr. rewrite <- (Hs r (or_introl eq_refl)). ring.
  - apply IH; [exact Hy' | intros r0 H0; apply Hs; now right].
Qed.

Lemma of_columns_rows lam xs ys zs rows :
  Forall2 (fun w r => w == wl r) lam rows ->
  Forall2 (fun x r => x == c1 r) xs rows ->
  Forall2 (fun y r => y == c2 r) ys rows ->
  Forall2 (fun z r => z == c3 r) zs rows ->
  Forall2 row_eq (of_columns lam xs ys zs) rows.
Proof.
  intro H. revert xs ys zs. induction H as [|w r lam rows Hw _ IH]; intros xs ys zs Hx Hy Hz;
    inversion Hx; inversion Hy; inversion Hz; subst; try constructor.
  - unfold row_eq, with_wl. cbn [wl c1 c2 c3]. auto.
  - apply IH; assumption.
Qed.

Lemma blended_knots alpha a0 a1 a2 a3 a4 b0 b1 b2 b3 b4 :
  set_last 830 (set_first 360
    (Np.map2 (blend alpha) [a0; a1; a2; a3; a4] [b0; b1; b2; b3; b4]))
  = [360; blend alpha a1 b1; blend alpha a2 b2; blend alpha a3 b3; 830].
Proof. reflexivity. Qed.

Lemma mapM_length {A B} (f : A -> option B) l : forall bs,
  mapM f l = Some bs -> length bs = length l.
Proof.
  induction l as [|a l IH]; intros bs H.
  - injection H as <-. reflexivity.
  - cbn [mapM] in H. destruct (f a) as [b|]; [|discriminate]. cbn [bind] in H.
    destruct (mapM f l) as [bs'|]; [|discriminate]. cbn [bind] in H.
    injection H as <-. simpl. now rewrite (IH bs' eq_refl).
Qed.

Section Boundary.

Variable cubic : list Q -> list Q -> Q -> Q.
Hypothesis cubic_nodes : interpolates_nodes cubic.
Variable vd : VisualData.
Hypothesis table31 : standard_table (xyz31 vd).
Hypothesis table64 : standard_table (xyz64 vd).

Lemma grid_rows xyz :
  standard_table xyz -> Forall2 (fun w r => w == wl r) lambd (chromaticities xyz).
Proof.
  intro Hstd. destruct (standard_table_wl xyz Hstd) as (W & _).
  apply (proj1 (Forall2_map_r Qeq wl lambd (chromaticities xyz))).
  apply Forall2_Qeq_sym, W.
Qed.

Lemma chromaticities_length xyz :
  standard_table xyz -> length (chromaticities xyz) = length lambd.
Proof.
  intro Hstd. symmetry. exact (Forall2_length_eq _ _ _ (grid_rows xyz Hstd)).
Qed.

Lemma field_size_2_is_cc31 :
  exists t, chromaticity_interpolated cubic vd 2 = Some t /\ Forall2 row_eq t (cc31 vd).
Proof.
  destruct (standard_table_knots _ table31) as (a0 & a1 & a2 & a4 & K31 & A0 & A1 & A12 & A2 & A4).
  destruct (standard_table_knots _ table64) as (b0 & b1 & b2 & b4 & K64 & B0 & B1 & B12 & B2 & B4).
  unfold chromaticity_interpolated. cbv zeta.
  unfold cc31knots, cc64knots, cc31, cc64. rewrite K31, K64, blended_knots.
  set (alpha := (2 - 2) / 8). assert (Ha : alpha == 0) by reflexivity.
  assert (E1 : blend alpha a1 b1 == a1) by (unfold blend; rewrite Ha; ring).
  assert (E2 : blend alpha a2 b2 == a2) by (unfold blend; rewrite Ha; ring).
  assert (E3 : blend alpha 700 700 == 700) by (unfold blend; ring).
  set (knots := [360; blend alpha a1 b1; blend alpha a2 b2; blend alpha 700 700; 830]).
  assert (Hinc : increasing knots) by (unfold knots; cbn [increasing]; repeat split; lra).
  destruct (knots_identity knots [a0; a1; a2; 700; a4]) as (l31 & L31 & F31);
    [ unfold knots; repeat constructor; try assumption; now symmetry
    | simpl; lia | exact Hinc | reflexivity | reflexivity | ].
  destruct (knots_in_range knots [b0; b1; b2; 700; b4]) as (l64 & L64 & F64);
    [ reflexivity | simpl; lia | exact Hinc | reflexivity | reflexivity
    | intros y [<-|[<-|[<-|[<-|[<-|[]]]]]]; lra | ].
  rewrite L31. cbn [bind]. rewrite L64. cbn [bind].
  destruct (cubic_on_grid cubic cubic_nodes (xyz31 vd) c1 l31 table31 F31) as (x31 & X31 & FX31).
  destruct (cubic_in_range cubic (xyz64 vd) c1 l64 table64 F64) as (x64 & X64 & LX64).
  destruct (cubic_on_grid cubic cubic_nodes (xyz31 vd) c2 l31 table31 F31) as (y31 & Y31 & FY31).
  destruct (cubic_in_range cubic (xyz64 vd) c2 l64 table64 F64) as (y64 & Y64 & LY64).
  rewrite X31. cbn [bind]. rewrite X64. cbn [bind].
  rewrite Y31. cbn [bind]. rewrite Y64. cbn [bind].
  eexists. split; [reflexivity|].
  assert (N64 : length l64 = length lambd) by exact (mapM_length _ _ _ L64).
  assert (NX : length x64 = length x31).
  { rewrite LX64, N64, (Forall2_length_eq _ _ _ FX31). symmetry.
    apply chromaticities_length, table31. }
  assert (NY : length y64 = length y31).
  { rewrite LY64, N64, (Forall2_length_eq _ _ _ FY31). symmetry.
    apply chromaticities_length, table31. }
  pose proof (blend_left alpha c1 x31 x64 _ Ha FX31 NX) as BX.
  pose proof (blend_left alpha c2 y31 y64 _ Ha FY31 NY) as BY.
  apply of_columns_rows; [apply grid_rows, table31 | exact BX | exact BY |].
  apply complement_column; [exact BX | exact BY |].
  intros r Hr. apply (chromaticities_sum (xyz31 vd)); [apply table31 | exact Hr].
Qed.

Lemma field_size_10_is_cc64 :
  exists t, chromaticity_interpolated cubic vd 10 = Some t /\ Forall2 row_eq t (cc64 vd).
Proof.
  destruct (standard_table_knots _ table31) as (a0 & a1 & a2 & a4 & K31 & A0 & A1 & A12 & A2 & A4).
  destruct (standard_table_knots _ table64) as (b0 & b1 & b2 & b4 & K64 & B0 & B1 & B12 & B2 & B4).
  unfold chromaticity_interpolated. cbv zeta.
  unfold cc31knots, cc64knots, cc31, cc64. rewrite K31, K64, blended_knots.
  set (alpha := (10 - 2) / 8). assert (Ha : alpha == 1) by reflexivity.
  assert (E1 : blend alpha a1 b1 == b1) by (unfold blend; rewrite Ha; ring).
  assert (E2 : blend alpha a2 b2 == b2) by (unfold blend; rewrite Ha; ring).
  assert (E3 : blend alpha 700 700 == 700) by (unfold blend; ring).
  set (knots := [360; blend alpha a1 b1; blend alpha a2 b2; blend alpha 700 700; 830]).
  assert (Hinc : increasing knots) by (unfold knots; cbn [increasing]; repeat split; lra).
  destruct (knots_in_range knots [a0; a1; a2; 700; a4]) as (l31 & L31 & F31);
    [ reflexivity | simpl; lia | exact Hinc | reflexivity | reflexivity
    | intros y [<-|[<-|[<-|[<-|[<-|[]]]]]]; lra | ].
  destruct (knots_identity knots [b0; b1; b2; 700; b4]) as (l64 & L64 & F64);
    [ unfold knots; repeat constructor; try assumption; now symmetry
    | simpl; lia | exact Hinc | reflexivity | reflexivity | ].
  rewrite L31. cbn [bind]. rewrite L64. cbn [bind].
  destruct (cubic_in_range cubic (xyz31 vd) c1 l31 table31 F31) as (x31 & X31 & LX31).
  destruct (cubic_on_grid cubic cubic_nodes (xyz64 vd) c1 l64 table64 F64) as (x64 & X64 & FX64).
  destruct (cubic_in_range cubic (xyz31 vd) c2 l31 table31 F31) as (y31 & Y31 & LY31).
  destruct (cubic_on_grid cubic cubic_nodes (xyz64 vd) c2 l64 table64 F64) as (y64 & Y64 & FY64).
  rewrite X31. cbn [bind]. rewrite X64. cbn [bind].
  rewrite Y31. cbn [bind]. rewrite Y64. cbn [bind].
  eexists. split; [reflexivity|].
  assert (N31 : length l31 = length lambd) by exact (mapM_length _ _ _ L31).
  assert (NX : length x31 = length x64).
  { rewrite LX31, N31, (Forall2_length_eq _ _ _ FX64). symmetry.
    apply chromaticities_length, table64. }
  assert (NY : length y31 = length y64).
  { rewrite LY31, N31, (Forall2_length_eq _ _ _ FY64). symmetry.
    apply chromaticities_length, table64. }
  pose proof (blend_right alpha c1 x31 x64 _ Ha FX64 NX) as BX.
  pose proof (blend_right alpha c2 y31 y64 _ Ha FY64 NY) as BY.
  apply of_columns_rows; [apply grid_rows, table64 | exact BX | exact BY |].
  apply complement_column; [exact BX | exact BY |].
  intros r Hr. apply (chromaticities_sum (xyz64 vd)); [apply table64 | exact Hr].
Qed.

End Boundary.

(** ** The pipeline [compute_tabulated] *)

Lemma obind_Return {A B} (o : outcome A) (k : A -> outcome B) b :
  obind o k = Return b -> exists a, o = Return a /\ k a = Return b.
Proof. destruct o as [a| |]; simpl; [eauto | discriminate | discriminate]. Qed.

Lemma or_raise_Return {A} e (o : option A) a : or_raise e o = Return a -> o = Some a.
Proof. destruct o; simpl; [now intros [= ->] | discriminate]. Qed.

Lemma or_running_Return {A} (o : option A) a : or_running o = Return a -> o = Some a.
Proof. destruct o; simpl; [now intros [= ->] | discriminate]. Qed.

Lemma tabulate_values lambdas (a : list (Q * Q * Q)) :
  length lambdas = length a -> map values (tabulate lambdas a) = a.
Proof.
  unfold tabulate. revert a. induction lambdas as [|w l IH]; intros [|[[x y] z] a] H;
    try discriminate; [reflexivity|].
  cbn [Np.map2 map]. rewrite IH by (simpl in H; lia). reflexivity.
Qed.

Lemma tabulate_nth_error lambdas (a : list (Q * Q * Q)) i r :
  nth_error (tabulate lambdas a) i = Some r ->
  nth_error a i = Some (values r).
Proof.
  unfold tabulate. intro H. apply map2_nth_error in H.
  destruct H as (w & [[x y] z] & _ & Ha & ->). exact Ha.
Qed.

Section PipelineFacts.

Variable np_exp : Q -> Q.
Variable pow10r : Q -> Q.
Variable spline : list Q -> list Q -> Q -> Q.
Variable cubic : list Q -> list Q -> Q -> Q.
Variable fmin : (Q -> Q) -> Q -> Q -> Q.
Variable convex_hull : list (Q * Q) -> option (list (nat * nat)).
Variable vd : VisualData.

Local Abbreviation purple := (purple_line_of convex_hull).
Local Abbreviation tabulated := (tabulate_results convex_hull vd).
Local Abbreviation resampled_at := (resample np_exp pow10r spline vd).
Local Abbreviation run :=
  (compute_tabulated np_exp pow10r spline cubic fmin convex_hull vd).

(** What the returned tuple holds, in terms of the matrix and the grid. *)
Lemma tabulate_results_Return rs lambdas M lam xyz_signfig cc_dp lms_signfig bm_dp lm_dp r :
  tabulated rs lambdas M lam xyz_signfig cc_dp lms_signfig bm_dp lm_dp = Return r ->
  let lms := map (fun w => (rs_l rs w, rs_m rs w, rs_s rs w)) lambdas in
  let lms_standard := map (fun w => (rs_ls rs w, rs_ms rs w, rs_ss rs w)) lambdas in
  let xyz := map (fun t => triple_map (fun v => significant_figures v xyz_signfig)
                                      (dot M t)) lms in
  res_trans_mat r = M /\
  res_lambda_ref_min r = lam /\
  res_xyz r = tabulate lambdas xyz /\
  res_cc r = tabulate lambdas (map (cc_row cc_dp) xyz) /\
  res_lms r = tabulate lambdas lms /\
  res_lms_standard r = tabulate lambdas lms_standard /\
  res_bm r = tabulate lambdas
               (Np.map2 (bm_row M (rs_bm_s_max rs) bm_dp) lms (map (rs_v rs) lambdas)) /\
  res_lm r = tabulate lambdas
               (map (lm_row lm_dp)
                    (lms_N_of (if (lm_dp >? 5)%Z then lms else lms_standard))) /\
  plots_lms (res_plots r) = rs_lms rs /\
  exists purple_cc purple_bm,
    res_purple_line_bm r = round_line bm_dp purple_bm /\
    res_purple_line_cc r =
      report_bm_wavelength (round_line cc_dp purple_cc) (round_line bm_dp purple_bm).
Proof.
  unfold tabulate_results. cbv zeta. intro H.
  apply obind_Return in H. destruct H as (pcc & _ & H).
  apply obind_Return in H. destruct H as (pbm & _ & H).
  apply obind_Return in H. destruct H as (plm & _ & H).
  apply obind_Return in H. destruct H as (p31 & _ & H).
  apply obind_Return in H. destruct H as (p64 & _ & H).
  injection H as <-. cbn [res_trans_mat res_lambda_ref_min res_xyz res_cc res_lms
    res_lms_standard res_bm res_lm res_plots plots_lms res_purple_line_bm res_purple_line_cc].
  do 9 (split; [reflexivity|]). exists pcc, pbm. split; reflexivity.
Qed.

(** A returned tuple comes from a grid, a reference locus and a solver run
    that returned. *)
Lemma compute_tabulated_Return fuel field_size age resolution
      xyz_signfig cc_dp mat_dp lms_signfig bm_dp lm_dp r :
  run fuel field_size age resolution xyz_signfig cc_dp mat_dp lms_signfig bm_dp lm_dp
  = Return r ->
  let rs := resampled_at field_size age xyz_signfig mat_dp lms_signfig in
  exists lambdas cc_ref err M lam,
    Np.arange 390 (830 + resolution) resolution = Some lambdas /\
    chromaticity_interpolated cubic vd field_size = Some cc_ref /\
    solve (rs_l rs) (rs_m rs) (rs_s rs) (rs_v rs) fmin fuel
          (fst (rs_weights rs)) (snd (rs_weights rs)) (a33_of rs lambdas mat_dp)
          lambdas 500 cc_ref xyz_signfig mat_dp = Some (err, M, lam) /\
    tabulated rs lambdas M lam xyz_signfig cc_dp lms_signfig bm_dp lm_dp = Return r.
Proof.
  unfold compute_tabulated. cbv zeta. intro H.
  apply obind_Return in H. destruct H as (lambdas & Hl & H).
  apply or_raise_Return in Hl.
  apply obind_Return in H. destruct H as (cc_ref & Hc & H).
  apply or_raise_Return in Hc.
  apply obind_Return in H. destruct H as ([[err M] lam] & Hs & H).
  apply or_running_Return in Hs.
  exists lambdas, cc_ref, err, M, lam. auto.
Qed.

End PipelineFacts.

(** ** The worked instances *)

Module ExampleFacts.
Import Example.

Lemma digest_A :
  digest (run_A 1 1) =
  Some (mkMat (113936691 # 100000000) (-55039922 # 100000000) (39000000 # 100000000)
              (68990272 # 100000000) (34832189 # 100000000) 0 0 0
              (195085449 # 100000000),
        Some (mkRow 390 (689903 # 1000000) (174161 # 500000) 1)).
Proof. vm_cast_no_check (@eq_refl (option (mat3 * option row)) (digest (run_A 1 1))). Qed.

Lemma run_A_returns : run_A 1 1 = Return result_A.
Proof.
  pose proof digest_A as D. unfold result_A.
  destruct (run_A 1 1) as [r|e|]; [reflexivity | discriminate | discriminate].
Qed.

Lemma run_A_unfold fuel resolution :
  run_A fuel resolution =
  compute_tabulated unused unused step_table step_table fmin_start all_hull_edges
                    vd_A fuel 2 32 resolution 7 5 8 6 6 5.
Proof. reflexivity. Qed.

Lemma compute_tabulated_A :
  compute_tabulated unused unused step_table step_table fmin_start all_hull_edges
                    vd_A 1 2 32 1 7 5 8 6 6 5 = Return result_A.
Proof. exact (eq_trans (eq_sym (run_A_unfold 1 1)) run_A_returns). Qed.

Lemma trans_mat_A :
  res_trans_mat result_A =
  mkMat (113936691 # 100000000) (-55039922 # 100000000) (39000000 # 100000000)
        (68990272 # 100000000) (34832189 # 100000000) 0 0 0 (195085449 # 100000000).
Proof.
  pose proof digest_A as D. unfold result_A.
  destruct (run_A 1 1) as [r|e|]; try discriminate.
  cbn [digest returned] in *. now injection D as -> _.
Qed.

Lemma bm_row_A :
  exists t, nth_error (res_bm result_A) 0 = Some t /\
            c1 t == 689903 # 1000000 /\ c2 t == 174161 # 500000 /\ c3 t == 1.
Proof.
  pose proof digest_A as D. unfold result_A.
  destruct (run_A 1 1) as [r|e|]; try discriminate.
  cbn [digest returned] in *. injection D as _ D.
  destruct (res_bm r) as [|t bm]; cbn [option_map nth_error] in *; [discriminate|].
  exists t. split; [reflexivity|]. injection D as _ D1 D2 D3.
  rewrite <- (Qred_correct (c1 t)), <- (Qred_correct (c2 t)), <- (Qred_correct (c3 t)).
  rewrite D1, D2, D3. repeat split; reflexivity.
Qed.

End ExampleFacts.

(** ** Properties of the returned tuple *)

Lemma arange_n_nth n : forall start step i,
  (i < n)%nat -> nth i (Np.arange_n start step n) 0 == start + inject_Z (Z.of_nat i) * step.
Proof.
  induction n as [|n IH]; intros start step i Hi; [lia|].
  destruct i as [|i]; cbn [Np.arange_n nth].
  - change (inject_Z (Z.of_nat 0)) with 0. ring.
  - rewrite IH by lia. rewrite Nat2Z.inj_succ. unfold Z.succ.
    rewrite inject_Z_plus. change (inject_Z 1) with 1. ring.
Qed.

Lemma modelled_cc_length l m s M n : length (modelled_cc l m s M n) = 441%nat.
Proof.
  unfold modelled_cc, modelled_xyz, lambda_390_830.
  now rewrite !length_map, arange_n_length.
Qed.

Lemma report_bm_wavelength_agrees (cc bm : line) :
  second_wavelength (report_bm_wavelength cc bm) == second_wavelength bm.
Proof.
  destruct cc as [p0 [[w1 a1] b1]], bm as [q0 [[w1' a1'] b1']].
  unfold report_bm_wavelength, second_wavelength.
  destruct (Qeq_bool w1 w1') eqn:E; cbn [negb fst snd].
  - apply Qeq_bool_eq, E.
  - reflexivity.
Qed.

Lemma first_minimum_on_grid xs :
  length xs = 441%nat ->
  (Np.argmin xs < 441)%nat /\
  nth (Np.argmin xs) lambda_390_830 0 == 390 + inject_Z (Z.of_nat (Np.argmin xs)) /\
  (forall j, (j < 441)%nat -> nth (Np.argmin xs) xs 0 <= nth j xs 0) /\
  (forall j, (j < Np.argmin xs)%nat -> nth (Np.argmin xs) xs 0 < nth j xs 0).
Proof.
  intro Hlen.
  assert (Hne : xs <> []) by (intro E; rewrite E in Hlen; discriminate).
  destruct (argmin_spec xs Hne) as (Hi & Hmin & Hfirst). rewrite Hlen in Hi, Hmin.
  split; [exact Hi|]. split; [|split; assumption].
  unfold lambda_390_830. rewrite arange_n_nth by exact Hi. ring.
Qed.

Lemma lambda_test_min_of_eq cc :
  lambda_test_min_of cc = nth (Np.argmin (map x_of cc)) lambda_390_830 0.
Proof. reflexivity. Qed.

Lemma modelled_x_length l m s M n : length (map x_of (modelled_cc l m s M n)) = 441%nat.
Proof. rewrite length_map. apply modelled_cc_length. Qed.

Section Returned.

Variable np_exp : Q -> Q.
Variable pow10r : Q -> Q.
Variable spline : list Q -> list Q -> Q -> Q.
Variable cubic : list Q -> list Q -> Q -> Q.
Variable fmin : (Q -> Q) -> Q -> Q -> Q.
Variable convex_hull : list (Q * Q) -> option (list (nat * nat)).
Variable vd : VisualData.
Variable fuel : nat.
Variables field_size age resolution : Q.
Variables xyz_signfig cc_dp mat_dp lms_signfig bm_dp lm_dp : Z.
Variable r : results.

Hypothesis returns :
  compute_tabulated np_exp pow10r spline cubic fmin convex_hull vd fuel
                    field_size age resolution
                    xyz_signfig cc_dp mat_dp lms_signfig bm_dp lm_dp = Return r.

Local Abbreviation rs := (resample np_exp pow10r spline vd field_size age xyz_signfig mat_dp lms_signfig).

(** C10.  In the tuple [compute_tabulated] returns, the second end point of
    [purple_line_cc] carries the same wavelength as the second end point of
    [purple_line_bm]: where the two hull selections differ, the cc value has
    been overwritten with the bm value. *)
Theorem purple_line_cc_reports_bm_wavelength :
  second_wavelength (res_purple_line_cc r) == second_wavelength (res_purple_line_bm r).
Proof.
  destruct (compute_tabulated_Return _ _ _ _ _ _ _ _ _ _ _ _ _ _ _ _ _ _ returns)
    as (lambdas & cc_ref & err & M & lam & _ & _ & _ & Ht).
  apply tabulate_results_Return in Ht. cbv zeta in Ht.
  destruct Ht as (_ & _ & _ & _ & _ & _ & _ & _ & _ & pcc & pbm & Hbm & Hcc).
  rewrite Hcc, Hbm. apply report_bm_wavelength_agrees.
Qed.

(** C9.  The returned matrix has zero entries (2,3), (3,1) and (3,2), and
    its entry (3,3) is the ratio of the sum of V over the sum of S on the
    requested wavelength grid, rounded to [mat_dp] decimal places. *)
Theorem transformation_matrix_structure :
  exists lambdas,
    Np.arange 390 (830 + resolution) resolution = Some lambdas /\
    m23 (res_trans_mat r) = 0 /\
    m31 (res_trans_mat r) = 0 /\
    m32 (res_trans_mat r) = 0 /\
    m33 (res_trans_mat r) =
      my_round (Np.sum (map (rs_v rs) lambdas) / Np.sum (map (rs_s rs) lambdas)) mat_dp.
Proof.
  destruct (compute_tabulated_Return _ _ _ _ _ _ _ _ _ _ _ _ _ _ _ _ _ _ returns)
    as (lambdas & cc_ref & err & M & lam & Hl & _ & Hs & Ht).
  apply tabulate_results_Return in Ht. cbv zeta in Ht. destruct Ht as (-> & _).
  apply solve_result in Hs. destruct Hs as (_ & _ & _ & H23 & H31 & H32 & H33).
  exists lambdas. unfold a33_of in H33. auto.
Qed.


(** C2, as amended.  In every row of the returned [cc] and [lm] whose
    normalising sum is not zero, the three coordinates sum to 1 within one
    unit of the table's last decimal place. *)
Theorem cc_and_lm_rows_sum_to_one :
  (0 <= cc_dp)%Z -> (0 <= lm_dp)%Z ->
  (forall i t c,
     nth_error (res_xyz r) i = Some t -> nth_error (res_cc r) i = Some c ->
     ~ c1 t + c2 t + c3 t == 0 ->
     Qabs (c1 c + c2 c + c3 c - 1) <= pow10 (- cc_dp)) /\
  (forall i n c,
     nth_error (lms_N_of (map values (if (lm_dp >? 5)%Z then res_lms r
                                      else res_lms_standard r))) i = Some n ->
     nth_error (res_lm r) i = Some c ->
     ~ triple_sum n == 0 ->
     Qabs (c1 c + c2 c + c3 c - 1) <= pow10 (- lm_dp)).
Proof.
  intros Hcc Hlm.
  destruct (compute_tabulated_Return _ _ _ _ _ _ _ _ _ _ _ _ _ _ _ _ _ _ returns)
    as (lambdas & cc_ref & err & M & lam & _ & _ & _ & Ht).
  apply tabulate_results_Return in Ht. cbv zeta in Ht.
  destruct Ht as (_ & _ & Hxyz & Hc & Hlms & Hstd & _ & Hl & _).
  split.
  - intros i t c Ht Hci Hnz. rewrite Hxyz in Ht. rewrite Hc in Hci.
    apply tabulate_nth_error in Ht. apply tabulate_nth_error in Hci.
    rewrite nth_error_map, Ht in Hci. cbn [option_map] in Hci.
    assert (E : values c = cc_row cc_dp (values t)) by congruence.
    change (Qabs (triple_sum (values c) - 1) <= pow10 (- cc_dp)). rewrite E.
    exact (normalised_row_sum cc_dp (values t) Hcc Hnz).
  - intros i n c Hn Hci Hnz. rewrite Hl in Hci. apply tabulate_nth_error in Hci.
    assert (E : map values (if (lm_dp >? 5)%Z then res_lms r else res_lms_standard r)
                = if (lm_dp >? 5)%Z
                  then map (fun w => (rs_l rs w, rs_m rs w, rs_s rs w)) lambdas
                  else map (fun w => (rs_ls rs w, rs_ms rs w, rs_ss rs w)) lambdas).
    { destruct (lm_dp >? 5)%Z.
      - rewrite Hlms. apply tabulate_values. now rewrite length_map.
      - rewrite Hstd. apply tabulate_values. now rewrite length_map. }
    rewrite E in Hn. rewrite nth_error_map, Hn in Hci. cbn [option_map] in Hci.
    assert (E' : values c = lm_row lm_dp n) by congruence.
    change (Qabs (triple_sum (values c) - 1) <= pow10 (- lm_dp)). rewrite E'.
    exact (normalised_row_sum lm_dp n Hlm Hnz).
Qed.

End Returned.

(** ** Termination and parameter checks *)

Lemma obind_Raise {A B} (o : outcome A) (k : A -> outcome B) e :
  obind o k = Raise e -> o = Raise e \/ exists a, o = Return a /\ k a = Raise e.
Proof. destruct o as [a|e'|]; simpl; [eauto | intros [= ->]; auto | discriminate]. Qed.

Lemma purple_line_of_no_zero_division hull cols :
  purple_line_of hull cols <> Raise ZeroDivisionError.
Proof.
  unfold purple_line_of. destruct (hull (points_of cols)) as [[|e h]|]; cbn [or_raise obind].
  - discriminate.
  - destruct (purple_line (e :: h) cols); cbn [or_raise]; discriminate.
  - discriminate.
Qed.

Lemma tabulate_results_no_zero_division hull vd rs lambdas M lam n1 n2 n3 n4 n5 :
  tabulate_results hull vd rs lambdas M lam n1 n2 n3 n4 n5 <> Raise ZeroDivisionError.
Proof.
  unfold tabulate_results. cbv zeta. intro H.
  repeat (apply obind_Raise in H;
          destruct H as [H|(? & _ & H)];
          [exact (purple_line_of_no_zero_division _ _ H)|]).
  discriminate.
Qed.

Lemma arange_count_below resolution :
  resolution < -440 -> Qceiling ((830 + resolution - 390) / resolution) = 1%Z.
Proof.
  intro H. set (x := (830 + resolution - 390) / resolution).
  assert (E : x * resolution == 830 + resolution - 390) by (unfold x; field; lra).
  assert (X0 : 0 < x) by nra.
  assert (X1 : x < 1) by nra.
  pose proof (Qle_ceiling x) as U. pose proof (Qceiling_lt x) as L.
  assert (0 < Qceiling x)%Z by (rewrite Zlt_Qlt; change (inject_Z 0) with 0; lra).
  assert (Qceiling x - 1 < 1)%Z by (rewrite Zlt_Qlt; change (inject_Z 1) with 1; lra).
  lia.
Qed.

Lemma arange_count_negative resolution :
  -440 <= resolution < 0 -> (Qceiling ((830 + resolution - 390) / resolution) <= 0)%Z.
Proof.
  intro H. set (x := (830 + resolution - 390) / resolution).
  assert (E : x * resolution == 830 + resolution - 390) by (unfold x; field; lra).
  assert (X0 : x <= 0) by nra.
  pose proof (Qceiling_lt x) as L.
  assert (Qceiling x - 1 < 0)%Z by (rewrite Zlt_Qlt; change (inject_Z 0) with 0; lra).
  lia.
Qed.


(** C1, as amended.  The loop has no iteration bound and no error of its
    own.  A pass is [ok] exactly when the wavelength of minimal x it finds
    is the landmark it started from; the loop returns the result of the
    first such pass, and as long as no pass is, it is still running. *)
Theorem loop_runs_until_landmark_repeats
  l_spline m_spline s_spline v_spline fmin a21 a22 a33 lambdas cc_ref
  xyz_signfig mat_dp fuel lam :
  let step := pass l_spline m_spline s_spline v_spline fmin a21 a22 a33 lambdas
                   cc_ref xyz_signfig mat_dp in
  let loop := solve l_spline m_spline s_spline v_spline fmin fuel a21 a22 a33
                    lambdas lam cc_ref xyz_signfig mat_dp in
  (forall lam0, step_ok step lam0 = Qeq_bool (step_landmark step lam0) lam0) /\
  (loop = None <->
   forall j, (j < fuel)%nat -> step_ok step (landmark step j lam) = false) /\
  (forall res,
     loop = Some res <->
     exists k, (k < fuel)%nat /\
               (forall j, (j < k)%nat -> step_ok step (landmark step j lam) = false) /\
               step_ok step (landmark step k lam) = true /\
               res = step_result step (landmark step k lam)).
Proof.
  intros step loop. split; [|split].
  - intro lam0. apply pass_ok_iff.
  - unfold loop. rewrite solve_iterate. apply iterate_still_running.
  - intro res. unfold loop. rewrite solve_iterate. split.
    + apply iterate_returns_at.
    + intros (k & Hk & Hbefore & Hat & ->). now apply iterate_from_first_ok.
Qed.

(** ** The returned tuple on a worked instance *)

Lemma forallb_nonzero (l : list (Q * Q * Q)) :
  forallb (fun t => negb (Qeq_bool (triple_sum t) 0)) l = true ->
  forall t, In t l -> ~ triple_sum t == 0.
Proof.
  intros H t Ht E. rewrite forallb_forall in H. specialize (H t Ht).
  apply Qeq_eq_bool in E. rewrite E in H. discriminate.
Qed.

Lemma purple_line_cc_reports_bm_wavelength_witness :
  compute_tabulated Example.unused Example.unused Example.step_table Example.step_table
                    Example.fmin_start Example.all_hull_edges Example.vd_A
                    1 2 32 1 7 5 8 6 6 5 = Return Example.result_A /\
  second_wavelength (res_purple_line_cc Example.result_A) ==
  second_wavelength (res_purple_line_bm Example.result_A).
Proof.
  split; [exact ExampleFacts.compute_tabulated_A|].
  exact (purple_line_cc_reports_bm_wavelength
           Example.unused Example.unused Example.step_table Example.step_table
           Example.fmin_start Example.all_hull_edges Example.vd_A 1 2 32 1 7 5 8 6 6 5
           Example.result_A ExampleFacts.compute_tabulated_A).
Defined.

Lemma transformation_matrix_structure_witness :
  compute_tabulated Example.unused Example.unused Example.step_table Example.step_table
                    Example.fmin_start Example.all_hull_edges Example.vd_A
                    1 2 32 1 7 5 8 6 6 5 = Return Example.result_A /\
  exists lambdas,
    Np.arange 390 (830 + 1) 1 = Some lambdas /\
    m23 (res_trans_mat Example.result_A) = 0 /\
    m31 (res_trans_mat Example.result_A) = 0 /\
    m32 (res_trans_mat Example.result_A) = 0 /\
    m33 (res_trans_mat Example.result_A) =
      my_round (Np.sum (map (rs_v Example.rs_A) lambdas) /
                Np.sum (map (rs_s Example.rs_A) lambdas)) 8.
Proof.
  split; [exact ExampleFacts.compute_tabulated_A|].
  exact (transformation_matrix_structure
           Example.unused Example.unused Example.step_table Example.step_table
           Example.fmin_start Example.all_hull_edges Example.vd_A 1 2 32 1 7 5 8 6 6 5
           Example.result_A ExampleFacts.compute_tabulated_A).
Defined.

Lemma modelled_xyz_A_nonzero :
  forall t,
    In t (modelled_xyz (rs_l Example.rs_A) (rs_m Example.rs_A) (rs_s Example.rs_A)
                       (res_trans_mat Example.result_A) 7) ->
    ~ triple_sum t == 0.
Proof.
  rewrite ExampleFacts.trans_mat_A. apply forallb_nonzero.
  vm_compute. reflexivity.
Qed.


Lemma cc_and_lm_rows_sum_to_one_witness :
  compute_tabulated Example.unused Example.unused Example.step_table Example.step_table
                    Example.fmin_start Example.all_hull_edges Example.vd_A
                    1 2 32 1 7 5 8 6 6 5 = Return Example.result_A /\
  (0 <= 5)%Z /\ (0 <= 5)%Z /\
  (forall i t c,
     nth_error (res_xyz Example.result_A) i = Some t ->
     nth_error (res_cc Example.result_A) i = Some c ->
     ~ c1 t + c2 t + c3 t == 0 ->
     Qabs (c1 c + c2 c + c3 c - 1) <= pow10 (- 5)) /\
  (forall i n c,
     nth_error (lms_N_of (map values (if (5 >? 5)%Z then res_lms Example.result_A
                                      else res_lms_standard Example.result_A))) i = Some n ->
     nth_error (res_lm Example.result_A) i = Some c ->
     ~ triple_sum n == 0 ->
     Qabs (c1 c + c2 c + c3 c - 1) <= pow10 (- 5)).
Proof.
  split; [exact ExampleFacts.compute_tabulated_A|].
  split; [lia|]. split; [lia|].
  apply (cc_and_lm_rows_sum_to_one
           Example.unused Example.unused Example.step_table Example.step_table
           Example.fmin_start Example.all_hull_edges Example.vd_A 1 2 32 1 7 5 8 6 6 5
           Example.result_A ExampleFacts.compute_tabulated_A); lia.
Defined.

(** C2, the claim as stated fails on [bm]: the first row of the [bm] table
    of the worked instance is (0.689903, 0.348322, 1), whose coordinates sum
    to more than 2. *)
Lemma bm_row_does_not_sum_to_one :
  exists r t,
    Example.run_A 1 1 = Return r /\ In t (res_bm r) /\
    ~ Qabs (c1 t + c2 t + c3 t - 1) <= pow10 (- 6).
Proof.
  destruct ExampleFacts.bm_row_A as (t & Ht & E1 & E2 & E3).
  exists Example.result_A, t. split; [exact ExampleFacts.run_A_returns|].
  split; [exact (nth_error_In _ _ Ht)|].
  rewrite E1, E2, E3. intro H. vm_compute in H. apply H. reflexivity.
Qed.

(** ** Rounding to significant figures *)

(** C4.  The array branch of [significant_figures] maps zero to zero and
    keeps the sign of every element (for at least one significant figure);
    the scalar branch does so for zero and for a positive number, where it
    agrees with the array branch, but for every negative number it returns
    NaN: it takes the logarithm of [x], not of [abs(x)]. *)
Theorem scalar_branch_negative_is_nan :
  (forall x n, x == 0 -> significant_figures x n == 0) /\
  (forall x n, (1 <= n)%Z -> sign (significant_figures x n) == sign x) /\
  (forall n, significant_figures_scalar 0 n = Some 0) /\
  (forall x n, 0 < x ->
     exists y, significant_figures_scalar x n = Some y /\ y == significant_figures x n) /\
  (forall x n, x < 0 -> significant_figures_scalar x n = None) /\
  significant_figures_scalar (- (3#2)) 3 = None /\
  significant_figures (- (3#2)) 3 == - (3#2).
Proof.
  split; [exact significant_figures_zero|].
  split; [exact significant_figures_sign|].
  split; [reflexivity|].
  split; [exact significant_figures_scalar_pos|].
  split; [exact significant_figures_scalar_neg|].
  split; reflexivity.
Qed.

(** ** The ocular media *)

Lemma density_row vd age i d1 d2 :
  nth_error (docul1_fine vd) i = Some d1 ->
  nth_error (docul2_fine vd) i = Some d2 ->
  density vd i age = ocular_coefficient age * snd d1 + snd d2.
Proof.
  intros H1 H2. unfold density.
  pose proof (ocular_nth_error vd age i d1 d2 H1 H2) as E.
  apply (map_nth_error snd) in E. apply nth_error_nth with (d := 0) in E. exact E.
Qed.

(** C6, as amended.  Row by row, [ocular(age)] is the first component times
    a coefficient plus the second component; the coefficient is
    [1 + 0.02*(age - 32)] below 60 and [1.56 + 0.0667*(age - 60)] from 60
    on; the two expressions agree at 60, and the density moves away from its
    value at 60 by at most 0.0667 times the first component per year: it is
    continuous there, only its slope changes. *)
Theorem ocular_is_continuous_piecewise_linear vd age i d1 d2 :
  nth_error (docul1_fine vd) i = Some d1 ->
  nth_error (docul2_fine vd) i = Some d2 ->
  nth_error (ocular vd age) i = Some (fst d2, ocular_coefficient age * snd d1 + snd d2) /\
  (age < 60 -> ocular_coefficient age = 1 + (2#100) * (age - 32)) /\
  (60 <= age -> ocular_coefficient age = (156#100) + (667#10000) * (age - 60)) /\
  ocular_coefficient 60 == 1 + (2#100) * (60 - 32) /\
  Qabs (density vd i age - density vd i 60)
    <= (667#10000) * Qabs (snd d1) * Qabs (age - 60).
Proof.
  intros H1 H2.
  split; [exact (ocular_nth_error vd age i d1 d2 H1 H2)|].
  split; [exact (ocular_coefficient_young age)|].
  split; [exact (ocular_coefficient_old age)|].
  split; [reflexivity|].
  rewrite (density_row vd age i d1 d2 H1 H2), (density_row vd 60 i d1 d2 H1 H2).
  setoid_replace (ocular_coefficient age * snd d1 + snd d2 -
                  (ocular_coefficient 60 * snd d1 + snd d2))
    with ((ocular_coefficient age - ocular_coefficient 60) * snd d1) by ring.
  rewrite Qabs_Qmult.
  pose proof (ocular_coefficient_lipschitz age) as L.
  pose proof (Qabs_nonneg (snd d1)). pose proof (Qabs_nonneg (age - 60)).
  pose proof (Qabs_nonneg (ocular_coefficient age - ocular_coefficient 60)).
  nra.
Qed.

Lemma ocular_is_continuous_piecewise_linear_witness :
  nth_error (docul1_fine Example.vd_ocular) 0 = Some (390, 1#2) /\
  nth_error (docul2_fine Example.vd_ocular) 0 = Some (390, 1) /\
  nth_error (ocular Example.vd_ocular 70) 0
    = Some (fst (390, 1), ocular_coefficient 70 * snd (390, 1#2) + snd (390, 1)) /\
  (70 < 60 -> ocular_coefficient 70 = 1 + (2#100) * (70 - 32)) /\
  (60 <= 70 -> ocular_coefficient 70 = (156#100) + (667#10000) * (70 - 60)) /\
  ocular_coefficient 60 == 1 + (2#100) * (60 - 32) /\
  Qabs (density Example.vd_ocular 0 70 - density Example.vd_ocular 0 60)
    <= (667#10000) * Qabs (snd (390, 1#2)) * Qabs (70 - 60).
Proof.
  split; [reflexivity|]. split; [reflexivity|].
  apply (ocular_is_continuous_piecewise_linear Example.vd_ocular 70 0%nat (390, 1#2) (390, 1));
    reflexivity.
Defined.

(** C6, the claim as stated fails on its last part: at no row of any data
    set does the density jump at age 60. *)
Lemma ocular_does_not_jump_at_60 :
  ~ exists vd i, jumps_at (density vd i) 60.
Proof. intros (vd & i & J). exact (density_no_jump vd i J). Qed.

(** ** The purple line and the order of the rows *)

Lemma purple_line_of_Return hull cols l :
  purple_line_of hull cols = Return l ->
  exists h, hull (points_of cols) = Some h /\ purple_line h cols = Some l.
Proof.
  unfold purple_line_of. destruct (hull (points_of cols)) as [[|e h]|]; cbn [or_raise obind];
    try discriminate.
  destruct (purple_line (e :: h) cols) as [l'|] eqn:E; cbn [or_raise]; [|discriminate].
  intros [= <-]. exists (e :: h). split; [reflexivity | exact E].
Qed.

(** C5, as amended.  The purple line is the pair of rows at the two indices
    of the first facet, in the order of Qhull's list, whose indices differ
    most: it is determined by the positions of the rows in the table, not
    by the set of points. *)
Theorem purple_line_is_first_widest_index_gap
  (convex_hull : list (Q * Q) -> option (list (nat * nat))) cols l :
  purple_line_of convex_hull cols = Return l ->
  exists hull ind a b,
    convex_hull (points_of cols) = Some hull /\
    nth_error hull ind = Some (a, b) /\
    nth_error cols a = Some (fst l) /\
    nth_error cols b = Some (snd l) /\
    (forall e, In e hull -> index_gap e <= index_gap (a, b)) /\
    (forall j e, (j < ind)%nat -> nth_error hull j = Some e ->
                 index_gap e < index_gap (a, b)).
Proof.
  intro H. apply purple_line_of_Return in H. destruct H as (h & Hh & Hl).
  destruct l as [p0 p1].
  destruct (purple_line_selects _ _ _ _ Hl) as (ind & a & b & R).
  exists h, ind, a, b. split; [exact Hh | exact R].
Qed.

Lemma purple_line_is_first_widest_index_gap_witness :
  purple_line_of Example.all_hull_edges Example.square
    = Return ((400, 0, 0), (700, 0, 1)) /\
  exists hull ind a b,
    Example.all_hull_edges (points_of Example.square) = Some hull /\
    nth_error hull ind = Some (a, b) /\
    nth_error Example.square a = Some (fst ((400, 0, 0), (700, 0, 1))) /\
    nth_error Example.square b = Some (snd ((400, 0, 0), (700, 0, 1))) /\
    (forall e, In e hull -> index_gap e <= index_gap (a, b)) /\
    (forall j e, (j < ind)%nat -> nth_error hull j = Some e ->
                 index_gap e < index_gap (a, b)).
Proof.
  assert (H : purple_line_of Example.all_hull_edges Example.square
              = Return ((400, 0, 0), (700, 0, 1))) by (vm_compute; reflexivity).
  split; [exact H|].
  exact (purple_line_is_first_widest_index_gap Example.all_hull_edges Example.square _ H).
Defined.

Lemma square_hull :
  is_convex_hull (points_of Example.square) [(0, 1); (0, 3); (1, 2); (2, 3)]%nat.
Proof.
  split.
  - intros e He. cbn [In] in He.
    repeat (destruct He as [<-|He]; [vm_compute; reflexivity|]). contradiction.
  - intros i j H. pose proof (hull_edgeb_in_range _ _ _ H) as [Hi Hj].
    change (length (points_of Example.square)) with 4%nat in Hi, Hj.
    destruct i as [|[|[|[|i]]]]; try lia; destruct j as [|[|[|[|j]]]]; try lia;
      try (vm_compute in H; discriminate H); cbn [In]; auto 10.
Qed.

Lemma square_reordered_hull :
  is_convex_hull (points_of Example.square_reordered) [(0, 1); (0, 3); (1, 2); (2, 3)]%nat.
Proof.
  split.
  - intros e He. cbn [In] in He.
    repeat (destruct He as [<-|He]; [vm_compute; reflexivity|]). contradiction.
  - intros i j H. pose proof (hull_edgeb_in_range _ _ _ H) as [Hi Hj].
    change (length (points_of Example.square_reordered)) with 4%nat in Hi, Hj.
    destruct i as [|[|[|[|i]]]]; try lia; destruct j as [|[|[|[|j]]]]; try lia;
      try (vm_compute in H; discriminate H); cbn [In]; auto 10.
Qed.

(** C5, the claim as stated fails: the four corners of a square, listed in
    two orders, have a convex hull in both, and whatever lists of facets
    Qhull returns for the two, the two purple lines have different end
    points (400 and 700 nm in one order, 500 and 600 nm in the other). *)
Lemma purple_line_depends_on_row_order :
  Permutation Example.square Example.square_reordered /\
  (exists hull, is_convex_hull (points_of Example.square) hull) /\
  (exists hull, is_convex_hull (points_of Example.square_reordered) hull) /\
  (forall hull hull',
     is_convex_hull (points_of Example.square) hull ->
     is_convex_hull (points_of Example.square_reordered) hull' ->
     exists l l',
       purple_line hull Example.square = Some l /\
       purple_line hull' Example.square_reordered = Some l' /\
       ~ same_end_points l l').
Proof.
  split; [exact square_permutation|].
  split; [eexists; exact square_hull|].
  split; [eexists; exact square_reordered_hull|].
  intros hull hull' Hh Hh'.
  destruct (widest_edge_0_3 Example.square hull eq_refl eq_refl Hh) as (l & Hl & S1).
  destruct (widest_edge_0_3 Example.square_reordered hull' eq_refl eq_refl Hh')
    as (l' & Hl' & S2).
  exists l, l'. split; [exact Hl|]. split; [exact Hl'|].
  cbn [Example.square Example.square_reordered nth] in S1, S2.
  destruct l as [p0 p1], l' as [q0 q1].
  unfold same_end_points in *. cbn [fst snd] in *.
  intros [[A B]|[A B]]; destruct S1 as [[-> ->]|[-> ->]];
    destruct S2 as [[E1 E2]|[E1 E2]]; congruence.
Qed.

(** ** A loop that does not end *)

Section Oscillation.

Variable step : Q -> Q * mat3 * Q * bool.

Lemma moves_sound a b :
  moves step a b = true -> step_landmark step a = b /\ step_ok step a = false.
Proof.
  unfold moves, step_landmark, step_ok. cbv zeta.
  destruct (step a) as [[[e M] lam] ok]. cbn [fst snd].
  rewrite !andb_true_iff, negb_true_iff, Z.eqb_eq, Pos.eqb_eq.
  intros [[Hn Hd] Hok]. destruct lam as [n d], b as [n' d']. cbn [Qnum Qden] in *.
  subst. split; reflexivity.
Qed.

Lemma oscillation_never_ok a b :
  moves step a b = true -> moves step b a = true ->
  forall j, step_ok step (landmark step j a) = false /\
            step_ok step (landmark step j b) = false.
Proof.
  intros Hab Hba.
  destruct (moves_sound a b Hab) as [La Oa].
  destruct (moves_sound b a Hba) as [Lb Ob].
  induction j as [|j [IHa IHb]]; cbn [landmark].
  - split; assumption.
  - rewrite La, Lb. split; assumption.
Qed.

Lemma oscillation_keeps_running a b fuel :
  moves step a b = true -> moves step b a = true -> iterate step fuel a = None.
Proof.
  intros Hab Hba. apply iterate_still_running.
  intros j _. apply (oscillation_never_ok a b Hab Hba j).
Qed.

End Oscillation.

Module LoopFacts.
Import Example.

Lemma arange_unit : Np.arange 390 (830 + 1) 1 = Some lambda_390_830.
Proof. vm_compute. reflexivity. Qed.

Lemma reference_B : chromaticity_interpolated step_table vd_B 2 = Some cc_ref_B.
Proof.
  assert (X : match chromaticity_interpolated step_table vd_B 2 with
              | Some _ => true | None => false end = true)
    by (vm_compute; reflexivity).
  unfold cc_ref_B.
  destruct (chromaticity_interpolated step_table vd_B 2); [reflexivity | discriminate].
Qed.

Lemma pass_B_oscillates :
  moves pass_B 500 390 && moves pass_B 390 500 = true.
Proof.
  vm_cast_no_check (@eq_refl bool (moves pass_B 500 390 && moves pass_B 390 500)).
Qed.

Lemma run_B_running fuel : run_B fuel = Running.
Proof.
  unfold run_B, compute_tabulated. cbv zeta.
  rewrite arange_unit. cbn [or_raise obind].
  rewrite reference_B. cbn [or_raise obind].
  rewrite solve_iterate. fold rs_B. fold pass_B.
  pose proof pass_B_oscillates as H. apply andb_true_iff in H. destruct H as [H1 H2].
  rewrite (oscillation_keeps_running pass_B 500 390 fuel H1 H2).
  reflexivity.
Qed.

Lemma run_A_negative_resolution : is_Return (run_A 1 (- (500))) = true.
Proof. vm_cast_no_check (@eq_refl bool (is_Return (run_A 1 (- (500))))). Qed.

End LoopFacts.

(** C1, the claim as stated fails: on the data set [vd_B], with a minimiser
    that stops at its starting point, the landmark goes from 500 nm to
    390 nm and back for ever; whatever the number of passes allowed, the
    run has neither returned nor raised an error. *)
Lemma loop_does_not_end_on_oscillation :
  ~ (exists fuel r, Example.run_B fuel = Return r) /\
  ~ (exists fuel e, Example.run_B fuel = Raise e).
Proof.
  split.
  - intros (fuel & r & H). rewrite LoopFacts.run_B_running in H. discriminate.
  - intros (fuel & e & H). rewrite LoopFacts.run_B_running in H. discriminate.
Qed.


(** ** The reference chromaticities at the two ends of the blend *)


Lemma increasing_head_lt x l y : increasing (x :: l) -> In y l -> x < y.
Proof.
  revert x. induction l as [|a l IH]; intros x H Hin; [contradiction|].
  destruct H as [Hxa H]. destruct Hin as [<-|Hin]; [exact Hxa|].
  apply Qlt_trans with a; [exact Hxa | exact (IH a H Hin)].
Qed.

Lemma step_from_before cur xs ys w :
  match xs with [] => True | x0 :: _ => w < x0 end ->
  Example.step_from cur xs ys w = cur.
Proof.
  destruct xs as [|x0 xt], ys as [|y0 yt]; cbn [Example.step_from]; try reflexivity.
  intro H. destruct (Qle_bool x0 w) eqn:E; [|reflexivity].
  apply Qle_bool_iff in E. exfalso. exact (Qlt_not_le _ _ H E).
Qed.

Lemma step_from_node : forall xs ys cur xi yi w,
  increasing xs -> length xs = length ys ->
  In (xi, yi) (combine xs ys) -> w == xi ->
  Example.step_from cur xs ys w = yi.
Proof.
  induction xs as [|x0 xt IH]; intros ys cur xi yi w Hinc Hlen Hin Hw; [contradiction|].
  destruct ys as [|y0 yt]; [contradiction|].
  cbn [combine In] in Hin. cbn [Example.step_from].
  destruct Hin as [E|Hin].
  - injection E as -> ->.
    assert (L : Qle_bool xi w = true) by (apply Qle_bool_iff; rewrite Hw; apply Qle_refl).
    rewrite L. apply step_from_before.
    destruct xt as [|x1 xt]; [exact I|]. destruct Hinc as [H01 _]. rewrite Hw. exact H01.
  - pose proof (increasing_head_lt x0 xt xi Hinc (in_combine_l _ _ _ _ Hin)) as Hlt.
    assert (L : Qle_bool x0 w = true) by (apply Qle_bool_iff; rewrite Hw; apply Qlt_le_weak, Hlt).
    rewrite L. apply (IH yt y0 xi yi w); auto.
    exact (increasing_tail x0 xt Hinc).
Qed.

Lemma step_table_interpolates : interpolates_nodes Example.step_table.
Proof.
  intros xs ys xi yi x_new Hinc Hlen Hin Hx. unfold Example.step_table.
  rewrite (step_from_node xs ys 0 xi yi x_new Hinc Hlen Hin Hx). reflexivity.
Qed.

Lemma Qeq_list_sound a : forall b, Qeq_list a b = true -> Forall2 Qeq a b.
Proof.
  induction a as [|x a IH]; intros [|y b] H; cbn [Qeq_list] in H; try discriminate.
  - constructor.
  - apply andb_true_iff in H. destruct H as [H1 H2].
    constructor; [apply Qeq_bool_eq, H1 | apply IH, H2].
Qed.

Lemma standard_tableb_sound xyz : standard_tableb xyz = true -> standard_table xyz.
Proof.
  unfold standard_tableb, standard_table. cbv zeta.
  rewrite !andb_true_iff, !Qlt_bool_true.
  intros [[H1 H2] [[H3 H4] H5]].
  split; [exact (Qeq_list_sound _ _ H1)|]. split; [|repeat split; assumption].
  intros r Hr E. rewrite forallb_forall in H2. specialize (H2 r Hr).
  apply Qeq_eq_bool in E. rewrite E in H2. discriminate.
Qed.

Lemma tent_table_31 : standard_table (xyz31 Example.vd_tent).
Proof.
  change (xyz31 Example.vd_tent) with (Example.tent_table 500 520).
  apply standard_tableb_sound. vm_compute. reflexivity.
Qed.

Lemma tent_table_64 : standard_table (xyz64 Example.vd_tent).
Proof.
  change (xyz64 Example.vd_tent) with (Example.tent_table 510 530).
  apply standard_tableb_sound. vm_compute. reflexivity.
Qed.


(** ** More on [my_round] and [significant_figures] *)

Lemma Qfloor_half k : Qfloor (inject_Z k + (1#2)) = k.
Proof.
  pose proof (Qfloor_le (inject_Z k + (1#2))) as U.
  pose proof (Qlt_floor (inject_Z k + (1#2))) as L.
  rewrite inject_Z_plus in L. change (inject_Z 1) with 1 in L.
  set (f := Qfloor (inject_Z k + (1#2))) in *.
  assert (f < k + 1)%Z by (rewrite Zlt_Qlt, inject_Z_plus; change (inject_Z 1) with 1; lra).
  assert (k < f + 1)%Z by (rewrite Zlt_Qlt, inject_Z_plus; change (inject_Z 1) with 1; lra).
  lia.
Qed.

Lemma sign_opp x : sign (- x) == - sign x.
Proof.
  unfold sign. destruct x as [a b]. cbn [Qopp Qnum].
  rewrite Z.sgn_opp, inject_Z_opp. reflexivity.
Qed.

Lemma round_units_opp x n : round_units (- x) n = round_units x n.
Proof.
  unfold round_units. apply Qfloor_comp. rewrite Qabs_opp. reflexivity.
Qed.

Lemma round_units_nonneg x n : (0 <= round_units x n)%Z.
Proof.
  unfold round_units.
  pose proof (Qabs_nonneg x). pose proof (pow10_pos n).
  assert (H1 : 0 <= Qabs x * pow10 n + (1#2)) by nra.
  apply (Qfloor_resp_le 0) in H1. exact H1.
Qed.

Lemma sign_scaled x c : 0 < c -> sign (sign x * c) == sign x.
Proof.
  intro Hc. destruct (Q_dec x 0) as [[H|H]|H].
  - rewrite (sign_neg x H). apply sign_neg. lra.
  - rewrite (sign_pos x H). apply sign_pos. lra.
  - rewrite (sign_zero x H). apply sign_zero. ring.
Qed.

Lemma my_round_opp x n : my_round (- x) n == - my_round x n.
Proof.
  rewrite !my_round_units, sign_opp, round_units_opp.
  field. apply pow10_nonzero.
Qed.


(** X2.  [my_round] is odd: rounding [-x] gives minus the rounding of [x],
    so negative numbers are rounded like their absolute values. *)
Theorem my_round_is_odd x n : my_round (- x) n == - my_round x n.
Proof. exact (my_round_opp x n). Qed.

(** X3.  Ties go away from zero: a number halfway between two neighbours
    of the [n]-th decimal place, [(k + 1/2)/10^n] with [k >= 0], is rounded
    to [(k + 1)/10^n], and its opposite to [-(k + 1)/10^n]. *)
Theorem my_round_ties_away_from_zero (k n : Z) :
  (0 <= k)%Z ->
  my_round ((inject_Z k + (1#2)) / pow10 n) n == (inject_Z k + 1) / pow10 n /\
  my_round (- ((inject_Z k + (1#2)) / pow10 n)) n == - ((inject_Z k + 1) / pow10 n).
Proof.
  intro Hk. pose proof (pow10_pos n) as P.
  assert (K : 0 <= inject_Z k) by (rewrite Zle_Qle in Hk; exact Hk).
  set (x := (inject_Z k + (1#2)) / pow10 n).
  assert (Hx : 0 < x) by (apply Qlt_shift_div_l; lra).
  assert (E : my_round x n == (inject_Z k + 1) / pow10 n).
  { rewrite my_round_units, (sign_pos x Hx).
    assert (U : round_units x n = (k + 1)%Z).
    { unfold round_units. rewrite <- (Qfloor_Z (k + 1)). apply Qfloor_comp.
      rewrite (Qabs_pos x) by lra. unfold x. rewrite inject_Z_plus.
      change (inject_Z 1) with 1. field. lra. }
    rewrite U, inject_Z_plus. change (inject_Z 1) with 1. field. lra. }
  split; [exact E|]. rewrite my_round_opp, E. reflexivity.
Qed.

Lemma my_round_ties_away_from_zero_witness :
  (0 <= 2)%Z /\
  my_round ((inject_Z 2 + (1#2)) / pow10 0) 0 == (inject_Z 2 + 1) / pow10 0 /\
  my_round (- ((inject_Z 2 + (1#2)) / pow10 0)) 0 == - ((inject_Z 2 + 1) / pow10 0).
Proof. split; [lia|]. apply (my_round_ties_away_from_zero 2 0). lia. Defined.

(** X4.  [my_round] is idempotent: a number already rounded to [n] decimal
    places is left as it is. *)
Theorem my_round_is_idempotent x n : my_round (my_round x n) n == my_round x n.
Proof.
  pose proof (pow10_pos n) as P.
  pose proof (round_units_nonneg x n) as K0.
  assert (R : my_round x n == sign x * (inject_Z (round_units x n) / pow10 n))
    by (rewrite my_round_units; field; lra).
  set (k := round_units x n) in *.
  assert (K : 0 <= inject_Z k) by (rewrite Zle_Qle in K0; exact K0).
  assert (A : Qabs (sign x) == 1 \/ x == 0).
  { destruct (Q_dec x 0) as [[H|H]|H].
    - left. rewrite (sign_neg x H). reflexivity.
    - left. rewrite (sign_pos x H). reflexivity.
    - right. exact H. }
  destruct A as [A|X0].
  - assert (U : round_units (my_round x n) n = k).
    { unfold round_units. transitivity (Qfloor (inject_Z k + (1#2))); [|apply Qfloor_half].
      apply Qfloor_comp.
      assert (C : 0 <= inject_Z k / pow10 n) by (apply Qle_shift_div_l; lra).
      rewrite R, Qabs_Qmult, A, (Qabs_pos (inject_Z k / pow10 n)) by exact C.
      field. lra. }
    rewrite (my_round_units (my_round x n)), U.
    destruct (Z.eq_dec k 0) as [Z0|Z0].
    + rewrite R, Z0. change (inject_Z 0) with 0. field. lra.
    + assert (C : 0 < inject_Z k / pow10 n).
      { apply Qlt_shift_div_l; [lra|]. rewrite Qmult_0_l.
        change 0 with (inject_Z 0). rewrite <- Zlt_Qlt. lia. }
      assert (S1 : sign (my_round x n) == sign x) by (rewrite R; apply sign_scaled, C).
      rewrite S1, R. field. lra.
  - assert (E0 : my_round x n == 0).
    { rewrite R, (sign_zero x X0). ring. }
    rewrite E0. rewrite my_round_units, (sign_zero 0) by reflexivity.
    field. lra.
Qed.

(** X5.  The array branch of [significant_figures] has a relative error of
    at most [5*10^-n]: the result differs from [x] by at most
    [5*abs(x)/10^n]. *)
Theorem significant_figures_relative_error x n :
  Qabs (significant_figures x n - x) <= 5 * Qabs x / pow10 n.
Proof.
  pose proof (pow10_pos n) as P.
  destruct (Qeq_dec x 0) as [E|E].
  - rewrite (significant_figures_zero x n E), E. change (Qabs (0 - 0)) with 0.
    change (Qabs 0) with 0. apply Qle_shift_div_l; lra.
  - unfold significant_figures.
    destruct (Qeq_bool x 0) eqn:B; [apply Qeq_bool_eq in B; contradiction|].
    set (b := ceil_log10 (Qabs x)).
    pose proof (pow10_pos b) as Pb.
    destruct (ceil_log10_spec (Qabs x) (Qabs_pos_nonzero x E)) as [L _]. fold b in L.
    assert (L' : pow10 b < 10 * Qabs x).
    { replace b with (b - 1 + 1)%Z by lia. rewrite pow10_succ. lra. }
    pose proof (my_round_error (x / pow10 b) n) as M.
    setoid_replace (pow10 b * my_round (x / pow10 b) n - x)
      with (pow10 b * (my_round (x / pow10 b) n - x / pow10 b)) by (field; lra).
    rewrite Qabs_Qmult, (Qabs_pos (pow10 b)) by lra.
    apply Qle_trans with (pow10 b * ((1#2) / pow10 n)).
    + apply Qmult_le_l; [exact Pb | exact M].
    + apply Qle_shift_div_l; [exact P|].
      setoid_replace (pow10 b * ((1#2) / pow10 n) * pow10 n) with ((1#2) * pow10 b)
        by (field; lra).
      lra.
Qed.

(** ** The standard loci: [chromaticities_from_XYZ] *)

Lemma nth_map_row {A} (f : A -> Q) (l : list A) i d :
  (i < length l)%nat -> exists r, In r l /\ nth i (map f l) d = f r.
Proof.
  revert i. induction l as [|a l IH]; intros i Hi; [simpl in Hi; lia|].
  destruct i as [|i].
  - exists a. split; [now left | reflexivity].
  - destruct (IH i) as (r & Hr & E); [simpl in Hi; lia|].
    exists r. split; [now right | exact E].
Qed.

Lemma In_nth_of_map {A} (f : A -> Q) (l : list A) r :
  In r l -> exists j, (j < length (map f l))%nat /\ nth j (map f l) 0 = f r.
Proof.
  intro H. destruct (In_nth l r r H) as (j & Hj & E).
  exists j. split; [now rewrite length_map|].
  rewrite (nth_indep _ 0 (f r)) by now rewrite length_map.
  rewrite map_nth, E. reflexivity.
Qed.


Lemma xyz_A_nonzero : forall r, In r Example.xyz_A -> ~ triple_sum (values r) == 0.
Proof.
  intros r H. cbn [Example.xyz_A In] in H.
  repeat (destruct H as [<-|H]; [vm_compute; discriminate|]). contradiction.
Qed.

Lemma xyz_B_nonzero : forall r, In r Example.xyz_B -> ~ triple_sum (values r) == 0.
Proof.
  intros r H. cbn [Example.xyz_B In] in H.
  repeat (destruct H as [<-|H]; [vm_compute; discriminate|]). contradiction.
Qed.




(** ** The reference locus: [chromaticity_interpolated] *)

Lemma of_columns_complement lam : forall xs ys r,
  In r (of_columns lam xs ys (Np.map2 (fun xv yv => 1 - xv - yv) xs ys)) ->
  c1 r + c2 r + c3 r == 1.
Proof.
  unfold of_columns.
  induction lam as [|w lam IH]; intros [|x xs] [|y ys] r H;
    cbn [Np.map2 Np.map3 In] in H; try contradiction.
  destruct H as [<-|H].
  - unfold with_wl. cbn [c1 c2 c3]. ring.
  - exact (IH xs ys r H).
Qed.

Lemma of_columns_wl lam : forall xs ys zs,
  length xs = length lam -> length ys = length lam -> length zs = length lam ->
  map wl (of_columns lam xs ys zs) = lam.
Proof.
  unfold of_columns.
  induction lam as [|w lam IH]; intros [|x xs] [|y ys] [|z zs] Hx Hy Hz;
    try discriminate; [reflexivity|].
  cbn [Np.map2 Np.map3 map]. unfold with_wl at 1. cbn [wl].
  rewrite IH by (simpl in *; lia). reflexivity.
Qed.



Lemma blend_positive alpha u v :
  0 <= alpha <= 1 -> 0 < u -> 0 < v -> 0 < blend alpha u v.
Proof.
  intros [A0 A1] Hu Hv. unfold blend.
  destruct (Qlt_le_dec alpha 1) as [L|L].
  - assert (0 < (1 - alpha) * u) by (apply Qmult_lt_0_compat; lra).
    assert (0 <= alpha * v) by (apply Qmult_le_0_compat; lra). lra.
  - assert (E : alpha == 1) by lra. rewrite E. lra.
Qed.

Lemma blend_difference alpha a b a' b' :
  blend alpha a' b' - blend alpha a b == blend alpha (a' - a) (b' - b).
Proof. unfold blend. ring. Qed.

Lemma blend_monotone alpha a b a' b' :
  0 <= alpha <= 1 -> a < a' -> b < b' -> blend alpha a b < blend alpha a' b'.
Proof.
  intros Ha H1 H2.
  assert (P : 0 < blend alpha (a' - a) (b' - b)) by (apply blend_positive; lra).
  rewrite <- blend_difference in P. lra.
Qed.

Lemma blend_constant alpha c : blend alpha c c == c.
Proof. unfold blend. ring. Qed.

(** X9.  On two tables of colour matching functions tabulated at 360, 361,
    ..., 830 nm, [chromaticity_interpolated] returns for every field size
    from 2 to 10 degrees: the blended knots stay in increasing order and no
    interpolation leaves its range. *)
Theorem chromaticity_interpolated_returns_between_2_and_10
  (cubic : list Q -> list Q -> Q -> Q) (vd : VisualData) (field_size : Q) :
  standard_table (xyz31 vd) -> standard_table (xyz64 vd) ->
  2 <= field_size <= 10 ->
  exists t, chromaticity_interpolated cubic vd field_size = Some t.
Proof.
  intros table31 table64 [F2 F10].
  destruct (standard_table_knots _ table31) as (a0 & a1 & a2 & a4 & K31 & A0 & A1 & A12 & A2 & A4).
  destruct (standard_table_knots _ table64) as (b0 & b1 & b2 & b4 & K64 & B0 & B1 & B12 & B2 & B4).
  unfold chromaticity_interpolated. cbv zeta.
  unfold cc31knots, cc64knots, cc31, cc64. rewrite K31, K64, blended_knots.
  set (alpha := (field_size - 2) / 8).
  assert (Ha : 0 <= alpha <= 1).
  { unfold alpha. split; [apply Qle_shift_div_l | apply Qle_shift_div_r]; lra. }
  assert (Hb : 0 <= 1 - alpha) by lra.
  assert (E3 : blend alpha 700 700 == 700) by (unfold blend; ring).
  assert (E1 : 360 < blend alpha a1 b1)
    by (apply Qle_lt_trans with (blend alpha 360 360);
        [rewrite blend_constant; apply Qle_refl | apply blend_monotone; assumption]).
  assert (E12 : blend alpha a1 b1 < blend alpha a2 b2)
    by (apply blend_monotone; assumption).
  assert (E2 : blend alpha a2 b2 < 700)
    by (apply Qlt_le_trans with (blend alpha 700 700);
        [apply blend_monotone; assumption | rewrite blend_constant; apply Qle_refl]).
  set (knots := [360; blend alpha a1 b1; blend alpha a2 b2; blend alpha 700 700; 830]).
  assert (Hinc : increasing knots) by (unfold knots; cbn [increasing]; repeat split; lra).
  destruct (knots_in_range knots [a0; a1; a2; 700; a4]) as (l31 & L31 & F31);
    [ reflexivity | simpl; lia | exact Hinc | reflexivity | reflexivity
    | intros y [<-|[<-|[<-|[<-|[<-|[]]]]]]; lra | ].
  destruct (knots_in_range knots [b0; b1; b2; 700; b4]) as (l64 & L64 & F64);
    [ reflexivity | simpl; lia | exact Hinc | reflexivity | reflexivity
    | intros y [<-|[<-|[<-|[<-|[<-|[]]]]]]; lra | ].
  rewrite L31. cbn [bind]. rewrite L64. cbn [bind].
  destruct (cubic_in_range cubic (xyz31 vd) c1 l31 table31 F31) as (x31 & X31 & _).
  destruct (cubic_in_range cubic (xyz64 vd) c1 l64 table64 F64) as (x64 & X64 & _).
  destruct (cubic_in_range cubic (xyz31 vd) c2 l31 table31 F31) as (y31 & Y31 & _).
  destruct (cubic_in_range cubic (xyz64 vd) c2 l64 table64 F64) as (y64 & Y64 & _).
  rewrite X31. cbn [bind]. rewrite X64. cbn [bind].
  rewrite Y31. cbn [bind]. rewrite Y64. cbn [bind].
  eexists. reflexivity.
Qed.

Lemma chromaticity_interpolated_returns_between_2_and_10_witness :
  standard_table (xyz31 Example.vd_tent) /\ standard_table (xyz64 Example.vd_tent) /\
  2 <= 5 <= 10 /\
  exists t, chromaticity_interpolated Example.step_table Example.vd_tent 5 = Some t.
Proof.
  assert (R : 2 <= 5 <= 10) by (split; discriminate).
  split; [exact tent_table_31|]. split; [exact tent_table_64|]. split; [exact R|].
  exact (chromaticity_interpolated_returns_between_2_and_10
           Example.step_table Example.vd_tent 5 tent_table_31 tent_table_64 R).
Defined.

(** ** The ocular media: [ocular] and [docul_fine] *)

Lemma ocular_coefficient_monotone age1 age2 :
  age1 <= age2 -> ocular_coefficient age1 <= ocular_coefficient age2.
Proof.
  intro H.
  destruct (Qlt_le_dec age1 60) as [H1|H1]; destruct (Qlt_le_dec age2 60) as [H2|H2].
  - rewrite (ocular_coefficient_young age1 H1), (ocular_coefficient_young age2 H2). lra.
  - rewrite (ocular_coefficient_young age1 H1), (ocular_coefficient_old age2 H2). lra.
  - lra.
  - rewrite (ocular_coefficient_old age1 H1), (ocular_coefficient_old age2 H2). lra.
Qed.

(** X10.  Where the first component of the ocular media is not negative,
    the density [ocular(age)] does not decrease with age, across the
    change of slope at 60 years as well. *)
Theorem ocular_density_increases_with_age vd i d1 d2 age1 age2 :
  nth_error (docul1_fine vd) i = Some d1 ->
  nth_error (docul2_fine vd) i = Some d2 ->
  0 <= snd d1 -> age1 <= age2 ->
  density vd i age1 <= density vd i age2.
Proof.
  intros H1 H2 Hd Ha.
  rewrite (density_row vd age1 i d1 d2 H1 H2), (density_row vd age2 i d1 d2 H1 H2).
  pose proof (ocular_coefficient_monotone age1 age2 Ha). nra.
Qed.

Lemma ocular_density_increases_with_age_witness :
  nth_error (docul1_fine Example.vd_ocular) 0 = Some (390, 1#2) /\
  nth_error (docul2_fine Example.vd_ocular) 0 = Some (390, 1) /\
  0 <= snd (390, 1#2) /\ 40 <= 70 /\
  density Example.vd_ocular 0 40 <= density Example.vd_ocular 0 70.
Proof.
  split; [reflexivity|]. split; [reflexivity|].
  split; [discriminate|]. split; [discriminate|].
  apply (ocular_density_increases_with_age Example.vd_ocular 0%nat (390, 1#2) (390, 1));
    try reflexivity; discriminate.
Defined.

Lemma ocular_of_parts age (os : list (Q * Q)) (f : Q -> Q) :
  ocular_coefficient age == 1 ->
  Forall2 (fun a b => fst a = fst b /\ snd a == snd b)
    (Np.map2 (fun d1 d2 => (fst d2, ocular_coefficient age * snd d1 + snd d2))
       (Np.map2 (fun r d => (fst r, snd r - snd d)) os
                (map (fun r => (fst r, f (fst r))) os))
       (map (fun r => (fst r, f (fst r))) os))
    os.
Proof.
  intro C. induction os as [|r os IH]; cbn [map Np.map2]; constructor.
  - cbn [fst snd]. split; [reflexivity|]. rewrite C. ring.
  - exact IH.
Qed.

(** X11.  [docul_fine] splits the tabulated density of the ocular media at
    32 years into two components that add up to it again: on a data set
    whose components come from [docul_fine], [ocular(32)] has the
    wavelengths and the densities of [ocular_sum_32], whatever the fit and
    the spline. *)
Theorem ocular_at_32_is_the_tabulated_density
  (np_exp : Q -> Q) (fmin2 : (Q * Q -> Q) -> Q * Q -> Q * Q)
  (spline : list Q -> list Q -> Q -> Q)
  (ocular_sum_32 docul2 : list (Q * Q)) (vd : VisualData) :
  docul1_fine vd = fst (docul_fine np_exp fmin2 spline ocular_sum_32 docul2) ->
  docul2_fine vd = snd (docul_fine np_exp fmin2 spline ocular_sum_32 docul2) ->
  Forall2 (fun a b => fst a = fst b /\ snd a == snd b) (ocular vd 32) ocular_sum_32.
Proof.
  intros H1 H2. unfold ocular. rewrite H1, H2.
  unfold docul_fine. cbv zeta. cbn [fst snd].
  apply ocular_of_parts. reflexivity.
Qed.

Lemma ocular_at_32_is_the_tabulated_density_witness :
  docul1_fine Example.vd_fit
    = fst (docul_fine Example.unused Example.fmin2_start Example.step_table
                      Example.ocular_sum_32_E Example.docul2_E) /\
  docul2_fine Example.vd_fit
    = snd (docul_fine Example.unused Example.fmin2_start Example.step_table
                      Example.ocular_sum_32_E Example.docul2_E) /\
  Forall2 (fun a b => fst a = fst b /\ snd a == snd b)
          (ocular Example.vd_fit 32) Example.ocular_sum_32_E.
Proof.
  split; [reflexivity|]. split; [reflexivity|].
  apply (ocular_at_32_is_the_tabulated_density
           Example.unused Example.fmin2_start Example.step_table
           Example.ocular_sum_32_E Example.docul2_E Example.vd_fit); reflexivity.
Defined.

(** ** The transformation matrix: [projective_lms_to_cc_matrix], [square_sum] *)

(** X12.  The matrix of [projective_lms_to_cc_matrix] sends cone
    fundamentals to (X, Y, X + Y + Z): its first two rows are those of the
    transformation matrix and its third row produces the sum that the
    chromaticities are divided by. *)
Theorem projective_matrix_gives_the_normalising_sum (trans_mat : mat3) (lms : Q * Q * Q) :
  let xyz := dot trans_mat lms in
  let p := dot (projective_lms_to_cc_matrix trans_mat) lms in
  fst (fst p) = fst (fst xyz) /\
  snd (fst p) = snd (fst xyz) /\
  snd p == triple_sum xyz /\
  normalise xyz = (fst (fst p) / triple_sum xyz, snd (fst p) / triple_sum xyz,
                   snd xyz / triple_sum xyz).
Proof.
  destruct lms as [[l m] s]. cbv zeta.
  unfold projective_lms_to_cc_matrix, dot, triple_sum, normalise.
  cbn [m11 m12 m13 m21 m22 m23 m31 m32 m33 fst snd].
  split; [reflexivity|]. split; [reflexivity|]. split; [ring | reflexivity].
Qed.

Section ClosedForms.

Variables l_spline m_spline s_spline v_spline : Q -> Q.

(** X13.  The closed formulas of [square_sum] for the first row of the
    matrix: before rounding, [a11] and [a12] are the solution of two linear
    conditions, that the modelled X summed over the wavelength grid equals
    the sum of V, and that the modelled x chromaticity at the landmark
    equals the least x of the reference locus from 390 nm on. *)
Theorem closed_forms_solve_the_two_conditions
  (a13 a21 a22 a33 : Q) (lambdas : list Q) (lambda_ref_min : Q)
  (cc_ref : list row) (mat_dp : Z) :
  let x_ref_min := Np.min (map x_of (cc_ref_trunk cc_ref)) in
  let l_ref := l_spline lambda_ref_min in
  let m_ref := m_spline lambda_ref_min in
  let s_ref := s_spline lambda_ref_min in
  let l_sum := Np.sum (map l_spline lambdas) in
  let m_sum := Np.sum (map m_spline lambdas) in
  let s_sum := Np.sum (map s_spline lambdas) in
  let v_sum := Np.sum (map v_spline lambdas) in
  let M := trans_mat_of l_spline m_spline s_spline v_spline a13 a21 a22 a33
                        lambdas lambda_ref_min cc_ref mat_dp in
  ~ m_ref * l_sum - l_ref * m_sum == 0 ->
  ~ x_ref_min == 1 ->
  exists a11 a12,
    m11 M = my_round a11 mat_dp /\
    m12 M = my_round a12 mat_dp /\
    m13 M = my_round a13 mat_dp /\
    a11 * l_sum + a12 * m_sum + a13 * s_sum == v_sum /\
    (let X := a11 * l_ref + a12 * m_ref + a13 * s_ref in
     let Y := a21 * l_ref + a22 * m_ref in
     let Z := a33 * s_ref in
     X == x_ref_min * (X + Y + Z)).
Proof.
  cbv zeta. intros HD Hx. unfold trans_mat_of. cbv zeta. cbn [m11 m12 m13].
  eexists. eexists.
  split; [reflexivity|]. split; [reflexivity|]. split; [reflexivity|].
  split; field; split; lra.
Qed.

End ClosedForms.

Lemma closed_forms_solve_the_two_conditions_witness :
  let x_ref_min := Np.min (map x_of (cc_ref_trunk Example.flat_ref)) in
  let l_ref := Example.ramp 1 in
  let m_ref := Example.one 1 in
  let s_ref := Example.one 1 in
  let l_sum := Np.sum (map Example.ramp [1; 2]) in
  let m_sum := Np.sum (map Example.one [1; 2]) in
  let s_sum := Np.sum (map Example.one [1; 2]) in
  let v_sum := Np.sum (map Example.one [1; 2]) in
  let M := trans_mat_of Example.ramp Example.one Example.one Example.one
                        (39#100) (1#2) (1#2) 1 [1; 2] 1 Example.flat_ref 8 in
  ~ m_ref * l_sum - l_ref * m_sum == 0 /\
  ~ x_ref_min == 1 /\
  exists a11 a12,
    m11 M = my_round a11 8 /\
    m12 M = my_round a12 8 /\
    m13 M = my_round (39#100) 8 /\
    a11 * l_sum + a12 * m_sum + (39#100) * s_sum == v_sum /\
    (let X := a11 * l_ref + a12 * m_ref + (39#100) * s_ref in
     let Y := (1#2) * l_ref + (1#2) * m_ref in
     let Z := 1 * s_ref in
     X == x_ref_min * (X + Y + Z)).
Proof.
  cbv zeta.
  assert (H1 : ~ Example.one 1 * Np.sum (map Example.ramp [1; 2])
                 - Example.ramp 1 * Np.sum (map Example.one [1; 2]) == 0)
    by (intro H; vm_compute in H; discriminate H).
  assert (H2 : ~ Np.min (map x_of (cc_ref_trunk Example.flat_ref)) == 1)
    by (intro H; vm_compute in H; discriminate H).
  split; [exact H1|]. split; [exact H2|].
  exact (closed_forms_solve_the_two_conditions
           Example.ramp Example.one Example.one Example.one
           (39#100) (1#2) (1#2) 1 [1; 2] 1 Example.flat_ref 8 H1 H2).
Defined.

(** ** Sums of squares: [square_sum] and [rms_error] *)

Lemma sq_nonneg x : 0 <= sq x.
Proof. unfold sq. nra. Qed.

Lemma fold_right_nonneg l : Forall (fun v => 0 <= v) l -> 0 <= fold_right Qplus 0 l.
Proof.
  induction 1 as [|x l Hx _ IH]; cbn [fold_right]; [apply Qle_refl | lra].
Qed.

Lemma fold_left_Qplus l : forall a, fold_left Qplus l a == a + fold_right Qplus 0 l.
Proof.
  induction l as [|x l IH]; intro a; cbn [fold_left fold_right]; [ring|].
  rewrite IH. ring.
Qed.

Lemma map2_Forall {A B} (f : A -> B -> Q) (P : Q -> Prop) :
  (forall a b, P (f a b)) -> forall l1 l2, Forall P (Np.map2 f l1 l2).
Proof.
  intros H. induction l1 as [|a l1 IH]; intros [|b l2]; cbn [Np.map2]; constructor; auto.
Qed.

Section SquareSum.

Variables l_spline m_spline s_spline v_spline : Q -> Q.

(** X14.  The error that [square_sum] returns to the minimiser is a sum of
    squares: it is never negative, whatever the matrix entries. *)
Theorem square_sum_is_not_negative
  (a13 a21 a22 a33 : Q) (lambdas : list Q) (lambda_ref_min : Q)
  (cc_ref : list row) (xyz_signfig mat_dp : Z) :
  0 <= square_sum l_spline m_spline s_spline v_spline a13 a21 a22 a33
                  lambdas lambda_ref_min cc_ref xyz_signfig mat_dp.
Proof.
  unfold square_sum, square_sum_full. cbv zeta. cbn [fst].
  unfold squared_error. rewrite sum_fold. apply fold_right_nonneg.
  apply map2_Forall. intros [[cx cy] cz] [[rx ry] rz].
  pose proof (sq_nonneg (cx - rx)). pose proof (sq_nonneg (cy - ry)).
  pose proof (sq_nonneg (cz - rz)). lra.
Qed.

End SquareSum.

Lemma sum_of_squares_zero (fs : list Q) (rows : list (Q * Q)) :
  length fs = length rows ->
  fold_right Qplus 0 (Np.map2 (fun f r => sq (f - snd r)) fs rows) == 0 ->
  Forall2 (fun f r => f == snd r) fs rows.
Proof.
  revert rows. induction fs as [|f fs IH]; intros [|r rows] Hlen H; try discriminate.
  - constructor.
  - cbn [Np.map2 fold_right] in H.
    assert (T : 0 <= fold_right Qplus 0 (Np.map2 (fun f r => sq (f - snd r)) fs rows)).
    { apply fold_right_nonneg, map2_Forall. intros a b. apply sq_nonneg. }
    pose proof (sq_nonneg (f - snd r)) as S0.
    assert (Z1 : sq (f - snd r) == 0) by lra.
    constructor.
    + unfold sq in Z1. assert (f - snd r == 0) by nra. lra.
    + apply IH; [simpl in Hlen; lia | lra].
Qed.

(** X15.  [rms_error] is never negative, and it is zero only when the
    Gaussian takes the tabulated value of [docul2] at every row. *)
Theorem rms_error_is_zero_only_for_an_exact_fit
  (np_exp : Q -> Q) (param : Q * Q) (docul2 : list (Q * Q)) :
  0 <= rms_error np_exp param docul2 /\
  (rms_error np_exp param docul2 == 0 ->
   Forall2 (fun f r => f == snd r) (gauss_func np_exp param docul2) docul2).
Proof.
  unfold rms_error. rewrite fold_left_Qplus. split.
  - assert (0 <= fold_right Qplus 0
                   (Np.map2 (fun f r => sq (f - snd r)) (gauss_func np_exp param docul2) docul2)).
    { apply fold_right_nonneg, map2_Forall. intros a b. apply sq_nonneg. }
    lra.
  - intro H. apply sum_of_squares_zero.
    + unfold gauss_func. destruct param as [b x0]. apply length_map.
    + lra.
Qed.

(** ** Division by the maximum: [v_lambda_quantal] *)

Lemma fold_left_Qmax_ge t : forall a,
  a <= fold_left Qmax t a /\ (forall x, In x t -> x <= fold_left Qmax t a).
Proof.
  induction t as [|y t IH]; intro a; cbn [fold_left].
  - split; [apply Qle_refl | intros x []].
  - destruct (IH (Qmax a y)) as [H1 H2]. split.
    + apply Qle_trans with (Qmax a y); [apply Q.le_max_l | exact H1].
    + intros x [<-|Hx].
      * apply Qle_trans with (Qmax a y); [apply Q.le_max_r | exact H1].
      * apply H2, Hx.
Qed.

Lemma fold_left_Qmax_in t : forall a,
  fold_left Qmax t a == a \/ exists x, In x t /\ fold_left Qmax t a == x.
Proof.
  induction t as [|y t IH]; intro a; cbn [fold_left].
  - left. reflexivity.
  - destruct (IH (Qmax a y)) as [H|(x & Hx & H)].
    + destruct (Q.max_spec a y) as [[_ E]|[_ E]].
      * right. exists y. split; [now left | rewrite H; exact E].
      * left. rewrite H. exact E.
    + right. exists x. split; [now right | exact H].
Qed.

Lemma max_ge l x : In x l -> x <= Np.max l.
Proof.
  destruct l as [|a t]; [contradiction|]. cbn [Np.max].
  destruct (fold_left_Qmax_ge t a) as [H1 H2].
  intros [<-|H]; [exact H1 | apply H2, H].
Qed.

Lemma max_in l : l <> [] -> exists x, In x l /\ Np.max l == x.
Proof.
  destruct l as [|a t]; [congruence|]. intros _. cbn [Np.max].
  destruct (fold_left_Qmax_in t a) as [H|(x & Hx & H)].
  - exists a. split; [now left | exact H].
  - exists x. split; [now right | exact H].
Qed.

Section QuantalFacts.

Variable np_exp : Q -> Q.
Variable pow10r : Q -> Q.
Variable vd : VisualData.

(** X16.  [v_lambda_quantal] keeps the wavelengths of the quantal cone
    fundamentals and, where [1.89*L + M] is positive somewhere, is
    normalised to a peak of exactly 1: no value exceeds 1 and one equals 1. *)
Theorem v_lambda_quantal_peaks_at_one (field_size age : Q) :
  let lms := lms_quantal np_exp pow10r vd field_size age in
  let v := v_lambda_quantal np_exp pow10r vd field_size age in
  0 < Np.max (map (fun r => (189#100) * c1 r + c2 r) lms) ->
  map fst v = map wl lms /\
  (forall p, In p v -> snd p <= 1) /\
  (exists p, In p v /\ snd p == 1).
Proof.
  cbv zeta. unfold v_lambda_quantal. cbv zeta.
  set (lms := lms_quantal np_exp pow10r vd field_size age).
  rewrite !map_map. cbn [fst snd].
  set (m := Np.max (map (fun r => (189#100) * c1 r + c2 r) lms)).
  intro Hm. split; [reflexivity|]. split.
  - intros p Hp. apply in_map_iff in Hp. destruct Hp as (r & <- & Hr).
    cbn [snd]. apply Qle_shift_div_r; [exact Hm|]. rewrite Qmult_1_l.
    apply max_ge. apply (in_map (fun r => (189#100) * c1 r + c2 r)), Hr.
  - assert (N : map (fun r => (189#100) * c1 r + c2 r) lms <> []).
    { intro E. unfold m in Hm. rewrite E in Hm. cbn [Np.max] in Hm. lra. }
    destruct (max_in _ N) as (x & Hx & E). fold m in E.
    apply in_map_iff in Hx. destruct Hx as (r & Er & Hr).
    exists (wl r, ((189#100) * c1 r + c2 r) / m). split.
    + apply (in_map (fun r => (wl r, ((189#100) * c1 r + c2 r) / m))), Hr.
    + cbn [snd]. rewrite Er, <- E. field. lra.
Qed.

End QuantalFacts.

Lemma v_lambda_quantal_peaks_at_one_witness :
  0 < Np.max (map (fun r => (189#100) * c1 r + c2 r)
                  (lms_quantal Example.unused Example.half Example.vd_quantal 2 32)) /\
  map fst (v_lambda_quantal Example.unused Example.half Example.vd_quantal 2 32)
    = map wl (lms_quantal Example.unused Example.half Example.vd_quantal 2 32) /\
  (forall p, In p (v_lambda_quantal Example.unused Example.half Example.vd_quantal 2 32) ->
             snd p <= 1) /\
  (exists p, In p (v_lambda_quantal Example.unused Example.half Example.vd_quantal 2 32) /\
             snd p == 1).
Proof.
  assert (H : 0 < Np.max (map (fun r => (189#100) * c1 r + c2 r)
                (lms_quantal Example.unused Example.half Example.vd_quantal 2 32)))
    by (vm_compute; reflexivity).
  split; [exact H|].
  exact (v_lambda_quantal_peaks_at_one Example.unused Example.half Example.vd_quantal 2 32 H).
Defined.

(** ** More on the returned tuple *)

Lemma pow10_le a b : (a <= b)%Z -> pow10 a <= pow10 b.
Proof.
  intro H. replace b with (a + (b - a))%Z by lia.
  unfold pow10. rewrite Qpower_plus by discriminate.
  pose proof (pow10_pos a) as Pa. pose proof (pow10_ge_1 (b - a) ltac:(lia)) as P1.
  unfold pow10 in *. nra.
Qed.

Lemma ceil_log10_unique x b :
  0 < x -> pow10 (b - 1) < x -> x <= pow10 b -> ceil_log10 x = b.
Proof.
  intros Hx L U. destruct (ceil_log10_spec x Hx) as [L' U'].
  destruct (Z.lt_trichotomy (ceil_log10 x) b) as [H|[H|H]]; [|exact H|].
  - pose proof (pow10_le (ceil_log10 x) (b - 1) ltac:(lia)). lra.
  - pose proof (pow10_le b (ceil_log10 x - 1) ltac:(lia)). lra.
Qed.

Lemma ceil_log10_Qeq x y : 0 < x -> x == y -> ceil_log10 x = ceil_log10 y.
Proof.
  intros Hx E. assert (Hy : 0 < y) by (rewrite <- E; exact Hx).
  destruct (ceil_log10_spec y Hy) as [L U].
  apply ceil_log10_unique; [exact Hx | rewrite E; exact L | rewrite E; exact U].
Qed.

#[global] Instance significant_figures_Proper :
  Proper (Qeq ==> eq ==> Qeq) significant_figures.
Proof.
  intros x y E n n' <-. unfold significant_figures.
  destruct (Qeq_bool x 0) eqn:Bx.
  - assert (By : Qeq_bool y 0 = true)
      by (apply Qeq_eq_bool; rewrite <- E; apply Qeq_bool_eq, Bx).
    rewrite By, E. reflexivity.
  - assert (Nx : ~ x == 0) by (apply Qeq_bool_neq, Bx).
    assert (By : Qeq_bool y 0 = false).
    { destruct (Qeq_bool y 0) eqn:B; [|reflexivity].
      apply Qeq_bool_eq in B. exfalso. apply Nx. rewrite E. exact B. }
    rewrite By.
    rewrite (ceil_log10_Qeq (Qabs x) (Qabs y) (Qabs_pos_nonzero x Nx)) by (rewrite E; reflexivity).
    rewrite E. reflexivity.
Qed.

Lemma tabulate_wl lambdas : forall (a : list (Q * Q * Q)),
  length a = length lambdas -> map wl (tabulate lambdas a) = lambdas.
Proof.
  unfold tabulate. induction lambdas as [|w l IH]; intros [|[[x y] z] a] H;
    try discriminate; [reflexivity|].
  cbn [Np.map2 map]. rewrite IH by (simpl in H; lia). reflexivity.
Qed.

Lemma report_bm_wavelength_frame (cc bm : line) :
  fst (report_bm_wavelength cc bm) = fst cc /\
  snd (fst (snd (report_bm_wavelength cc bm))) = snd (fst (snd cc)) /\
  snd (snd (report_bm_wavelength cc bm)) = snd (snd cc).
Proof.
  destruct cc as [p0 [[w1 a1] b1]], bm as [q0 [[w1' a1'] b1']].
  unfold report_bm_wavelength. destruct (negb (Qeq_bool w1 w1')); cbn [fst snd]; auto.
Qed.

Lemma round_line_wavelengths dp (l : line) :
  fst (fst (fst (round_line dp l))) = fst (fst (fst l)) /\
  fst (fst (snd (round_line dp l))) = fst (fst (snd l)).
Proof. destruct l as [[[w0 a0] b0] [[w1 a1] b1]]. split; reflexivity. Qed.

Lemma two_rounded_sum a b n :
  a + b == 1 -> Qabs (my_round a n + my_round b n - 1) <= pow10 (- n).
Proof.
  intro H. pose proof (pow10_pos n) as P.
  pose proof (my_round_error a n) as Ea. pose proof (my_round_error b n) as Eb.
  rewrite pow10_opp.
  setoid_replace (my_round a n + my_round b n - 1)
    with ((my_round a n - a) + (my_round b n - b)) by (rewrite <- H; ring).
  eapply Qle_trans; [apply Qabs_triangle|].
  setoid_replace (/ pow10 n) with ((1#2) / pow10 n + (1#2) / pow10 n) by (field; lra).
  lra.
Qed.

Section PipelineMore.

Variable np_exp : Q -> Q.
Variable pow10r : Q -> Q.
Variable spline : list Q -> list Q -> Q -> Q.
Variable cubic : list Q -> list Q -> Q -> Q.
Variable fmin : (Q -> Q) -> Q -> Q -> Q.
Variable convex_hull : list (Q * Q) -> option (list (nat * nat)).
Variable vd : VisualData.

(** The white points and the purple lines of the returned tuple. *)
Lemma tabulate_results_white rs lambdas M lam xyz_signfig cc_dp lms_signfig bm_dp lm_dp r :
  tabulate_results convex_hull vd rs lambdas M lam xyz_signfig cc_dp lms_signfig bm_dp lm_dp
  = Return r ->
  let lms := map (fun w => (rs_l rs w, rs_m rs w, rs_s rs w)) lambdas in
  let lms_standard := map (fun w => (rs_ls rs w, rs_ms rs w, rs_ss rs w)) lambdas in
  let xyz := map (fun t => triple_map (fun v => significant_figures v xyz_signfig)
                                      (dot M t)) lms in
  let L_E := m21 M * Np.sum (map (fun t => fst (fst t)) lms) in
  let M_E := m22 M * Np.sum (map (fun t => snd (fst t)) lms) in
  let S_E := Np.sum (map snd lms) / rs_bm_s_max rs in
  let lms_N := lms_N_of (if (lm_dp >? 5)%Z then lms else lms_standard) in
  res_cc_white r = triple_map (fun v => my_round v cc_dp) (normalise (column_sums xyz)) /\
  res_bm_white r = triple_map (fun v => my_round v bm_dp)
                     (L_E / (L_E + M_E), M_E / (L_E + M_E), S_E / (L_E + M_E)) /\
  res_lm_white r = triple_map (fun v => my_round v lm_dp) (normalise (column_sums lms_N)) /\
  res_purple_line_cc r =
    report_bm_wavelength (round_line cc_dp (plots_purple_line_cc (res_plots r)))
                         (res_purple_line_bm r) /\
  res_purple_line_bm r = round_line bm_dp (plots_purple_line_bm (res_plots r)) /\
  res_purple_line_lm r = round_line lm_dp (plots_purple_line_lm (res_plots r)).
Proof.
  unfold tabulate_results. cbv zeta. intro H.
  apply obind_Return in H. destruct H as (pcc & _ & H).
  apply obind_Return in H. destruct H as (pbm & _ & H).
  apply obind_Return in H. destruct H as (plm & _ & H).
  apply obind_Return in H. destruct H as (p31 & _ & H).
  apply obind_Return in H. destruct H as (p64 & _ & H).
  injection H as <-.
  cbn [res_cc_white res_bm_white res_lm_white res_purple_line_cc res_purple_line_bm
       res_purple_line_lm res_plots plots_purple_line_cc plots_purple_line_bm
       plots_purple_line_lm].
  do 5 (split; [reflexivity|]). reflexivity.
Qed.

Variable fuel : nat.
Variables field_size age resolution : Q.
Variables xyz_signfig cc_dp mat_dp lms_signfig bm_dp lm_dp : Z.
Variable r : results.

Hypothesis returns :
  compute_tabulated np_exp pow10r spline cubic fmin convex_hull vd fuel
                    field_size age resolution
                    xyz_signfig cc_dp mat_dp lms_signfig bm_dp lm_dp = Return r.

Local Abbreviation rs :=
  (resample np_exp pow10r spline vd field_size age xyz_signfig mat_dp lms_signfig).

(** X17.  The six tables of the returned tuple ([xyz], [cc], [lms],
    [lms_standard], [bm] and [lm]) are all tabulated on the requested
    grid: the first column of each is [np.arange(390, 830 + resolution,
    resolution)]. *)
Theorem returned_tables_share_the_grid :
  exists lambdas,
    Np.arange 390 (830 + resolution) resolution = Some lambdas /\
    map wl (res_xyz r) = lambdas /\
    map wl (res_cc r) = lambdas /\
    map wl (res_lms r) = lambdas /\
    map wl (res_lms_standard r) = lambdas /\
    map wl (res_bm r) = lambdas /\
    map wl (res_lm r) = lambdas.
Proof.
  destruct (compute_tabulated_Return _ _ _ _ _ _ _ _ _ _ _ _ _ _ _ _ _ _ returns)
    as (lambdas & cc_ref & err & M & lam & Hl & _ & _ & Ht).
  apply tabulate_results_Return in Ht. cbv zeta in Ht.
  destruct Ht as (_ & _ & Hxyz & Hcc & Hlms & Hstd & Hbm & Hlm & _).
  exists lambdas. split; [exact Hl|].
  rewrite Hxyz, Hcc, Hlms, Hstd, Hbm, Hlm.
  repeat split; apply tabulate_wl;
    rewrite ?length_map, ?map2_length, ?length_map; try reflexivity; try lia.
  - unfold lms_N_of. destruct (lm_dp >? 5)%Z; now rewrite !length_map.
Qed.

(** X18.  The cc line of the returned tuple is the line selected on the
    hull of the chromaticity diagram with its coordinates rounded to
    [cc_dp] places: the replacement of its wavelength leaves the first end
    point and the coordinates of the second as they are, and rounding
    leaves the wavelengths of the bm and lm lines untouched. *)
Theorem purple_lines_are_the_rounded_selections :
  fst (res_purple_line_cc r)
    = fst (round_line cc_dp (plots_purple_line_cc (res_plots r))) /\
  snd (fst (snd (res_purple_line_cc r)))
    = snd (fst (snd (round_line cc_dp (plots_purple_line_cc (res_plots r))))) /\
  snd (snd (res_purple_line_cc r))
    = snd (snd (round_line cc_dp (plots_purple_line_cc (res_plots r)))) /\
  res_purple_line_bm r = round_line bm_dp (plots_purple_line_bm (res_plots r)) /\
  res_purple_line_lm r = round_line lm_dp (plots_purple_line_lm (res_plots r)) /\
  fst (fst (fst (res_purple_line_bm r)))
    = fst (fst (fst (plots_purple_line_bm (res_plots r)))) /\
  fst (fst (snd (res_purple_line_bm r)))
    = fst (fst (snd (plots_purple_line_bm (res_plots r)))).
Proof.
  destruct (compute_tabulated_Return _ _ _ _ _ _ _ _ _ _ _ _ _ _ _ _ _ _ returns)
    as (lambdas & cc_ref & err & M & lam & _ & _ & _ & Ht).
  apply tabulate_results_white in Ht. cbv zeta in Ht.
  destruct Ht as (_ & _ & _ & Hcc & Hbm & Hlm).
  destruct (report_bm_wavelength_frame
              (round_line cc_dp (plots_purple_line_cc (res_plots r)))
              (res_purple_line_bm r)) as (F1 & F2 & F3).
  rewrite <- Hcc in F1, F2, F3.
  split; [exact F1|]. split; [exact F2|]. split; [exact F3|].
  split; [exact Hbm|]. split; [exact Hlm|].
  rewrite Hbm. apply round_line_wavelengths.
Qed.

(** X19.  In the returned [xyz] table the zeros of the matrix show: at
    every wavelength of the grid, Y is [a21*L + a22*M] and Z is [a33*S],
    each rounded to [xyz_signfig] significant figures; S does not enter Y,
    and L and M do not enter Z. *)
Theorem returned_Y_and_Z_columns :
  exists lambdas,
    Np.arange 390 (830 + resolution) resolution = Some lambdas /\
    Forall2 (fun w t =>
               c2 t == significant_figures
                         (m21 (res_trans_mat r) * rs_l rs w +
                          m22 (res_trans_mat r) * rs_m rs w) xyz_signfig /\
               c3 t == significant_figures
                         (m33 (res_trans_mat r) * rs_s rs w) xyz_signfig)
            lambdas (res_xyz r).
Proof.
  destruct (compute_tabulated_Return _ _ _ _ _ _ _ _ _ _ _ _ _ _ _ _ _ _ returns)
    as (lambdas & cc_ref & err & M & lam & Hl & _ & Hs & Ht).
  apply tabulate_results_Return in Ht. cbv zeta in Ht.
  destruct Ht as (EM & _ & Hxyz & _).
  apply solve_result in Hs. destruct Hs as (_ & _ & _ & H23 & H31 & H32 & _).
  exists lambdas. split; [exact Hl|]. rewrite Hxyz, EM.
  unfold tabulate. clear Hxyz Hl.
  induction lambdas as [|w lambdas IH]; cbn [map Np.map2]; constructor; [|exact IH].
  unfold dot, triple_map, with_wl. cbn [c2 c3]. rewrite H23, H31, H32.
  split; apply significant_figures_Proper; try reflexivity; ring.
Qed.

(** X20.  The white points of the returned tuple are normalised: where the
    sums they are divided by are not zero, the three coordinates of
    [cc_white] and of [lm_white] sum to 1 within one unit of the last
    decimal place, and so do the first two coordinates of [bm_white]. *)
Theorem white_points_sum_to_one :
  (0 <= cc_dp)%Z -> (0 <= lm_dp)%Z ->
  ~ triple_sum (column_sums (map values (res_xyz r))) == 0 ->
  ~ m21 (res_trans_mat r) * Np.sum (map c1 (res_lms r)) +
    m22 (res_trans_mat r) * Np.sum (map c2 (res_lms r)) == 0 ->
  ~ triple_sum (column_sums
                  (lms_N_of (map values (if (lm_dp >? 5)%Z then res_lms r
                                         else res_lms_standard r)))) == 0 ->
  Qabs (triple_sum (res_cc_white r) - 1) <= pow10 (- cc_dp) /\
  Qabs (fst (fst (res_bm_white r)) + snd (fst (res_bm_white r)) - 1) <= pow10 (- bm_dp) /\
  Qabs (triple_sum (res_lm_white r) - 1) <= pow10 (- lm_dp).
Proof.
  intros Hcc Hlm.
  destruct (compute_tabulated_Return _ _ _ _ _ _ _ _ _ _ _ _ _ _ _ _ _ _ returns)
    as (lambdas & cc_ref & err & M & lam & _ & _ & _ & Ht).
  pose proof (tabulate_results_white _ _ _ _ _ _ _ _ _ _ Ht) as W. cbv zeta in W.
  apply tabulate_results_Return in Ht. cbv zeta in Ht.
  destruct Ht as (EM & _ & Hxyz & _ & Hlms & Hstd & _).
  destruct W as (Wcc & Wbm & Wlm & _).
  rewrite Hxyz, Hlms, Hstd, EM.
  rewrite !tabulate_values by now rewrite !length_map.
  assert (T : forall b : bool,
            map values (if b then tabulate lambdas
                                    (map (fun w => (rs_l rs w, rs_m rs w, rs_s rs w)) lambdas)
                        else tabulate lambdas
                               (map (fun w => (rs_ls rs w, rs_ms rs w, rs_ss rs w)) lambdas))
            = if b then map (fun w => (rs_l rs w, rs_m rs w, rs_s rs w)) lambdas
              else map (fun w => (rs_ls rs w, rs_ms rs w, rs_ss rs w)) lambdas).
  { intros [|]; apply tabulate_values; now rewrite length_map. }
  rewrite T.
  assert (C1 : map c1 (tabulate lambdas
                  (map (fun w => (rs_l rs w, rs_m rs w, rs_s rs w)) lambdas))
               = map (fun t => fst (fst t))
                     (map (fun w => (rs_l rs w, rs_m rs w, rs_s rs w)) lambdas)).
  { rewrite <- (tabulate_values lambdas
                  (map (fun w => (rs_l rs w, rs_m rs w, rs_s rs w)) lambdas)) at 2
      by now rewrite length_map.
    rewrite map_map. reflexivity. }
  assert (C2 : map c2 (tabulate lambdas
                  (map (fun w => (rs_l rs w, rs_m rs w, rs_s rs w)) lambdas))
               = map (fun t => snd (fst t))
                     (map (fun w => (rs_l rs w, rs_m rs w, rs_s rs w)) lambdas)).
  { rewrite <- (tabulate_values lambdas
                  (map (fun w => (rs_l rs w, rs_m rs w, rs_s rs w)) lambdas)) at 2
      by now rewrite length_map.
    rewrite map_map. reflexivity. }
  rewrite C1, C2. intros Nxyz Nbm Nlm.
  rewrite Wcc, Wbm, Wlm. split; [|split].
  - apply normalised_row_sum; assumption.
  - unfold triple_map. cbn [fst snd]. apply two_rounded_sum. field. exact Nbm.
  - apply normalised_row_sum; assumption.
Qed.

End PipelineMore.

(** ** The same on the worked instance *)

Lemma returned_tables_share_the_grid_witness :
  compute_tabulated Example.unused Example.unused Example.step_table Example.step_table
                    Example.fmin_start Example.all_hull_edges Example.vd_A
                    1 2 32 1 7 5 8 6 6 5 = Return Example.result_A /\
  exists lambdas,
    Np.arange 390 (830 + 1) 1 = Some lambdas /\
    map wl (res_xyz Example.result_A) = lambdas /\
    map wl (res_cc Example.result_A) = lambdas /\
    map wl (res_lms Example.result_A) = lambdas /\
    map wl (res_lms_standard Example.result_A) = lambdas /\
    map wl (res_bm Example.result_A) = lambdas /\
    map wl (res_lm Example.result_A) = lambdas.
Proof.
  split; [exact ExampleFacts.compute_tabulated_A|].
  exact (returned_tables_share_the_grid
           Example.unused Example.unused Example.step_table Example.step_table
           Example.fmin_start Example.all_hull_edges Example.vd_A 1 2 32 1 7 5 8 6 6 5
           Example.result_A ExampleFacts.compute_tabulated_A).
Defined.

Lemma purple_lines_are_the_rounded_selections_witness :
  compute_tabulated Example.unused Example.unused Example.step_table Example.step_table
                    Example.fmin_start Example.all_hull_edges Example.vd_A
                    1 2 32 1 7 5 8 6 6 5 = Return Example.result_A /\
  fst (res_purple_line_cc Example.result_A)
    = fst (round_line 5 (plots_purple_line_cc (res_plots Example.result_A))) /\
  snd (fst (snd (res_purple_line_cc Example.result_A)))
    = snd (fst (snd (round_line 5 (plots_purple_line_cc (res_plots Example.result_A))))) /\
  snd (snd (res_purple_line_cc Example.result_A))
    = snd (snd (round_line 5 (plots_purple_line_cc (res_plots Example.result_A)))) /\
  res_purple_line_bm Example.result_A
    = round_line 6 (plots_purple_line_bm (res_plots Example.result_A)) /\
  res_purple_line_lm Example.result_A
    = round_line 5 (plots_purple_line_lm (res_plots Example.result_A)) /\
  fst (fst (fst (res_purple_line_bm Example.result_A)))
    = fst (fst (fst (plots_purple_line_bm (res_plots Example.result_A)))) /\
  fst (fst (snd (res_purple_line_bm Example.result_A)))
    = fst (fst (snd (plots_purple_line_bm (res_plots Example.result_A)))).
Proof.
  split; [exact ExampleFacts.compute_tabulated_A|].
  exact (purple_lines_are_the_rounded_selections
           Example.unused Example.unused Example.step_table Example.step_table
           Example.fmin_start Example.all_hull_edges Example.vd_A 1 2 32 1 7 5 8 6 6 5
           Example.result_A ExampleFacts.compute_tabulated_A).
Defined.

Lemma returned_Y_and_Z_columns_witness :
  compute_tabulated Example.unused Example.unused Example.step_table Example.step_table
                    Example.fmin_start Example.all_hull_edges Example.vd_A
                    1 2 32 1 7 5 8 6 6 5 = Return Example.result_A /\
  exists lambdas,
    Np.arange 390 (830 + 1) 1 = Some lambdas /\
    Forall2 (fun w t =>
               c2 t == significant_figures
                         (m21 (res_trans_mat Example.result_A) * rs_l Example.rs_A w +
                          m22 (res_trans_mat Example.result_A) * rs_m Example.rs_A w) 7 /\
               c3 t == significant_figures
                         (m33 (res_trans_mat Example.result_A) * rs_s Example.rs_A w) 7)
            lambdas (res_xyz Example.result_A).
Proof.
  split; [exact ExampleFacts.compute_tabulated_A|].
  exact (returned_Y_and_Z_columns
           Example.unused Example.unused Example.step_table Example.step_table
           Example.fmin_start Example.all_hull_edges Example.vd_A 1 2 32 1 7 5 8 6 6 5
           Example.result_A ExampleFacts.compute_tabulated_A).
Defined.

Lemma white_sums_A : Example.white_sums_nonzero (Example.run_A 1 1) = true.
Proof.
  vm_cast_no_check (@eq_refl bool (Example.white_sums_nonzero (Example.run_A 1 1))).
Qed.

Lemma white_sums_nonzero_Return r :
  Example.white_sums_nonzero (Return r) = true ->
  ~ triple_sum (column_sums (map values (res_xyz r))) == 0 /\
  ~ m21 (res_trans_mat r) * Np.sum (map c1 (res_lms r)) +
    m22 (res_trans_mat r) * Np.sum (map c2 (res_lms r)) == 0 /\
  ~ triple_sum (column_sums
                  (lms_N_of (map values (if (5 >? 5)%Z then res_lms r
                                         else res_lms_standard r)))) == 0.
Proof.
  intro H. cbn [Example.white_sums_nonzero] in H.
  apply andb_true_iff in H. destruct H as [H H3].
  apply andb_true_iff in H. destruct H as [H1 H2].
  apply negb_true_iff in H1, H2, H3.
  change (5 >? 5)%Z with false. cbv iota.
  split; [apply Qeq_bool_neq, H1|]. split; [apply Qeq_bool_neq, H2 | apply Qeq_bool_neq, H3].
Qed.

Lemma white_sums_result_A :
  ~ triple_sum (column_sums (map values (res_xyz Example.result_A))) == 0 /\
  ~ m21 (res_trans_mat Example.result_A) * Np.sum (map c1 (res_lms Example.result_A)) +
    m22 (res_trans_mat Example.result_A) * Np.sum (map c2 (res_lms Example.result_A)) == 0 /\
  ~ triple_sum (column_sums
                  (lms_N_of (map values (if (5 >? 5)%Z then res_lms Example.result_A
                                         else res_lms_standard Example.result_A)))) == 0.
Proof.
  apply white_sums_nonzero_Return.
  rewrite <- ExampleFacts.run_A_returns. exact white_sums_A.
Qed.

Lemma white_points_sum_to_one_witness :
  compute_tabulated Example.unused Example.unused Example.step_table Example.step_table
                    Example.fmin_start Example.all_hull_edges Example.vd_A
                    1 2 32 1 7 5 8 6 6 5 = Return Example.result_A /\
  (0 <= 5)%Z /\ (0 <= 5)%Z /\
  ~ triple_sum (column_sums (map values (res_xyz Example.result_A))) == 0 /\
  ~ m21 (res_trans_mat Example.result_A) * Np.sum (map c1 (res_lms Example.result_A)) +
    m22 (res_trans_mat Example.result_A) * Np.sum (map c2 (res_lms Example.result_A)) == 0 /\
  ~ triple_sum (column_sums
                  (lms_N_of (map values (if (5 >? 5)%Z then res_lms Example.result_A
                                         else res_lms_standard Example.result_A)))) == 0 /\
  Qabs (triple_sum (res_cc_white Example.result_A) - 1) <= pow10 (- 5) /\
  Qabs (fst (fst (res_bm_white Example.result_A)) +
        snd (fst (res_bm_white Example.result_A)) - 1) <= pow10 (- 6) /\
  Qabs (triple_sum (res_lm_white Example.result_A) - 1) <= pow10 (- 5).
Proof.
  destruct white_sums_result_A as (N1 & N2 & N3).
  assert (Z5 : (0 <= 5)%Z) by lia.
  split; [exact ExampleFacts.compute_tabulated_A|].
  split; [exact Z5|]. split; [exact Z5|].
  split; [exact N1|]. split; [exact N2|]. split; [exact N3|].
  exact (white_points_sum_to_one
           Example.unused Example.unused Example.step_table Example.step_table
           Example.fmin_start Example.all_hull_edges Example.vd_A 1 2 32 1 7 5 8 6 6 5
           Example.result_A ExampleFacts.compute_tabulated_A Z5 Z5 N1 N2 N3).
Defined.

(** ** The wavelength grid of [compute_tabulated] *)

Lemma arange_n_last n : forall start step,
  last (Np.arange_n start step (S n)) 0 == start + inject_Z (Z.of_nat n) * step.
Proof.
  induction n as [|n IH]; intros start step.
  - cbn [Np.arange_n last]. change (inject_Z (Z.of_nat 0)) with 0. ring.
  - change (last (Np.arange_n start step (S (S n))) 0)
      with (last (Np.arange_n (start + step) step (S n)) 0).
    rewrite IH, Nat2Z.inj_succ. unfold Z.succ. rewrite inject_Z_plus.
    change (inject_Z 1) with 1. ring.
Qed.


